(** * Extent ranges of the update engine's payload generator

    A shallow embedding of [payload_generator/extent_ranges.cc]: extents over
    64-bit block numbers, the ordered set of extents kept by [ExtentRanges],
    its mutators and queries, and [FilterExtentRanges].

    Unsigned 64-bit values are integers in [0, 2^64); every addition and
    subtraction of the source is followed by an explicit reduction modulo
    2^64.  Iterators of the ordered set are positions in the sorted list of
    its elements, [end()] being the length of the list. *)

From Stdlib Require Import ZArith List Bool Arith Lia Sorted.
Import ListNotations.
Open Scope Z_scope.

(* ------------------------------------------------------------------ *)
(** ** 64-bit unsigned arithmetic *)

Definition two64 : Z := Eval cbv in 2 ^ 64.

Definition wrap64 (z : Z) : Z := z mod two64.

Definition u64 (z : Z) : Prop := 0 <= z < two64.

(** Modelled from the spec: the reserved sentinel [kSparseHole] of
    payload_constants.h (not part of the sources at hand), the "sparse hole /
    not a real block" value of [start_block]; it is the largest 64-bit
    value. *)
Definition kSparseHole : Z := two64 - 1.

(* ------------------------------------------------------------------ *)
(** ** Outcomes of the operations that can abort *)

Inductive outcome (A : Type) : Type :=
| Ok (a : A)          (* normal return *)
| Fatal               (* a CHECK of the source failed: the process aborts *)
| Undefined.          (* an iterator was moved or read past end() *)

Arguments Ok {A} a.
Arguments Fatal {A}.
Arguments Undefined {A}.

Definition bind {A B : Type} (c : outcome A) (k : A -> outcome B) : outcome B :=
  match c with
  | Ok a => k a
  | Fatal => Fatal
  | Undefined => Undefined
  end.

Notation "x <- c ;; k" := (bind c (fun x => k))
  (at level 61, c at next level, right associativity).

(* ------------------------------------------------------------------ *)
(** ** Extents *)

Record Extent : Type := mkExtent { start_block : Z; num_blocks : Z }.

Definition ExtentForRange (start_block num_blocks : Z) : Extent :=
  mkExtent start_block num_blocks.

Definition set_num_blocks (e : Extent) (n : Z) : Extent :=
  mkExtent (start_block e) n.

(** The default-constructed extent [{}]. *)
Definition empty_extent : Extent := mkExtent 0 0.

(** The recurring expression [e.start_block() + e.num_blocks()]. *)
Definition end_block (e : Extent) : Z := wrap64 (start_block e + num_blocks e).

Definition u64_extent (e : Extent) : Prop :=
  u64 (start_block e) /\ u64 (num_blocks e).

Definition ExtentsOverlapOrTouch (a b : Extent) : bool :=
  if start_block a =? start_block b then true
  else if (start_block a =? kSparseHole) || (start_block b =? kSparseHole)
  then false
  else if start_block a <? start_block b
  then end_block a >=? start_block b
  else end_block b >=? start_block a.

Definition ExtentsOverlap (a b : Extent) : bool :=
  if start_block a =? start_block b then negb (num_blocks a =? 0)
  else if (start_block a =? kSparseHole) || (start_block b =? kSparseHole)
  then false
  else if start_block a <? start_block b
  then end_block a >? start_block b
  else end_block b >? start_block a.

Definition UnionOverlappingExtents (first second : Extent) : outcome Extent :=
  if start_block first =? kSparseHole then Fatal
  else if start_block second =? kSparseHole then Fatal
  else
    let start := Z.min (start_block first) (start_block second) in
    let end_ := Z.max (end_block first) (end_block second) in
    Ok (ExtentForRange start (wrap64 (end_ - start))).

Definition GetOverlapExtent (extent1 extent2 : Extent) : Extent :=
  if negb (ExtentsOverlap extent1 extent2) then empty_extent
  else
    let start := Z.max (start_block extent1) (start_block extent2) in
    let end_ := Z.min (end_block extent1) (end_block extent2) in
    ExtentForRange start (wrap64 (end_ - start)).

(* ------------------------------------------------------------------ *)
(** ** The ordered set of extents *)

(** Modelled from the spec: the comparator [ExtentLess] of extent_ranges.h
    (not part of the sources at hand): extents are ordered by [start_block],
    ties broken by [num_blocks]. *)
Definition ExtentLess (x y : Extent) : bool :=
  if start_block x =? start_block y then num_blocks x <? num_blocks y
  else start_block x <? start_block y.

(** [std::set<Extent, ExtentLess>]: the list of its elements in iteration
    order.  An iterator is an index; [end()] is the length. *)
Definition ExtentSet : Type := list Extent.

(** First position whose element is not less than [k]. *)
Fixpoint lower_bound (s : ExtentSet) (k : Extent) : nat :=
  match s with
  | [] => 0%nat
  | e :: t => if ExtentLess e k then S (lower_bound t k) else 0%nat
  end.

(** First position whose element is greater than [k]. *)
Fixpoint upper_bound (s : ExtentSet) (k : Extent) : nat :=
  match s with
  | [] => 0%nat
  | e :: t => if ExtentLess k e then 0%nat else S (upper_bound t k)
  end.

(** [insert(x)]: no effect when an equivalent element is present. *)
Fixpoint set_insert (x : Extent) (s : ExtentSet) : ExtentSet :=
  match s with
  | [] => [x]
  | e :: t =>
    if ExtentLess x e then x :: e :: t
    else if ExtentLess e x then e :: set_insert x t
    else e :: t
  end.

(** [erase(first, last)]. *)
Definition set_erase (first last : nat) (s : ExtentSet) : ExtentSet :=
  firstn first s ++ skipn last s.

(** [insert(first, last)] over the elements of another container. *)
Definition set_insert_all (xs : list Extent) (s : ExtentSet) : ExtentSet :=
  fold_left (fun acc x => set_insert x acc) xs s.

Record ExtentRanges : Type := mkRanges {
  extent_set_ : ExtentSet;
  blocks_ : Z;
  merge_touching_extents_ : bool
}.

Definition empty_ranges (merge_touching_extents : bool) : ExtentRanges :=
  mkRanges [] 0 merge_touching_extents.

(* ------------------------------------------------------------------ *)
(** ** GetCandidateRange *)

(** The first loop: walk [lower_it] back while it is [end()] or its element
    ends after the start of [extent]. *)
Fixpoint walk_back (s : ExtentSet) (extent : Extent) (lower_it : nat) : nat :=
  match lower_it with
  | O => O
  | S prev =>
    if Nat.eqb lower_it (length s)
       || (end_block (nth lower_it s empty_extent) >? start_block extent)
    then walk_back s extent prev
    else lower_it
  end.

(** The second loop: advance [upper_it] over the elements that start at or
    before [limit]; [tl] are the elements from [upper_it] on. *)
Fixpoint walk_forward (tl : list Extent) (upper_it : nat) (limit : Z) : nat :=
  match tl with
  | [] => upper_it
  | e :: tl' =>
    if start_block e <=? limit then walk_forward tl' (S upper_it) limit
    else upper_it
  end.

Definition GetCandidateRange (s : ExtentSet) (extent : Extent) : nat * nat :=
  let lower_it := walk_back s extent (lower_bound s extent) in
  let upper_it := upper_bound s (ExtentForRange (end_block extent) 1) in
  (lower_it, walk_forward (skipn upper_it s) upper_it (end_block extent)).

(* ------------------------------------------------------------------ *)
(** ** AddExtent *)

Record add_state : Type := mkAdd {
  begin_del : nat;
  end_del : nat;
  del_blocks : Z;
  cur_extent : Extent
}.

Definition should_merge (merge : bool) (it extent : Extent) : bool :=
  if merge then ExtentsOverlapOrTouch it extent else ExtentsOverlap it extent.

(** The loop [for (it = range.begin(); it != range.end(); ++it)]; [tl] are
    the elements from [it] on and [n] is [extent_set_.end()]. *)
Fixpoint add_loop (merge : bool) (n : nat) (tl : list Extent) (it e : nat)
         (st : add_state) : outcome add_state :=
  if Nat.eqb it e then Ok st
  else
    match tl with
    | [] => Undefined
    | x :: tl' =>
      if should_merge merge x (cur_extent st) then
        u <- UnionOverlappingExtents (cur_extent st) x ;;
        add_loop merge n tl' (S it) e
          (mkAdd (if Nat.eqb (begin_del st) n then it else begin_del st)
                 (S it)
                 (wrap64 (del_blocks st + num_blocks x))
                 u)
      else add_loop merge n tl' (S it) e st
    end.

Definition AddExtent (r : ExtentRanges) (extent : Extent) : outcome ExtentRanges :=
  if (start_block extent =? kSparseHole) || (num_blocks extent =? 0) then Ok r
  else
    let s := extent_set_ r in
    let n := length s in
    let '(lo, hi) := GetCandidateRange s extent in
    st <- add_loop (merge_touching_extents_ r) n (skipn lo s) lo hi
            (mkAdd n n 0 extent) ;;
    Ok (mkRanges
          (set_insert (cur_extent st) (set_erase (begin_del st) (end_del st) s))
          (wrap64 (wrap64 (blocks_ r - del_blocks st) + num_blocks (cur_extent st)))
          (merge_touching_extents_ r)).

(* ------------------------------------------------------------------ *)
(** ** SubtractExtent *)

Definition SubtractOverlappingExtents (base subtractee : Extent) : ExtentSet :=
  let ret := [] in
  let ret :=
    if start_block subtractee >? start_block base
    then set_insert (ExtentForRange (start_block base)
                       (wrap64 (start_block subtractee - start_block base))) ret
    else ret in
  let base_end := end_block base in
  let subtractee_end := end_block subtractee in
  if base_end >? subtractee_end
  then set_insert (ExtentForRange subtractee_end
                     (wrap64 (base_end - subtractee_end))) ret
  else ret.

Record sub_state : Type := mkSub {
  sub_begin_del : nat;
  sub_end_del : nat;
  sub_del_blocks : Z;
  new_extents : ExtentSet
}.

(** The inner loop over the pieces of one subtraction. *)
Definition sub_pieces (subtraction : list Extent) (st : sub_state) : sub_state :=
  fold_left
    (fun acc jt =>
       mkSub (sub_begin_del acc) (sub_end_del acc)
             (wrap64 (sub_del_blocks acc - num_blocks jt))
             (set_insert jt (new_extents acc)))
    subtraction st.

(** The outer loop, from [begin()] to [end()]. *)
Fixpoint sub_loop (n : nat) (extent : Extent) (tl : list Extent) (it : nat)
         (st : sub_state) : sub_state :=
  match tl with
  | [] => st
  | x :: tl' =>
    if negb (ExtentsOverlap x extent) then sub_loop n extent tl' (S it) st
    else
      let st1 :=
        mkSub (if Nat.eqb (sub_begin_del st) n then it else sub_begin_del st)
              (S it)
              (wrap64 (sub_del_blocks st + num_blocks x))
              (new_extents st) in
      sub_loop n extent tl' (S it)
        (sub_pieces (SubtractOverlappingExtents x extent) st1)
  end.

Definition SubtractExtent (r : ExtentRanges) (extent : Extent) : ExtentRanges :=
  if (start_block extent =? kSparseHole) || (num_blocks extent =? 0) then r
  else
    let s := extent_set_ r in
    let n := length s in
    let st := sub_loop n extent s 0%nat (mkSub n n 0 []) in
    mkRanges
      (set_insert_all (new_extents st)
         (set_erase (sub_begin_del st) (sub_end_del st) s))
      (wrap64 (blocks_ r - sub_del_blocks st))
      (merge_touching_extents_ r).

(* ------------------------------------------------------------------ *)
(** ** Bulk variants *)

Fixpoint AddExtents (r : ExtentRanges) (extents : list Extent) : outcome ExtentRanges :=
  match extents with
  | [] => Ok r
  | e :: rest => r' <- AddExtent r e ;; AddExtents r' rest
  end.

Definition SubtractExtents (r : ExtentRanges) (extents : list Extent) : ExtentRanges :=
  fold_left SubtractExtent extents r.

Definition AddRanges (r ranges : ExtentRanges) : outcome ExtentRanges :=
  AddExtents r (extent_set_ ranges).

Definition SubtractRanges (r ranges : ExtentRanges) : ExtentRanges :=
  SubtractExtents r (extent_set_ ranges).

(* ------------------------------------------------------------------ *)
(** ** ContainsBlock *)

Definition block_in_extent (block : Z) (e : Extent) : bool :=
  (start_block e <=? block) && (block <? end_block e).

Fixpoint contains_loop (tl : list Extent) (iter upper : nat) (block : Z)
  : outcome bool :=
  if Nat.eqb iter upper then Ok false
  else
    match tl with
    | [] => Undefined
    | e :: tl' =>
      if block_in_extent block e then Ok true
      else contains_loop tl' (S iter) upper block
    end.

Definition ContainsBlock (r : ExtentRanges) (block : Z) : outcome bool :=
  let s := extent_set_ r in
  let lower := Nat.pred (lower_bound s (ExtentForRange block 1)) in
  let upper := lower_bound s (ExtentForRange (wrap64 (block + 1)) 0) in
  contains_loop (skipn lower s) lower upper block.

(* ------------------------------------------------------------------ *)
(** ** GetExtentsForBlockCount *)

(** Modelled from the spec: [utils::BlocksInExtents] (utils.h is not part of
    the sources at hand), the 64-bit sum of [num_blocks] over a sequence. *)
Definition BlocksInExtents (l : list Extent) : Z :=
  fold_left (fun acc e => wrap64 (acc + num_blocks e)) l 0.

(** [out.back().set_num_blocks(n)]. *)
Fixpoint set_back_num_blocks (out : list Extent) (n : Z) : list Extent :=
  match out with
  | [] => []
  | [e] => [set_num_blocks e n]
  | e :: t => e :: set_back_num_blocks t n
  end.

Fixpoint take_loop (count : Z) (tl : list Extent) (out : list Extent)
         (out_blocks : Z) : list Extent * Z :=
  match tl with
  | [] => (out, out_blocks)
  | extent :: tl' =>
    let blocks_needed := wrap64 (count - out_blocks) in
    let out1 := out ++ [extent] in
    let out_blocks1 := wrap64 (out_blocks + num_blocks extent) in
    if num_blocks extent <? blocks_needed
    then take_loop count tl' out1 out_blocks1
    else if num_blocks extent =? blocks_needed
    then (out1, out_blocks1)
    else (set_back_num_blocks out1 blocks_needed,
          wrap64 (wrap64 (out_blocks1 - num_blocks extent) + blocks_needed))
  end.

Definition GetExtentsForBlockCount (r : ExtentRanges) (count : Z)
  : outcome (list Extent) :=
  if count =? 0 then Ok []
  else if negb (count <=? blocks_ r) then Fatal
  else
    let '(out, out_blocks) := take_loop count (extent_set_ r) [] 0 in
    if out_blocks =? BlocksInExtents out then Ok out else Fatal.

(* ------------------------------------------------------------------ *)
(** ** FilterExtentRanges *)

(** The inner loop over the excluded extents [lower .. upper); it returns
    the grown result and what is left of [extent]. *)
Fixpoint filter_loop (tl : list Extent) (iter upper : nat) (extent : Extent)
         (res : list Extent) : outcome (list Extent * Extent) :=
  if Nat.eqb iter upper then Ok (res, extent)
  else
    match tl with
    | [] => Undefined
    | x :: tl' =>
      if negb (ExtentsOverlap extent x)
      then filter_loop tl' (S iter) upper extent res
      else if start_block x <=? start_block extent then
        let cut_blocks := wrap64 (end_block x - start_block extent) in
        if cut_blocks >=? num_blocks extent
        then Ok (res, set_num_blocks extent 0)
        else filter_loop tl' (S iter) upper
               (ExtentForRange (wrap64 (start_block extent + cut_blocks))
                               (wrap64 (num_blocks extent - cut_blocks)))
               res
      else
        let res1 :=
          res ++ [ExtentForRange (start_block extent)
                    (wrap64 (start_block x - start_block extent))] in
        let new_start := end_block x in
        let old_end := end_block extent in
        if new_start >=? old_end
        then Ok (res1, set_num_blocks extent 0)
        else filter_loop tl' (S iter) upper
               (ExtentForRange new_start (wrap64 (old_end - new_start)))
               res1
    end.

Definition filter_one (extent_set : ExtentSet) (res : list Extent)
           (extent : Extent) : outcome (list Extent) :=
  let lower := Nat.pred (lower_bound extent_set extent) in
  let upper := lower_bound extent_set (ExtentForRange (end_block extent) 0) in
  p <- filter_loop (skipn lower extent_set) lower upper extent res ;;
  let '(res1, extent1) := p in
  Ok (if num_blocks extent1 >? 0 then res1 ++ [extent1] else res1).

Fixpoint filter_all (extent_set : ExtentSet) (extents : list Extent)
         (res : list Extent) : outcome (list Extent) :=
  match extents with
  | [] => Ok res
  | extent :: rest =>
    res1 <- filter_one extent_set res extent ;;
    filter_all extent_set rest res1
  end.

Definition FilterExtentRanges (extents : list Extent) (ranges : ExtentRanges)
  : outcome (list Extent) :=
  filter_all (extent_set_ ranges) extents [].

(* ------------------------------------------------------------------ *)
(** ** Single blocks and repeated fields *)

Definition AddBlock (r : ExtentRanges) (block : Z) : outcome ExtentRanges :=
  AddExtent r (ExtentForRange block 1).

Definition SubtractBlock (r : ExtentRanges) (block : Z) : ExtentRanges :=
  SubtractExtent r (ExtentForRange block 1).

(** The loop [for (int i = 0, e = exts.size(); i != e; ++i)] over a repeated
    field, read with [exts.Get(i)]; [todo] is [e - i]. *)
Fixpoint add_repeated (exts : list Extent) (i todo : nat) (r : ExtentRanges)
  : outcome ExtentRanges :=
  match todo with
  | O => Ok r
  | S todo' =>
    r' <- AddExtent r (nth i exts empty_extent) ;;
    add_repeated exts (S i) todo' r'
  end.

Definition AddRepeatedExtents (r : ExtentRanges) (exts : list Extent)
  : outcome ExtentRanges :=
  add_repeated exts 0 (length exts) r.

Fixpoint subtract_repeated (exts : list Extent) (i todo : nat) (r : ExtentRanges)
  : ExtentRanges :=
  match todo with
  | O => r
  | S todo' =>
    subtract_repeated exts (S i) todo'
      (SubtractExtent r (nth i exts empty_extent))
  end.

Definition SubtractRepeatedExtents (r : ExtentRanges) (exts : list Extent)
  : ExtentRanges :=
  subtract_repeated exts 0 (length exts) r.

(* ------------------------------------------------------------------ *)
(** ** OverlapsWithExtent and GetIntersectingExtents *)

Fixpoint overlaps_loop (tl : list Extent) (it e : nat) (extent : Extent)
  : outcome bool :=
  if Nat.eqb it e then Ok false
  else
    match tl with
    | [] => Undefined
    | entry :: tl' =>
      if ExtentsOverlap entry extent then Ok true
      else overlaps_loop tl' (S it) e extent
    end.

Definition OverlapsWithExtent (r : ExtentRanges) (extent : Extent) : outcome bool :=
  let s := extent_set_ r in
  let '(lo, hi) := GetCandidateRange s extent in
  overlaps_loop (skipn lo s) lo hi extent.

Fixpoint intersecting_loop (tl : list Extent) (it e : nat) (extent : Extent)
         (result : list Extent) : outcome (list Extent) :=
  if Nat.eqb it e then Ok result
  else
    match tl with
    | [] => Undefined
    | ext :: tl' =>
      let intersection := GetOverlapExtent ext extent in
      intersecting_loop tl' (S it) e extent
        (if negb (num_blocks intersection =? 0)
         then result ++ [intersection] else result)
    end.

Definition GetIntersectingExtents (r : ExtentRanges) (extent : Extent)
  : outcome (list Extent) :=
  let s := extent_set_ r in
  let '(lo, hi) := GetCandidateRange s extent in
  intersecting_loop (skipn lo s) lo hi extent [].

(* ------------------------------------------------------------------ *)
(** ** ExtentForBytes *)

(** Modelled from the spec: [utils::DivRoundUp] (utils.h is not part of the
    sources at hand), the ceiling division of [x] by [y]. *)
Definition DivRoundUp (x y : Z) : Z := (x + y - 1) / y.

(** A zero [block_size] divides by zero. *)
Definition ExtentForBytes (block_size start_bytes size_bytes : Z)
  : outcome Extent :=
  if block_size =? 0 then Undefined
  else
    let start_block := start_bytes / block_size in
    let end_block := DivRoundUp (wrap64 (start_bytes + size_bytes)) block_size in
    Ok (ExtentForRange start_block (wrap64 (end_block - start_block))).

(* ------------------------------------------------------------------ *)
(** ** Vocabulary of the specification *)

(** The blocks of an extent: the half-open interval
    [start_block, start_block + num_blocks) over the integers. *)
Definition covers (e : Extent) (x : Z) : Prop :=
  start_block e <= x < start_block e + num_blocks e.

(** The blocks an extent denotes: a sparse hole denotes none. *)
Definition blocks_of (e : Extent) (x : Z) : Prop :=
  start_block e <> kSparseHole /\ covers e x.

Definition is_empty (e : Extent) : Prop :=
  num_blocks e = 0 \/ start_block e = kSparseHole.

(** One extent ends exactly where the other begins. *)
Definition touching (a b : Extent) : Prop :=
  start_block a + num_blocks a = start_block b
  \/ start_block b + num_blocks b = start_block a.

(** The end of the extent is representable: no 64-bit wrap-around. *)
Definition in_range (e : Extent) : Prop :=
  u64_extent e /\ start_block e + num_blocks e < two64.

(** An argument that is a sparse hole, or whose end does not wrap. *)
Definition fits (e : Extent) : Prop :=
  u64_extent e
  /\ (start_block e = kSparseHole \/ start_block e + num_blocks e < two64).

Definition nondegenerate (e : Extent) : Prop :=
  start_block e <> kSparseHole /\ num_blocks e <> 0.

(** The covered blocks of a set. *)
Definition covered (s : ExtentSet) (x : Z) : Prop :=
  exists e, In e s /\ covers e x.

(** The sum of [num_blocks] over a sequence, over the integers. *)
Definition total_blocks (l : list Extent) : Z :=
  fold_right (fun e acc => num_blocks e + acc) 0 l.

(** [a] comes before [b]: sorted by start, not overlapping, and not
    touching either when [merge] is set. *)
Definition precedes (merge : bool) (a b : Extent) : Prop :=
  start_block a < start_block b
  /\ start_block a + num_blocks a <= start_block b
  /\ (merge = true -> start_block a + num_blocks a <> start_block b).

(** The three invariants of the data model. *)
Record data_invariant (r : ExtentRanges) : Prop := mkInv {
  inv_entries : Forall (fun e => u64_extent e /\ nondegenerate e) (extent_set_ r);
  inv_sorted : StronglySorted (precedes (merge_touching_extents_ r)) (extent_set_ r);
  inv_blocks : blocks_ r = total_blocks (extent_set_ r)
}.

(** The sets reachable from the empty one by the mutators, called with
    arguments satisfying [ok]. *)
Inductive reachable (ok : Extent -> Prop) : ExtentRanges -> Prop :=
| reach_empty merge : reachable ok (empty_ranges merge)
| reach_AddExtent r e r' :
    reachable ok r -> ok e -> AddExtent r e = Ok r' -> reachable ok r'
| reach_SubtractExtent r e :
    reachable ok r -> ok e -> reachable ok (SubtractExtent r e)
| reach_AddExtents r es r' :
    reachable ok r -> Forall ok es -> AddExtents r es = Ok r' -> reachable ok r'
| reach_SubtractExtents r es :
    reachable ok r -> Forall ok es -> reachable ok (SubtractExtents r es)
| reach_AddRanges r q r' :
    reachable ok r -> reachable ok q -> AddRanges r q = Ok r' -> reachable ok r'
| reach_SubtractRanges r q :
    reachable ok r -> reachable ok q -> reachable ok (SubtractRanges r q).

(** A stored entry: non-empty, and its end does not wrap. *)
Definition stored_ok (e : Extent) : Prop :=
  0 <= start_block e /\ 0 < num_blocks e /\ start_block e + num_blocks e < two64.

Definition gap (merge : bool) : Z := if merge then 1 else 0.

(** [a] ends at least [g] blocks before [b] starts. *)
Definition sep (g : Z) (a b : Extent) : Prop :=
  start_block a + num_blocks a + g <= start_block b.

(** The representation the proofs work with: stored entries in order, each
    separated from the later ones. *)
Definition well_formed (g : Z) (s : ExtentSet) : Prop :=
  Forall stored_ok s /\ StronglySorted (sep g) s.

Record ranges_ok (r : ExtentRanges) : Prop := mkOk {
  ok_set : well_formed (gap (merge_touching_extents_ r)) (extent_set_ r);
  ok_blocks : blocks_ r = total_blocks (extent_set_ r)
}.

(** The square hull of two extents, over the integers. *)
Definition hull2 (a b : Extent) : Extent :=
  let start := Z.min (start_block a) (start_block b) in
  mkExtent start
    (Z.max (start_block a + num_blocks a) (start_block b + num_blocks b) - start).

Definition hull (e : Extent) (m : list Extent) : Extent := fold_left hull2 m e.

(** Number of blocks two extents share, over the integers. *)
Definition shared_blocks (a b : Extent) : Z :=
  Z.max 0 (Z.min (start_block a + num_blocks a) (start_block b + num_blocks b)
           - Z.max (start_block a) (start_block b)).

(** Number of blocks of [e] inside the set [s]. *)
Definition excluded_blocks (s : ExtentSet) (e : Extent) : Z :=
  fold_right (fun x acc => shared_blocks e x + acc) 0 s.

Definition total_excluded (s : ExtentSet) (extents : list Extent) : Z :=
  fold_right (fun e acc => excluded_blocks s e + acc) 0 extents.

(** [o] is a sub-range of [e]. *)
Definition sub_range (o e : Extent) : Prop :=
  start_block e <= start_block o
  /\ start_block o + num_blocks o <= start_block e + num_blocks e.

(** Two extents at least [g] blocks apart, in either order. *)
Definition apart (g : Z) (a b : Extent) : Prop := sep g a b \/ sep g b a.

(** What is left of [x] around [e], over the integers. *)
Definition pieces (e x : Extent) : list Extent :=
  (if start_block x <? start_block e
   then [mkExtent (start_block x) (start_block e - start_block x)] else [])
  ++ (if start_block e + num_blocks e <? start_block x + num_blocks x
      then [mkExtent (start_block e + num_blocks e)
              (start_block x + num_blocks x - (start_block e + num_blocks e))]
      else []).

(** What the loop takes: whole entries, then one entry possibly cut. *)
Definition taken_from (tl taken : list Extent) : Prop :=
  exists pre x post k,
    tl = pre ++ x :: post
    /\ taken = pre ++ [mkExtent (start_block x) k]
    /\ 0 < k <= num_blocks x.

(** The blocks [x] and [e] share, as an extent over the integers. *)
Definition isect (e x : Extent) : Extent :=
  let start := Z.max (start_block x) (start_block e) in
  mkExtent start
    (Z.min (start_block x + num_blocks x) (start_block e + num_blocks e) - start).

(** The blocks of a sequence of arguments; sparse holes have none. *)
Definition blocks_of_any (es : list Extent) (x : Z) : Prop :=
  exists e, In e es /\ blocks_of e x.

(* ------------------------------------------------------------------ *)
(** ** Proof tools *)

Ltac unbool :=
  repeat match goal with
  | H : (_ || _)%bool = true |- _ => apply orb_true_iff in H
  | H : (_ || _)%bool = false |- _ => apply orb_false_iff in H; destruct H
  | H : (_ && _)%bool = true |- _ => apply andb_true_iff in H; destruct H
  | H : (_ && _)%bool = false |- _ => apply andb_false_iff in H
  | H : negb _ = true |- _ => apply negb_true_iff in H
  | H : negb _ = false |- _ => apply negb_false_iff in H
  | H : (_ =? _) = true |- _ => apply Z.eqb_eq in H
  | H : (_ =? _) = false |- _ => apply Z.eqb_neq in H
  | H : (_ <? _) = true |- _ => apply Z.ltb_lt in H
  | H : (_ <? _) = false |- _ => apply Z.ltb_ge in H
  | H : (_ <=? _) = true |- _ => apply Z.leb_le in H
  | H : (_ <=? _) = false |- _ => apply Z.leb_gt in H
  | H : (_ >? _) = true |- _ => rewrite Z.gtb_ltb in H
  | H : (_ >? _) = false |- _ => rewrite Z.gtb_ltb in H
  | H : (_ >=? _) = true |- _ => rewrite Z.geb_leb in H
  | H : (_ >=? _) = false |- _ => rewrite Z.geb_leb in H
  end.

Ltac split_ifs :=
  repeat match goal with
  | |- context [if ?c then _ else _] => destruct c eqn:?
  end.

Ltac split_cmps :=
  repeat match goal with
  | |- context [?a =? ?b] => destruct (a =? b) eqn:?
  | |- context [?a <? ?b] => destruct (a <? b) eqn:?
  | |- context [?a <=? ?b] => destruct (a <=? b) eqn:?
  | |- context [?a >? ?b] => destruct (a >? b) eqn:?
  | |- context [?a >=? ?b] => destruct (a >=? b) eqn:?
  end; simpl.

Ltac unfold_ext :=
  unfold in_range, fits, nondegenerate, stored_ok, sep, u64_extent, u64,
    touching, blocks_of, is_empty, covers, precedes,
    ExtentsOverlap, ExtentsOverlapOrTouch, GetOverlapExtent, ExtentLess,
    ExtentForRange, set_num_blocks, empty_extent, end_block, kSparseHole,
    two64 in *; simpl in *.

Lemma wrap64_small (z : Z) : 0 <= z < 18446744073709551616 -> wrap64 z = z.
Proof. intros H. unfold wrap64, two64. apply Z.mod_small. exact H. Qed.

(** Remove the reductions modulo 2^64 that do nothing; expose the others. *)
Ltac nowrap :=
  unfold two64 in *;
  repeat match goal with
  | H : context [wrap64 ?z] |- _ => rewrite (wrap64_small z) in H by lia
  | |- context [wrap64 ?z] => rewrite (wrap64_small z) by lia
  end;
  unfold wrap64, two64 in *.

(** Linear arithmetic with the remaining reductions modulo 2^64. *)
Ltac lia64 := nowrap; Z.to_euclidean_division_equations; lia.

(* ------------------------------------------------------------------ *)
(** ** Scenarios of the specification, run on the model *)

Example scenario_subtract_middle :
  (r <- AddExtent (empty_ranges true) (mkExtent 5 3) ;;
   Ok (SubtractExtent r (mkExtent 6 1)))
  = Ok (mkRanges [mkExtent 5 1; mkExtent 7 1] 2 true).
Proof. vm_compute. reflexivity. Qed.

Example scenario_take_five :
  GetExtentsForBlockCount (mkRanges [mkExtent 0 4; mkExtent 10 4] 8 true) 5
  = Ok [mkExtent 0 4; mkExtent 10 1].
Proof. vm_compute. reflexivity. Qed.

Example scenario_filter :
  FilterExtentRanges [mkExtent 0 10] (mkRanges [mkExtent 3 4] 4 true)
  = Ok [mkExtent 0 3; mkExtent 7 3].
Proof. vm_compute. reflexivity. Qed.

(* ------------------------------------------------------------------ *)
(** ** The relations between two extents *)

Lemma overlap_equal_start_empty :
  ExtentsOverlap (mkExtent 5 3) (mkExtent 5 0) = true
  /\ ~ (exists x, covers (mkExtent 5 3) x /\ covers (mkExtent 5 0) x).
Proof.
  split; [reflexivity|]. intros [x [_ H]]. unfold covers in H; simpl in H. lia.
Qed.

Lemma overlap_wraps :
  ExtentsOverlap (mkExtent 10 (two64 - 5)) (mkExtent 20 1) = false
  /\ covers (mkExtent 10 (two64 - 5)) 20 /\ covers (mkExtent 20 1) 20.
Proof. unfold covers, two64; simpl. repeat split; lia. Qed.

Lemma ExtentsOverlap_shared (a b : Extent) :
  in_range a -> in_range b -> num_blocks a <> 0 -> num_blocks b <> 0 ->
  (ExtentsOverlap a b = true <-> exists x, covers a x /\ covers b x).
Proof.
  intros Ha Hb Hz Hz'. split.
  - intros H. exists (Z.max (start_block a) (start_block b)).
    revert H. unfold_ext.
    split_ifs; intros; unbool; try discriminate; lia64.
  - intros [x [Hx Hy]]. unfold_ext.
    split_ifs; unbool; try reflexivity; lia64.
Qed.

Lemma ExtentsOverlap_one_hole (a b : Extent) :
  (start_block a = kSparseHole <-> start_block b <> kSparseHole) ->
  ExtentsOverlap a b = false.
Proof.
  intros H. unfold ExtentsOverlap.
  destruct (start_block a =? start_block b) eqn:E.
  - apply Z.eqb_eq in E. exfalso. rewrite E in H. tauto.
  - destruct (Z.eqb_spec (start_block a) kSparseHole) as [Ea|Ea].
    + reflexivity.
    + destruct (Z.eqb_spec (start_block b) kSparseHole) as [Eb|Eb].
      * reflexivity.
      * exfalso. tauto.
Qed.

Lemma ExtentsOverlap_two_holes (a b : Extent) :
  start_block a = kSparseHole -> start_block b = kSparseHole ->
  ExtentsOverlap a b = negb (num_blocks a =? 0).
Proof.
  intros Ea Eb. unfold ExtentsOverlap. rewrite Ea, Eb, Z.eqb_refl. reflexivity.
Qed.

(** C5, as stated, fails: with equal starts the answer only looks at the
    first extent's length, and two sparse holes with a non-zero length are
    reported as overlapping. *)
Lemma ExtentsOverlap_claim_fails :
  ~ (forall a b : Extent, u64_extent a -> u64_extent b ->
       (ExtentsOverlap a b = true <-> exists x, covers a x /\ covers b x)
       /\ (start_block a = kSparseHole \/ start_block b = kSparseHole ->
           ExtentsOverlap a b = false)).
Proof.
  intros H.
  assert (U : u64_extent (mkExtent kSparseHole 1)).
  { unfold u64_extent, u64, kSparseHole, two64; simpl. lia. }
  destruct (H (mkExtent kSparseHole 1) (mkExtent kSparseHole 1) U U) as [_ H2].
  specialize (H2 (or_introl eq_refl)). vm_compute in H2. discriminate.
Qed.

(** C5 (amended): on extents whose end does not wrap and that are not empty,
    [ExtentsOverlap] is true exactly when the two intervals share a block;
    when exactly one start is the sentinel the answer is false; when both
    are, it is [a.num_blocks != 0]. *)
Theorem ExtentsOverlap_correct (a b : Extent) :
  (in_range a -> in_range b -> num_blocks a <> 0 -> num_blocks b <> 0 ->
   (ExtentsOverlap a b = true <-> exists x, covers a x /\ covers b x))
  /\ ((start_block a = kSparseHole <-> start_block b <> kSparseHole) ->
      ExtentsOverlap a b = false)
  /\ (start_block a = kSparseHole -> start_block b = kSparseHole ->
      ExtentsOverlap a b = negb (num_blocks a =? 0)).
Proof.
  split; [|split].
  - apply ExtentsOverlap_shared.
  - apply ExtentsOverlap_one_hole.
  - apply ExtentsOverlap_two_holes.
Qed.

Lemma ExtentsOverlap_correct_witness :
  (ExtentsOverlap (mkExtent 10 20) (mkExtent 25 10) = true
   <-> exists x, covers (mkExtent 10 20) x /\ covers (mkExtent 25 10) x)
  /\ ExtentsOverlap (mkExtent kSparseHole 2) (mkExtent 10 3) = false.
Proof.
  split.
  - apply (proj1 (ExtentsOverlap_correct (mkExtent 10 20) (mkExtent 25 10)));
      unfold in_range, u64_extent, u64, two64; simpl; lia.
  - apply (proj1 (proj2 (ExtentsOverlap_correct (mkExtent kSparseHole 2)
                                                 (mkExtent 10 3)))).
    unfold kSparseHole, two64; simpl. split; intros; lia.
Defined.

(** C6, as stated, fails: an extent that ends exactly at the sentinel
    touches a sparse hole, and [ExtentsOverlapOrTouch] still answers no. *)
Lemma ExtentsOverlapOrTouch_claim_fails :
  ~ (forall a b : Extent, u64_extent a -> u64_extent b ->
       (~ touching a b -> ExtentsOverlapOrTouch a b = ExtentsOverlap a b)
       /\ (touching a b -> ExtentsOverlapOrTouch a b = true)).
Proof.
  intros H.
  destruct (H (mkExtent 3 (two64 - 4)) (mkExtent kSparseHole 1)) as [_ H2].
  - unfold u64_extent, u64, two64; simpl. lia.
  - unfold u64_extent, u64, kSparseHole, two64; simpl. lia.
  - assert (T : touching (mkExtent 3 (two64 - 4)) (mkExtent kSparseHole 1)).
    { left. reflexivity. }
    specialize (H2 T). vm_compute in H2. discriminate.
Qed.

(** C6 (amended): the two predicates agree unless one extent ends exactly
    where the other begins; there [ExtentsOverlapOrTouch] is true when both
    starts or neither start is the sentinel, and both predicates are false
    when exactly one start is the sentinel. *)
Theorem ExtentsOverlapOrTouch_vs_ExtentsOverlap (a b : Extent) :
  u64_extent a -> u64_extent b ->
  (~ touching a b -> ExtentsOverlapOrTouch a b = ExtentsOverlap a b)
  /\ (touching a b ->
      (start_block a = kSparseHole <-> start_block b = kSparseHole) ->
      ExtentsOverlapOrTouch a b = true)
  /\ (touching a b ->
      (start_block a = kSparseHole <-> start_block b <> kSparseHole) ->
      ExtentsOverlapOrTouch a b = false /\ ExtentsOverlap a b = false).
Proof.
  intros Ha Hb. split; [|split].
  - intros T. unfold_ext.
    split_cmps; unbool; try reflexivity; exfalso; lia64.
  - intros T E. unfold_ext.
    split_cmps; unbool; try reflexivity; exfalso; lia64.
  - intros T E. unfold_ext.
    split_cmps; unbool; split; try reflexivity; exfalso; lia64.
Qed.

Lemma ExtentsOverlapOrTouch_vs_ExtentsOverlap_witness :
  ExtentsOverlapOrTouch (mkExtent 5 3) (mkExtent 8 2) = true.
Proof.
  apply (proj1 (proj2 (ExtentsOverlapOrTouch_vs_ExtentsOverlap
                         (mkExtent 5 3) (mkExtent 8 2)
                         ltac:(unfold u64_extent, u64, two64; simpl; lia)
                         ltac:(unfold u64_extent, u64, two64; simpl; lia)))).
  - left. reflexivity.
  - unfold kSparseHole, two64; simpl. split; intros; lia.
Defined.

(** C9, as stated, fails: when the end of the first extent wraps, the
    "intersection" with an empty extent at the same start is the first
    extent itself, while the arguments swapped give the empty extent. *)
Lemma GetOverlapExtent_claim_fails :
  let a := mkExtent (two64 - 2) 5 in
  let b := mkExtent (two64 - 2) 0 in
  u64_extent a /\ u64_extent b
  /\ ~ (exists x, covers a x /\ covers b x)
  /\ GetOverlapExtent a b = a /\ ~ is_empty (GetOverlapExtent a b)
  /\ GetOverlapExtent b a = empty_extent.
Proof.
  cbv zeta. repeat split; try (unfold two64; simpl; lia); try reflexivity.
  - intros [x [_ H]]. unfold covers in H; simpl in H. lia.
  - intros [H|H]; vm_compute in H; discriminate.
Qed.

(** C9 (amended): for extents that are sparse holes or whose end does not
    wrap, [GetOverlapExtent] denotes exactly the blocks both arguments
    denote, it denotes the same blocks with the arguments swapped, and it is
    empty (zero length or sentinel start) when they share no block. *)
Theorem GetOverlapExtent_symmetric (a b : Extent) :
  fits a -> fits b ->
  (forall x, blocks_of (GetOverlapExtent a b) x <-> blocks_of a x /\ blocks_of b x)
  /\ (forall x, blocks_of (GetOverlapExtent a b) x
                <-> blocks_of (GetOverlapExtent b a) x)
  /\ (~ (exists x, blocks_of a x /\ blocks_of b x) ->
      is_empty (GetOverlapExtent a b)).
Proof.
  intros Ha Hb.
  assert (E : forall a b, fits a -> fits b -> forall x,
             blocks_of (GetOverlapExtent a b) x <-> blocks_of a x /\ blocks_of b x).
  { clear. intros a b Ha Hb x. unfold GetOverlapExtent. unfold_ext.
    split_cmps; unbool; lia64. }
  split; [|split].
  - apply E; assumption.
  - intros x. rewrite (E a b), (E b a) by assumption. tauto.
  - intros N.
    assert (N' : forall x, ~ (blocks_of a x /\ blocks_of b x)).
    { intros x Hx. apply N. exists x. exact Hx. }
    pose proof (N' (Z.max (start_block a) (start_block b))) as N1.
    clear N N' E. unfold GetOverlapExtent. unfold_ext.
    split_cmps; unbool; lia64.
Qed.

Lemma GetOverlapExtent_symmetric_witness :
  blocks_of (GetOverlapExtent (mkExtent 0 10) (mkExtent 3 4)) 4
  <-> blocks_of (GetOverlapExtent (mkExtent 3 4) (mkExtent 0 10)) 4.
Proof.
  apply (proj1 (proj2 (GetOverlapExtent_symmetric (mkExtent 0 10) (mkExtent 3 4)
           ltac:(unfold fits, u64_extent, u64, two64; simpl; lia)
           ltac:(unfold fits, u64_extent, u64, two64; simpl; lia)))).
Defined.

(* ------------------------------------------------------------------ *)
(** ** Sums of block counts *)

Lemma total_blocks_app (a b : list Extent) :
  total_blocks (a ++ b) = total_blocks a + total_blocks b.
Proof. induction a as [|x a IH]; simpl; [reflexivity|]. rewrite IH. lia. Qed.

Lemma total_blocks_nonneg (l : list Extent) :
  Forall (fun e => 0 <= num_blocks e) l -> 0 <= total_blocks l.
Proof.
  induction 1 as [|x l Hx _ IH]; simpl; lia.
Qed.

Lemma BlocksInExtents_from (l : list Extent) : forall acc,
  Forall (fun e => 0 <= num_blocks e) l ->
  0 <= acc -> acc + total_blocks l < two64 ->
  fold_left (fun a e => wrap64 (a + num_blocks e)) l acc = acc + total_blocks l.
Proof.
  induction l as [|x l IH]; intros acc Hl Ha Hb; simpl in *.
  - lia.
  - inversion Hl as [|? ? Hx Hl']; subst.
    pose proof (total_blocks_nonneg l Hl') as Hn.
    rewrite wrap64_small by (unfold two64 in *; lia).
    rewrite IH by (try assumption; lia). lia.
Qed.

Lemma BlocksInExtents_total (l : list Extent) :
  Forall (fun e => 0 <= num_blocks e) l -> total_blocks l < two64 ->
  BlocksInExtents l = total_blocks l.
Proof.
  intros Hl Hb. unfold BlocksInExtents.
  rewrite BlocksInExtents_from by (try assumption; lia). lia.
Qed.

(* ------------------------------------------------------------------ *)
(** ** GetExtentsForBlockCount *)

Lemma set_back_num_blocks_snoc (out : list Extent) (e : Extent) (n : Z) :
  set_back_num_blocks (out ++ [e]) n = out ++ [set_num_blocks e n].
Proof.
  induction out as [|x out IH]; simpl; [reflexivity|].
  rewrite IH. destruct (out ++ [e]) eqn:E; [|reflexivity].
  destruct out; discriminate.
Qed.

Lemma take_loop_spec (count : Z) (tl : list Extent) : forall out out_blocks,
  Forall (fun e => 0 < num_blocks e) tl ->
  0 <= out_blocks < count ->
  count <= out_blocks + total_blocks tl ->
  out_blocks + total_blocks tl < two64 ->
  exists taken,
    take_loop count tl out out_blocks = (out ++ taken, count)
    /\ taken_from tl taken
    /\ total_blocks taken = count - out_blocks.
Proof.
  induction tl as [|x tl IH]; intros out ob Hpos Hob Hle Hlt; simpl in *.
  - lia.
  - inversion Hpos as [|? ? Hx Hpos']; subst.
    assert (Hn : 0 <= total_blocks tl).
    { apply total_blocks_nonneg. eapply Forall_impl; [|exact Hpos'].
      simpl; intros; lia. }
    rewrite (wrap64_small (count - ob)) by (unfold two64 in *; lia).
    rewrite (wrap64_small (ob + num_blocks x)) by (unfold two64 in *; lia).
    destruct (num_blocks x <? count - ob) eqn:E1; unbool.
    + destruct (IH (out ++ [x]) (ob + num_blocks x)) as [taken [E [T S]]];
        try assumption; try lia.
      exists (x :: taken). split; [|split].
      * rewrite E, <- app_assoc. reflexivity.
      * destruct T as [pre [y [post [k [Etl [Etk Hk]]]]]].
        exists (x :: pre), y, post, k. subst. repeat split; try reflexivity; lia.
      * simpl. lia.
    + destruct (num_blocks x =? count - ob) eqn:E2; unbool.
      * exists [x]. split; [|split].
        -- f_equal. lia.
        -- exists [], x, tl, (num_blocks x).
           destruct x; simpl in *. repeat split; try reflexivity; lia.
        -- simpl. lia.
      * exists [mkExtent (start_block x) (count - ob)]. split; [|split].
        -- rewrite set_back_num_blocks_snoc. f_equal.
           rewrite (wrap64_small (ob + num_blocks x - num_blocks x))
             by (unfold two64 in *; lia).
           rewrite wrap64_small by (unfold two64 in *; lia). lia.
        -- exists [], x, tl, (count - ob). repeat split; try reflexivity; lia.
        -- simpl. lia.
Qed.

Lemma StronglySorted_weaken {A : Type} (R S : A -> A -> Prop) (l : list A) :
  (forall a b, R a b -> S a b) -> StronglySorted R l -> StronglySorted S l.
Proof.
  intros H. induction 1 as [|a l _ IH Ha]; constructor; [exact IH|].
  eapply Forall_impl; [|exact Ha]. apply H.
Qed.

Lemma StronglySorted_app_inv {A : Type} (R : A -> A -> Prop) (l1 l2 : list A) :
  StronglySorted R (l1 ++ l2) ->
  StronglySorted R l1 /\ StronglySorted R l2
  /\ Forall (fun a => Forall (R a) l2) l1.
Proof.
  induction l1 as [|a l1 IH]; simpl; intros H.
  - repeat split; [constructor|exact H|constructor].
  - inversion H as [|? ? Hs Hf]; subst.
    destruct (IH Hs) as [H1 [H2 H3]].
    apply Forall_app in Hf. destruct Hf as [Hf1 Hf2].
    repeat split; [constructor|exact H2|constructor]; assumption.
Qed.

Lemma StronglySorted_app {A : Type} (R : A -> A -> Prop) (l1 l2 : list A) :
  StronglySorted R l1 -> StronglySorted R l2 ->
  Forall (fun a => Forall (R a) l2) l1 ->
  StronglySorted R (l1 ++ l2).
Proof.
  induction 1 as [|a l1 Hs IH Ha]; simpl; intros H2 H3; [exact H2|].
  inversion H3; subst.
  constructor; [apply IH; assumption|].
  apply Forall_app. split; assumption.
Qed.

Lemma taken_from_sorted (R : Extent -> Extent -> Prop) (tl taken : list Extent) :
  (forall a b k, R a b -> R a (mkExtent (start_block b) k)) ->
  StronglySorted R tl -> taken_from tl taken -> StronglySorted R taken.
Proof.
  intros HR Hs [pre [x [post [k [Etl [Etk Hk]]]]]]. subst.
  apply StronglySorted_app_inv in Hs. destruct Hs as [H1 [H2 H3]].
  apply StronglySorted_app; [exact H1|repeat constructor|].
  eapply Forall_impl; [|exact H3]. simpl. intros a Ha.
  inversion Ha; subst. constructor; [|constructor]. apply HR. assumption.
Qed.

Lemma taken_from_sub_range (tl taken : list Extent) :
  Forall (fun e => 0 < num_blocks e) tl ->
  taken_from tl taken ->
  Forall (fun o => 0 < num_blocks o /\ exists e, In e tl /\ sub_range o e) taken.
Proof.
  intros Hpos [pre [x [post [k [Etl [Etk Hk]]]]]]. subst.
  apply Forall_app in Hpos. destruct Hpos as [Hpre _].
  apply Forall_app. split.
  - rewrite Forall_forall in *. intros o Ho. split; [apply Hpre; exact Ho|].
    exists o. split.
    + apply in_or_app. left. exact Ho.
    + unfold sub_range. lia.
  - constructor; [|constructor]. simpl. split; [lia|]. exists x.
    split; [apply in_or_app; right; left; reflexivity|].
    unfold sub_range; simpl. lia.
Qed.

(** C4, as stated for every set, fails: adding twice the extent
    {2^64 - 2, 5}, whose end wraps, leaves one entry of 5 blocks and a block
    count of 10; a count of 7 then passes both CHECKs and returns the entry,
    5 blocks in all. *)
Lemma GetExtentsForBlockCount_claim_fails :
  exists r count out,
    reachable u64_extent r
    /\ 0 < count <= blocks_ r
    /\ GetExtentsForBlockCount r count = Ok out
    /\ total_blocks out <> count.
Proof.
  assert (U : u64_extent (mkExtent (two64 - 2) 5)).
  { unfold u64_extent, u64, two64; simpl. lia. }
  exists (mkRanges [mkExtent (two64 - 2) 5] 10 false), 7,
         [mkExtent (two64 - 2) 5].
  split; [|split; [simpl; lia|split; [vm_compute; reflexivity|]]].
  - eapply reach_AddExtent; [|exact U|].
    + eapply reach_AddExtent; [apply (reach_empty _ false)|exact U|].
      vm_compute. reflexivity.
    + vm_compute. reflexivity.
  - simpl. lia.
Qed.

(** C4 (amended): on a set that satisfies the three invariants of the data
    model, with a 64-bit block count, and for a 64-bit count: a count of
    zero gives the empty sequence; a count between 1 and [blocks_] gives
    extents in ascending order whose lengths sum to the count, each a
    non-empty sub-range of an entry; a larger count fails the CHECK. *)
Theorem GetExtentsForBlockCount_correct (r : ExtentRanges) (count : Z) :
  data_invariant r -> u64 (blocks_ r) -> u64 count ->
  (count = 0 -> GetExtentsForBlockCount r count = Ok [])
  /\ (0 < count <= blocks_ r ->
      exists out,
        GetExtentsForBlockCount r count = Ok out
        /\ total_blocks out = count
        /\ StronglySorted (fun a b => start_block a < start_block b) out
        /\ Forall (fun o => 0 < num_blocks o
                            /\ exists e, In e (extent_set_ r) /\ sub_range o e) out)
  /\ (blocks_ r < count -> GetExtentsForBlockCount r count = Fatal).
Proof.
  intros [He Hs Hb] Ub Uc. unfold GetExtentsForBlockCount.
  assert (Hpos : Forall (fun e => 0 < num_blocks e) (extent_set_ r)).
  { eapply Forall_impl; [|exact He]. intros e [[_ U] [_ N]]. unfold u64 in U. lia. }
  split; [|split].
  - intros ->. reflexivity.
  - intros Hc.
    destruct (count =? 0) eqn:E0; unbool; [lia|].
    destruct (count <=? blocks_ r) eqn:E1; unbool; [|lia]. simpl.
    destruct (take_loop_spec count (extent_set_ r) [] 0) as [taken [E [T S]]];
      try assumption; try (unfold u64 in *; lia).
    rewrite E. simpl.
    assert (Hsub := taken_from_sub_range _ _ Hpos T).
    rewrite BlocksInExtents_total.
    + rewrite S, Z.sub_0_r, Z.eqb_refl. exists taken.
      repeat split; try assumption; try lia.
      eapply taken_from_sorted; [| |exact T].
      * simpl. intros a b k H. exact H.
      * eapply StronglySorted_weaken; [|exact Hs]. intros a b [H _]. exact H.
    + eapply Forall_impl; [|exact Hsub]. simpl. intros o [H _]. lia.
    + unfold u64 in *. lia.
  - intros Hc.
    destruct (count =? 0) eqn:E0; unbool; [unfold u64 in *; lia|].
    destruct (count <=? blocks_ r) eqn:E1; unbool; [lia|]. reflexivity.
Qed.

Lemma GetExtentsForBlockCount_correct_witness :
  exists out,
    GetExtentsForBlockCount (mkRanges [mkExtent 0 4; mkExtent 10 4] 8 true) 5 = Ok out
    /\ total_blocks out = 5.
Proof.
  destruct (GetExtentsForBlockCount_correct
              (mkRanges [mkExtent 0 4; mkExtent 10 4] 8 true) 5) as [_ [H _]].
  - constructor; simpl.
    + repeat constructor; simpl; unfold kSparseHole, two64; lia.
    + repeat constructor; simpl; try lia; discriminate.
    + reflexivity.
  - unfold u64, two64; simpl; lia.
  - unfold u64, two64; lia.
  - destruct H as [out [E [T _]]]; [simpl; lia|].
    exists out. split; assumption.
Defined.

(* ------------------------------------------------------------------ *)
(** ** Well-formed sets *)

Lemma end_block_stored (e : Extent) :
  stored_ok e -> end_block e = start_block e + num_blocks e.
Proof.
  intros [H1 [H2 H3]]. unfold end_block. apply wrap64_small.
  unfold two64 in H3. lia.
Qed.

Lemma well_formed_nil (g : Z) : well_formed g [].
Proof. split; constructor. Qed.

Lemma well_formed_cons_inv (g : Z) (e : Extent) (s : ExtentSet) :
  well_formed g (e :: s) ->
  stored_ok e /\ Forall (sep g e) s /\ well_formed g s.
Proof.
  intros [Hf Hs]. inversion Hf; subst. inversion Hs; subst.
  split; [assumption|]. split; [assumption|]. split; assumption.
Qed.

Lemma well_formed_cons (g : Z) (e : Extent) (s : ExtentSet) :
  stored_ok e -> Forall (sep g e) s -> well_formed g s ->
  well_formed g (e :: s).
Proof.
  intros He Hsep [Hf Hs]. split; constructor; assumption.
Qed.

Lemma well_formed_app_inv (g : Z) (a b : ExtentSet) :
  well_formed g (a ++ b) ->
  well_formed g a /\ well_formed g b
  /\ Forall (fun x => Forall (sep g x) b) a.
Proof.
  intros [Hf Hs]. apply Forall_app in Hf. destruct Hf as [Hfa Hfb].
  apply StronglySorted_app_inv in Hs. destruct Hs as [Ha [Hb Hab]].
  split; [split; assumption|]. split; [split; assumption|]. assumption.
Qed.

Lemma well_formed_app (g : Z) (a b : ExtentSet) :
  well_formed g a -> well_formed g b ->
  Forall (fun x => Forall (sep g x) b) a ->
  well_formed g (a ++ b).
Proof.
  intros [Hfa Hsa] [Hfb Hsb] Hab. split.
  - apply Forall_app. split; assumption.
  - apply StronglySorted_app; assumption.
Qed.

Lemma well_formed_relax (g : Z) (s : ExtentSet) :
  0 <= g -> well_formed g s -> well_formed 0 s.
Proof.
  intros Hg [Hf Hs]. split; [exact Hf|].
  eapply StronglySorted_weaken; [|exact Hs].
  unfold sep. intros a b H. lia.
Qed.

Lemma gap_nonneg (merge : bool) : 0 <= gap merge.
Proof. destruct merge; simpl; lia. Qed.

(** Entries at increasing positions are separated. *)
Lemma well_formed_nth_sep (g : Z) (s : ExtentSet) :
  well_formed g s ->
  forall i j a b, (i < j)%nat ->
    nth_error s i = Some a -> nth_error s j = Some b -> sep g a b.
Proof.
  induction s as [|h t IH]; intros Hw i j a b Hij Ha Hb.
  - destruct i; discriminate.
  - apply well_formed_cons_inv in Hw. destruct Hw as [Hh [Hsep Hw]].
    destruct j as [|j]; [lia|]. simpl in Hb.
    destruct i as [|i]; simpl in Ha.
    + injection Ha as <-. rewrite Forall_forall in Hsep. apply Hsep.
      eapply nth_error_In. exact Hb.
    + apply (IH Hw i j a b); [lia|exact Ha|exact Hb].
Qed.

Lemma well_formed_nth_stored (g : Z) (s : ExtentSet) (i : nat) (e : Extent) :
  well_formed g s -> nth_error s i = Some e -> stored_ok e.
Proof.
  intros [Hf _] H. rewrite Forall_forall in Hf. apply Hf.
  eapply nth_error_In. exact H.
Qed.

(** The block counts of a well-formed set fit above its lower bound. *)
Lemma well_formed_total_bound (g : Z) (s : ExtentSet) : forall lo,
  0 <= g -> well_formed g s -> Forall (fun e => lo <= start_block e) s ->
  lo < two64 ->
  0 <= total_blocks s /\ lo + total_blocks s < two64.
Proof.
  induction s as [|h t IH]; intros lo Hg Hw Hlo Hlt; simpl.
  - lia.
  - apply well_formed_cons_inv in Hw. destruct Hw as [Hh [Hsep Hw]].
    inversion Hlo as [|? ? Hlo1 Hlo2]; subst. unfold stored_ok in Hh.
    destruct (IH (start_block h + num_blocks h) Hg Hw) as [H1 H2].
    + eapply Forall_impl; [|exact Hsep]. unfold sep. intros; lia.
    + lia.
    + lia.
Qed.

Lemma well_formed_total (g : Z) (s : ExtentSet) :
  0 <= g -> well_formed g s -> 0 <= total_blocks s < two64.
Proof.
  intros Hg Hw.
  destruct (well_formed_total_bound g s 0 Hg Hw) as [H1 H2].
  - destruct Hw as [Hf _]. eapply Forall_impl; [|exact Hf].
    unfold stored_ok. intros; lia.
  - unfold two64; lia.
  - lia.
Qed.

(* ------------------------------------------------------------------ *)
(** ** Binary search in the ordered set *)

Lemma lower_bound_le (s : ExtentSet) (k : Extent) :
  (lower_bound s k <= length s)%nat.
Proof.
  induction s as [|h t IH]; simpl; [lia|].
  destruct (ExtentLess h k); simpl; lia.
Qed.

Lemma upper_bound_le (s : ExtentSet) (k : Extent) :
  (upper_bound s k <= length s)%nat.
Proof.
  induction s as [|h t IH]; simpl; [lia|].
  destruct (ExtentLess k h); simpl; lia.
Qed.

(** Everything before the lower bound is less than the key. *)
Lemma lower_bound_before (s : ExtentSet) (k : Extent) :
  forall i e, nth_error s i = Some e -> (i < lower_bound s k)%nat ->
    ExtentLess e k = true.
Proof.
  induction s as [|h t IH]; intros i e He Hi; simpl in *.
  - lia.
  - destruct (ExtentLess h k) eqn:E; [|lia].
    destruct i as [|i]; simpl in He.
    + injection He as <-. exact E.
    + eapply IH; eauto. lia.
Qed.

(** In a well-formed set nothing from the lower bound on is less than the
    key. *)
Lemma lower_bound_after (s : ExtentSet) (k : Extent) :
  well_formed 0 s ->
  forall i e, nth_error s i = Some e -> (lower_bound s k <= i)%nat ->
    ExtentLess e k = false.
Proof.
  induction s as [|h t IH]; intros Hw i e He Hi; simpl in *.
  - destruct i; discriminate.
  - apply well_formed_cons_inv in Hw. destruct Hw as [Hh [Hsep Hw]].
    destruct (ExtentLess h k) eqn:E.
    + destruct i as [|i]; [lia|]. simpl in He. eapply IH; eauto. lia.
    + destruct i as [|i]; simpl in He.
      * injection He as <-. exact E.
      * rewrite Forall_forall in Hsep.
        pose proof (Hsep e (nth_error_In _ _ He)) as Hs.
        clear - Hs Hh E. unfold_ext.
        revert E. split_cmps; intros; unbool; try reflexivity;
          try discriminate; lia.
Qed.

(* ------------------------------------------------------------------ *)
(** ** ContainsBlock *)

Lemma contains_loop_spec (block : Z) (tl : list Extent) : forall iter upper,
  (iter <= upper <= iter + length tl)%nat ->
  contains_loop tl iter upper block
  = Ok (existsb (block_in_extent block) (firstn (upper - iter) tl)).
Proof.
  induction tl as [|e tl IH]; intros iter upper H; simpl in *.
  - replace upper with iter by lia. rewrite Nat.eqb_refl, firstn_nil.
    reflexivity.
  - destruct (Nat.eqb_spec iter upper) as [->|N].
    + rewrite Nat.sub_diag. reflexivity.
    + replace (upper - iter)%nat with (S (upper - S iter)) by lia. simpl.
      destruct (block_in_extent block e); [reflexivity|].
      apply IH. lia.
Qed.

Lemma block_in_extent_covers (block : Z) (e : Extent) :
  stored_ok e -> (block_in_extent block e = true <-> covers e block).
Proof.
  intros He. unfold block_in_extent. rewrite (end_block_stored e He).
  unfold covers. rewrite andb_true_iff, Z.leb_le, Z.ltb_lt. tauto.
Qed.

Lemma ContainsBlock_ok (r : ExtentRanges) (x : Z) :
  well_formed 0 (extent_set_ r) -> 0 <= x < kSparseHole ->
  exists b, ContainsBlock r x = Ok b
            /\ (b = true <-> covered (extent_set_ r) x).
Proof.
  intros Hw Hx. unfold ContainsBlock.
  set (s := extent_set_ r) in *.
  set (lower0 := lower_bound s (ExtentForRange x 1)).
  set (upper := lower_bound s (ExtentForRange (wrap64 (x + 1)) 0)).
  assert (Ex : wrap64 (x + 1) = x + 1).
  { apply wrap64_small. unfold kSparseHole, two64 in Hx. lia. }
  (* entries below [lower0] start before [x] *)
  assert (L : forall i e, nth_error s i = Some e -> (i < lower0)%nat ->
                          start_block e < x).
  { intros i e He Hi.
    pose proof (lower_bound_before s _ i e He Hi) as Hl.
    pose proof (well_formed_nth_stored _ _ _ _ Hw He) as Hs.
    clear - Hl Hs. unfold_ext. revert Hl.
    split_cmps; intros; unbool; try discriminate; lia. }
  (* entries from [upper] on start after [x] *)
  assert (U : forall i e, nth_error s i = Some e -> (upper <= i)%nat ->
                          x < start_block e).
  { intros i e He Hi.
    pose proof (lower_bound_after s _ Hw i e He Hi) as Hl.
    pose proof (well_formed_nth_stored _ _ _ _ Hw He) as Hs.
    rewrite Ex in Hl. clear - Hl Hs. unfold_ext. revert Hl.
    split_cmps; intros; unbool; try discriminate; lia. }
  assert (Hup : (upper <= length s)%nat) by apply lower_bound_le.
  assert (Hl0 : (lower0 <= length s)%nat) by apply lower_bound_le.
  assert (Hlo : (Nat.pred lower0 <= upper)%nat).
  { destruct (le_lt_dec (Nat.pred lower0) upper) as [H|H]; [exact H|].
    destruct (nth_error s upper) as [e|] eqn:He.
    - pose proof (L upper e He ltac:(lia)).
      pose proof (U upper e He ltac:(lia)). lia.
    - apply nth_error_None in He. lia. }
  rewrite contains_loop_spec by (rewrite length_skipn; lia).
  eexists. split; [reflexivity|].
  rewrite existsb_exists. split.
  - intros [e [Hin Hb]].
    assert (Hin' : In e s).
    { apply In_nth_error in Hin. destruct Hin as [i Hi].
      rewrite nth_error_firstn in Hi.
      destruct (i <? upper - Nat.pred lower0)%nat; [|discriminate].
      rewrite nth_error_skipn in Hi. eapply nth_error_In. exact Hi. }
    exists e. split; [exact Hin'|].
    apply block_in_extent_covers; [|exact Hb].
    destruct Hw as [Hf _]. rewrite Forall_forall in Hf. apply Hf. exact Hin'.
  - intros [e [Hin Hc]].
    apply In_nth_error in Hin. destruct Hin as [i Hi].
    pose proof (well_formed_nth_stored _ _ _ _ Hw Hi) as Hs.
    assert (Hi1 : (i < upper)%nat).
    { destruct (le_lt_dec upper i) as [H|H]; [|exact H].
      pose proof (U i e Hi H). unfold covers in Hc. lia. }
    assert (Hi2 : (Nat.pred lower0 <= i)%nat).
    { destruct (le_lt_dec (Nat.pred lower0) i) as [H|H]; [exact H|].
      destruct (nth_error s (S i)) as [e'|] eqn:He'.
      - pose proof (L (S i) e' He' ltac:(lia)).
        pose proof (well_formed_nth_sep 0 s Hw i (S i) e e' ltac:(lia) Hi He')
          as Hsep.
        unfold sep, covers in *. lia.
      - apply nth_error_None in He'. lia. }
    exists e. split.
    + apply nth_error_In with (n := (i - Nat.pred lower0)%nat).
      rewrite nth_error_firstn.
      replace (i - Nat.pred lower0 <? upper - Nat.pred lower0)%nat with true
        by (symmetry; apply Nat.ltb_lt; lia).
      rewrite nth_error_skipn. rewrite <- Hi. f_equal. lia.
    + apply block_in_extent_covers; assumption.
Qed.

(* ------------------------------------------------------------------ *)
(** ** FilterExtentRanges *)

(** [shared_blocks] counts the blocks in both intervals. *)
Lemma shared_blocks_covers (a b : Extent) (x : Z) :
  covers a x /\ covers b x
  <-> Z.max (start_block a) (start_block b) <= x
      < Z.max (start_block a) (start_block b) + shared_blocks a b.
Proof. unfold covers, shared_blocks. lia. Qed.

Lemma excluded_blocks_app (a b : ExtentSet) (e : Extent) :
  excluded_blocks (a ++ b) e = excluded_blocks a e + excluded_blocks b e.
Proof. induction a as [|x a IH]; simpl; [reflexivity|]. rewrite IH. lia. Qed.

Lemma excluded_blocks_ext (s : ExtentSet) (e e' : Extent) :
  Forall (fun x => shared_blocks e x = shared_blocks e' x) s ->
  excluded_blocks s e = excluded_blocks s e'.
Proof.
  induction 1 as [|x s Hx _ IH]; simpl; [reflexivity|]. rewrite Hx, IH.
  reflexivity.
Qed.

Lemma excluded_blocks_zero (s : ExtentSet) (e : Extent) :
  Forall (fun x => shared_blocks e x = 0) s -> excluded_blocks s e = 0.
Proof.
  induction 1 as [|x s Hx _ IH]; simpl; [reflexivity|]. rewrite Hx, IH.
  reflexivity.
Qed.

Lemma not_overlap_shared (e x : Extent) :
  in_range e -> stored_ok x -> ExtentsOverlap e x = false ->
  shared_blocks e x = 0.
Proof.
  intros He Hx H. unfold shared_blocks. revert H. unfold_ext.
  split_cmps; intros; unbool; try discriminate; lia64.
Qed.

Lemma Forall_skipn_of {A : Type} (P : A -> Prop) (l : list A) : forall n,
  Forall P l -> Forall P (skipn n l).
Proof.
  induction l as [|x l IH]; intros n H; destruct n; simpl; try assumption.
  inversion H; subst. apply IH. assumption.
Qed.

Lemma filter_loop_spec (tl : list Extent) : forall iter upper extent res,
  well_formed 0 tl -> in_range extent ->
  (iter <= upper <= iter + length tl)%nat ->
  Forall (fun x => shared_blocks extent x = 0) (skipn (upper - iter) tl) ->
  exists res' extent',
    filter_loop tl iter upper extent res = Ok (res ++ res', extent')
    /\ 0 <= num_blocks extent'
    /\ total_blocks res' + num_blocks extent'
       = num_blocks extent - excluded_blocks tl extent.
Proof.
  induction tl as [|x tl IH]; intros iter upper extent res Hw He Hi Hz.
  - simpl in Hi. simpl filter_loop. replace upper with iter by lia.
    rewrite Nat.eqb_refl.
    exists [], extent. rewrite app_nil_r. unfold in_range, u64_extent, u64 in He.
    repeat split; simpl; lia.
  - simpl in Hi. simpl filter_loop.
    destruct (Nat.eqb_spec iter upper) as [->|N].
    + exists [], extent. rewrite app_nil_r. rewrite Nat.sub_diag in Hz.
      simpl skipn in Hz. rewrite (excluded_blocks_zero _ _ Hz).
      unfold in_range, u64_extent, u64 in He. repeat split; simpl; lia.
    + apply well_formed_cons_inv in Hw. destruct Hw as [Hx [Hsep Hw]].
      replace (upper - iter)%nat with (S (upper - S iter)) in Hz by lia.
      simpl skipn in Hz.
      assert (Hrest : forall e',
                start_block extent <= start_block x + num_blocks x ->
                start_block e' = start_block x + num_blocks x ->
                start_block e' + num_blocks e'
                = start_block extent + num_blocks extent ->
                Forall (fun y => shared_blocks extent y = shared_blocks e' y) tl).
      { intros e' H0 H1 H2. eapply Forall_impl; [|exact Hsep].
        intros y Hy. unfold shared_blocks, sep in *. lia. }
      assert (Hnext : forall e',
                start_block extent <= start_block x + num_blocks x ->
                start_block e' = start_block x + num_blocks x ->
                start_block e' + num_blocks e'
                = start_block extent + num_blocks extent ->
                Forall (fun y => shared_blocks e' y = 0)
                       (skipn (upper - S iter) tl)).
      { intros e' H0 H1 H2.
        pose proof (Forall_skipn_of _ _ (upper - S iter)
                      (Hrest e' H0 H1 H2)) as H.
        pose proof (Forall_and Hz H) as H'.
        eapply Forall_impl; [|exact H']. simpl. intros y [Ha Hb].
        rewrite <- Hb. exact Ha. }
      assert (Hbreak : start_block extent + num_blocks extent
                       <= start_block x + num_blocks x ->
                       excluded_blocks tl extent = 0).
      { intros H. apply excluded_blocks_zero. eapply Forall_impl; [|exact Hsep].
        intros y Hy. unfold shared_blocks, sep in *. lia. }
      destruct (ExtentsOverlap extent x) eqn:Eo; simpl negb; cbv iota.
      * (* the entry overlaps the extent *)
        rewrite (end_block_stored x Hx).
        assert (Ho : start_block extent < start_block x + num_blocks x
                     /\ (start_block extent < start_block x ->
                         start_block x < start_block extent + num_blocks extent)).
        { clear - Eo He Hx. revert Eo. unfold_ext.
          split_cmps; intros; unbool; try discriminate; lia64. }
        assert (Ee : end_block extent = start_block extent + num_blocks extent).
        { unfold end_block. apply wrap64_small.
          unfold in_range, u64_extent, u64, two64 in He. lia. }
        rewrite Ee.
        unfold in_range, u64_extent, u64, stored_ok in He, Hx.
        destruct (start_block x <=? start_block extent) eqn:E1; unbool.
        -- rewrite (wrap64_small (start_block x + num_blocks x - start_block extent))
             by (unfold two64 in *; lia).
           destruct (start_block x + num_blocks x - start_block extent
                     >=? num_blocks extent) eqn:E2; unbool.
           ++ exists [], (set_num_blocks extent 0). rewrite app_nil_r.
              simpl. rewrite Hbreak by lia. unfold shared_blocks.
              repeat split; lia.
           ++ set (e' := ExtentForRange _ _).
              assert (Es : start_block e' = start_block x + num_blocks x).
              { subst e'. simpl. rewrite wrap64_small by (unfold two64 in *; lia).
                lia. }
              assert (En : num_blocks e'
                           = start_block extent + num_blocks extent
                             - (start_block x + num_blocks x)).
              { subst e'. simpl. rewrite wrap64_small by (unfold two64 in *; lia).
                lia. }
              assert (He' : in_range e').
              { unfold in_range, u64_extent, u64. rewrite Es, En. lia. }
              destruct (IH (S iter) upper e' res Hw He' ltac:(lia)
                           (Hnext e' ltac:(lia) ltac:(lia) ltac:(lia)))
                as [res' [ext' [E [Hn Ht]]]].
              exists res', ext'. split; [exact E|]. split; [exact Hn|].
              simpl. rewrite Ht, En.
              rewrite <- (excluded_blocks_ext tl extent e')
                by (apply Hrest; lia).
              unfold shared_blocks. lia.
        -- rewrite (wrap64_small (start_block x - start_block extent))
             by (unfold two64 in *; lia).
           set (p := ExtentForRange (start_block extent)
                       (start_block x - start_block extent)).
           destruct (start_block x + num_blocks x
                     >=? start_block extent + num_blocks extent) eqn:E2; unbool.
           ++ exists [p], (set_num_blocks extent 0).
              simpl. rewrite Hbreak by lia. unfold shared_blocks.
              repeat split; lia.
           ++ set (e' := ExtentForRange _ _).
              assert (Es : start_block e' = start_block x + num_blocks x)
                by reflexivity.
              assert (En : num_blocks e'
                           = start_block extent + num_blocks extent
                             - (start_block x + num_blocks x)).
              { subst e'. simpl. rewrite wrap64_small by (unfold two64 in *; lia).
                lia. }
              assert (He' : in_range e').
              { unfold in_range, u64_extent, u64. rewrite Es, En. lia. }
              destruct (IH (S iter) upper e' (res ++ [p]) Hw He' ltac:(lia)
                           (Hnext e' ltac:(lia) ltac:(lia) ltac:(lia)))
                as [res' [ext' [E [Hn Ht]]]].
              exists (p :: res'), ext'. split.
              { rewrite E, <- app_assoc. reflexivity. }
              split; [exact Hn|].
              simpl. rewrite <- Z.add_assoc, Ht, En.
              rewrite <- (excluded_blocks_ext tl extent e')
                by (apply Hrest; lia).
              unfold shared_blocks. lia.
      * (* the entry is skipped *)
        destruct (IH (S iter) upper extent res Hw He ltac:(lia) Hz)
          as [res' [ext' [E [Hn Ht]]]].
        exists res', ext'. split; [exact E|]. split; [exact Hn|].
        simpl. rewrite (not_overlap_shared extent x He Hx Eo). lia.
Qed.

Lemma filter_one_spec (s : ExtentSet) (res : list Extent) (extent : Extent) :
  well_formed 0 s -> in_range extent ->
  exists res',
    filter_one s res extent = Ok (res ++ res')
    /\ total_blocks res' = num_blocks extent - excluded_blocks s extent.
Proof.
  intros Hw He. unfold filter_one.
  set (lower0 := lower_bound s extent).
  set (upper := lower_bound s (ExtentForRange (end_block extent) 0)).
  assert (Ee : end_block extent = start_block extent + num_blocks extent).
  { unfold end_block. apply wrap64_small.
    unfold in_range, u64_extent, u64, two64 in He. lia. }
  assert (L : forall i e, nth_error s i = Some e -> (i < lower0)%nat ->
                          start_block e <= start_block extent
                          /\ (start_block e = start_block extent ->
                              0 < num_blocks extent)).
  { intros i e Hi Hlt.
    pose proof (lower_bound_before s _ i e Hi Hlt) as Hl.
    pose proof (well_formed_nth_stored _ _ _ _ Hw Hi) as Hs.
    clear - Hl Hs He. unfold_ext. revert Hl.
    split_cmps; intros; unbool; try discriminate; lia. }
  assert (U : forall i e, nth_error s i = Some e -> (upper <= i)%nat ->
                          start_block extent + num_blocks extent <= start_block e).
  { intros i e Hi Hle.
    pose proof (lower_bound_after s _ Hw i e Hi Hle) as Hl.
    pose proof (well_formed_nth_stored _ _ _ _ Hw Hi) as Hs.
    rewrite Ee in Hl. clear - Hl Hs He. unfold_ext. revert Hl.
    split_cmps; intros; unbool; try discriminate; lia. }
  assert (Hup : (upper <= length s)%nat) by apply lower_bound_le.
  assert (Hl0 : (lower0 <= length s)%nat) by apply lower_bound_le.
  assert (Hlo : (Nat.pred lower0 <= upper)%nat).
  { destruct (le_lt_dec (Nat.pred lower0) upper) as [H|H]; [exact H|].
    destruct (nth_error s upper) as [e|] eqn:Hi.
    - pose proof (L upper e Hi ltac:(lia)).
      pose proof (U upper e Hi ltac:(lia)).
      unfold in_range, u64_extent, u64 in He. lia.
    - apply nth_error_None in Hi. lia. }
  assert (Hafter : Forall (fun x => shared_blocks extent x = 0)
                          (skipn (upper - Nat.pred lower0)
                                 (skipn (Nat.pred lower0) s))).
  { apply Forall_forall. intros e Hin.
    apply In_nth_error in Hin. destruct Hin as [i Hi].
    rewrite !nth_error_skipn in Hi.
    pose proof (U _ e Hi ltac:(lia)) as Hu.
    pose proof (well_formed_nth_stored _ _ _ _ Hw Hi) as Hs.
    unfold shared_blocks, stored_ok in *. lia. }
  assert (Hbefore : excluded_blocks (firstn (Nat.pred lower0) s) extent = 0).
  { apply excluded_blocks_zero. apply Forall_forall. intros e Hin.
    apply In_nth_error in Hin. destruct Hin as [i Hi].
    rewrite nth_error_firstn in Hi.
    destruct (Nat.ltb_spec i (Nat.pred lower0)) as [Hlt|]; [|discriminate].
    destruct (nth_error s (S i)) as [e'|] eqn:Hi'.
    - pose proof (L (S i) e' Hi' ltac:(lia)) as [Hle _].
      pose proof (well_formed_nth_sep 0 s Hw i (S i) e e' ltac:(lia) Hi Hi')
        as Hsep.
      unfold shared_blocks, sep in *. lia.
    - apply nth_error_None in Hi'. lia. }
  destruct (filter_loop_spec (skipn (Nat.pred lower0) s) (Nat.pred lower0)
              upper extent res) as [res' [ext' [E [Hn Ht]]]].
  - rewrite <- (firstn_skipn (Nat.pred lower0) s) in Hw.
    apply well_formed_app_inv in Hw. tauto.
  - exact He.
  - rewrite length_skipn. lia.
  - exact Hafter.
  - rewrite E. simpl.
    assert (Hex : excluded_blocks s extent
                  = excluded_blocks (skipn (Nat.pred lower0) s) extent).
    { rewrite <- (firstn_skipn (Nat.pred lower0) s) at 1.
      rewrite excluded_blocks_app, Hbefore. lia. }
    destruct (num_blocks ext' >? 0) eqn:E0; unbool.
    + exists (res' ++ [ext']). rewrite app_assoc. split; [reflexivity|].
      rewrite total_blocks_app. simpl. lia.
    + exists res'. split; [reflexivity|]. lia.
Qed.

Lemma filter_all_spec (s : ExtentSet) (extents : list Extent) : forall res,
  well_formed 0 s -> Forall in_range extents ->
  exists res',
    filter_all s extents res = Ok (res ++ res')
    /\ total_blocks res'
       = total_blocks extents - total_excluded s extents.
Proof.
  induction extents as [|e extents IH]; intros res Hw He; simpl.
  - exists []. rewrite app_nil_r. split; reflexivity.
  - inversion He as [|? ? He1 He2]; subst.
    destruct (filter_one_spec s res e Hw He1) as [r1 [E1 T1]].
    rewrite E1. simpl.
    destruct (IH (res ++ r1) Hw He2) as [r2 [E2 T2]].
    exists (r1 ++ r2). rewrite app_assoc. split; [exact E2|].
    rewrite total_blocks_app. lia.
Qed.

(** C3, as stated, fails: an input extent whose end wraps is returned
    whole although the exclude set holds its first block. *)
Lemma FilterExtentRanges_claim_fails :
  let extents := [mkExtent (two64 - 2) 5] in
  let exclude := mkRanges [mkExtent (two64 - 2) 1] 1 false in
  Forall u64_extent extents /\ data_invariant exclude
  /\ covers (mkExtent (two64 - 2) 5) (two64 - 2)
  /\ covered (extent_set_ exclude) (two64 - 2)
  /\ total_excluded (extent_set_ exclude) extents = 1
  /\ exists out,
       FilterExtentRanges extents exclude = Ok out
       /\ total_blocks out
          <> total_blocks extents - total_excluded (extent_set_ exclude) extents.
Proof.
  cbv zeta. split; [|split; [|split; [|split; [|split]]]].
  - repeat constructor; unfold two64; simpl; lia.
  - constructor; simpl.
    + repeat constructor; unfold kSparseHole, two64; simpl; lia.
    + repeat constructor.
    + reflexivity.
  - unfold covers, two64; simpl. lia.
  - exists (mkExtent (two64 - 2) 1). split; [left; reflexivity|].
    unfold covers, two64; simpl. lia.
  - reflexivity.
  - eexists. split; [vm_compute; reflexivity|]. vm_compute. discriminate.
Qed.

(** C3 (amended): when the ends of the input extents and of the entries of
    the exclude set do not wrap, the blocks of the output are the blocks of
    the input less the blocks the input extents share with the exclude
    set. *)
Theorem FilterExtentRanges_accounting (extents : list Extent) (r : ExtentRanges) :
  well_formed 0 (extent_set_ r) -> Forall in_range extents ->
  exists out,
    FilterExtentRanges extents r = Ok out
    /\ total_blocks out
       = total_blocks extents - total_excluded (extent_set_ r) extents.
Proof.
  intros Hw He. unfold FilterExtentRanges.
  destruct (filter_all_spec (extent_set_ r) extents [] Hw He) as [out [E T]].
  exists out. split; assumption.
Qed.

Lemma FilterExtentRanges_accounting_witness :
  exists out,
    FilterExtentRanges [mkExtent 0 10] (mkRanges [mkExtent 3 4] 4 true) = Ok out
    /\ total_blocks out = 10 - 4.
Proof.
  apply (FilterExtentRanges_accounting [mkExtent 0 10]
           (mkRanges [mkExtent 3 4] 4 true)).
  - split; repeat constructor; unfold two64; simpl; lia.
  - repeat constructor; unfold two64; simpl; lia.
Defined.

(* ------------------------------------------------------------------ *)
(** ** Merging: the predicates and the union on stored extents *)

Lemma gap_le_1 (merge : bool) : gap merge <= 1.
Proof. destruct merge; simpl; lia. Qed.

Lemma should_merge_true (merge : bool) (x e : Extent) :
  stored_ok x -> stored_ok e -> ~ apart (gap merge) x e ->
  should_merge merge x e = true.
Proof.
  intros Hx He H. unfold apart in H. unfold should_merge.
  destruct merge; simpl in H; unfold_ext;
    split_cmps; unbool; try reflexivity; exfalso; lia64.
Qed.

Lemma should_merge_false (merge : bool) (x e : Extent) :
  stored_ok x -> stored_ok e -> apart (gap merge) x e ->
  should_merge merge x e = false.
Proof.
  intros Hx He H. unfold apart in H. unfold should_merge.
  destruct merge; simpl in H; unfold_ext;
    split_cmps; unbool; try reflexivity; exfalso; lia64.
Qed.

Lemma ExtentsOverlap_stored (x e : Extent) :
  stored_ok x -> stored_ok e ->
  ExtentsOverlap x e = negb (Z.leb (start_block x + num_blocks x) (start_block e)
                             || Z.leb (start_block e + num_blocks e) (start_block x)).
Proof.
  intros Hx He. unfold_ext.
  split_cmps; unbool; try reflexivity; exfalso; lia64.
Qed.

Lemma UnionOverlappingExtents_stored (e x : Extent) :
  stored_ok e -> stored_ok x ->
  UnionOverlappingExtents e x = Ok (hull2 e x).
Proof.
  intros He Hx. unfold UnionOverlappingExtents, hull2.
  rewrite (end_block_stored e He), (end_block_stored x Hx).
  unfold stored_ok, kSparseHole, ExtentForRange in *.
  destruct (Z.eqb_spec (start_block e) (two64 - 1)); [unfold two64 in *; lia|].
  destruct (Z.eqb_spec (start_block x) (two64 - 1)); [unfold two64 in *; lia|].
  rewrite wrap64_small by (unfold two64 in *; lia). reflexivity.
Qed.

Lemma hull2_stored (e x : Extent) :
  stored_ok e -> stored_ok x -> stored_ok (hull2 e x).
Proof. unfold stored_ok, hull2; simpl. lia. Qed.

Lemma hull2_covers (g : Z) (e x : Extent) (b : Z) :
  g <= 1 -> stored_ok e -> stored_ok x -> ~ apart g x e ->
  (covers (hull2 e x) b <-> covers e b \/ covers x b).
Proof. unfold apart, sep, stored_ok, covers, hull2; simpl. lia. Qed.

Lemma hull2_not_apart (g : Z) (e x y : Extent) :
  0 <= g -> stored_ok e -> stored_ok x -> ~ apart g y e ->
  ~ apart g y (hull2 e x).
Proof. unfold apart, sep, stored_ok, hull2; simpl. lia. Qed.

Section Hull.
Variable g : Z.
Hypothesis g_nonneg : 0 <= g.
Hypothesis g_le_1 : g <= 1.

Lemma hull_stored (m : list Extent) : forall e,
  stored_ok e -> Forall stored_ok m -> stored_ok (hull e m).
Proof.
  induction m as [|x m IH]; intros e He Hm; simpl; [exact He|].
  inversion Hm; subst. apply IH; [apply hull2_stored|]; assumption.
Qed.

Lemma hull_contains (m : list Extent) : forall e,
  start_block (hull e m) <= start_block e
  /\ start_block e + num_blocks e
     <= start_block (hull e m) + num_blocks (hull e m).
Proof.
  induction m as [|x m IH]; intros e; simpl; [lia|].
  destruct (IH (hull2 e x)) as [H1 H2].
  assert (H : start_block (hull2 e x) <= start_block e
              /\ start_block e + num_blocks e
                 <= start_block (hull2 e x) + num_blocks (hull2 e x))
    by (unfold hull2; simpl; lia).
  lia.
Qed.

Lemma hull_sep_left (m : list Extent) : forall e l,
  sep g l e -> Forall (sep g l) m -> sep g l (hull e m).
Proof.
  induction m as [|x m IH]; intros e l He Hm; simpl; [exact He|].
  inversion Hm; subst. apply IH; [|assumption].
  unfold sep, hull2 in *; simpl. lia.
Qed.

Lemma hull_sep_right (m : list Extent) : forall e r,
  sep g e r -> Forall (fun x => sep g x r) m -> sep g (hull e m) r.
Proof.
  induction m as [|x m IH]; intros e r He Hm; simpl; [exact He|].
  inversion Hm; subst. apply IH; [|assumption].
  unfold sep, hull2 in *; simpl. lia.
Qed.

Lemma hull_covers (m : list Extent) : forall e b,
  stored_ok e -> Forall stored_ok m ->
  Forall (fun x => ~ apart g x e) m ->
  (covers (hull e m) b <-> covers e b \/ covered m b).
Proof.
  induction m as [|x m IH]; intros e b He Hm Ha; simpl.
  - unfold covered. split; [tauto|]. intros [H|[y [[] _]]]. exact H.
  - inversion Hm; subst. inversion Ha; subst.
    rewrite IH.
    + rewrite (hull2_covers g) by assumption. unfold covered. split.
      * intros [[H|H]|[y [Hy Hc]]]; [tauto| |].
        -- right. exists x. split; [left; reflexivity|exact H].
        -- right. exists y. split; [right; exact Hy|exact Hc].
      * intros [H|[y [[<-|Hy] Hc]]]; [tauto|tauto|].
        right. exists y. tauto.
    + apply hull2_stored; assumption.
    + assumption.
    + eapply Forall_impl; [|eassumption]. intros y Hy.
      apply hull2_not_apart; assumption.
Qed.

Lemma hull_idem (e u : Extent) :
  start_block u <= start_block e ->
  start_block e + num_blocks e <= start_block u + num_blocks u ->
  hull e [u] = u.
Proof.
  intros H1 H2. unfold hull, hull2; simpl. destruct u as [s n]; simpl in *.
  f_equal; lia.
Qed.
End Hull.

(* ------------------------------------------------------------------ *)
(** ** The loop of AddExtent *)

Lemma wrap64_add_l (a b : Z) : wrap64 (wrap64 a + b) = wrap64 (a + b).
Proof. unfold wrap64. apply Zplus_mod_idemp_l. Qed.

Lemma add_loop_skip (merge : bool) (n : nat) (p : list Extent) :
  forall tl it hi st,
    Forall (fun x => should_merge merge x (cur_extent st) = false) p ->
    (it + length p <= hi)%nat ->
    add_loop merge n (p ++ tl) it hi st
    = add_loop merge n tl (it + length p) hi st.
Proof.
  induction p as [|x p IH]; intros tl it hi st Hp Hi; simpl in *.
  - rewrite Nat.add_0_r. reflexivity.
  - inversion Hp as [|? ? Hx Hp']; subst.
    destruct (Nat.eqb_spec it hi) as [E|_]; [lia|].
    rewrite Hx. rewrite IH by (try assumption; lia).
    f_equal. lia.
Qed.

Lemma add_loop_tail (merge : bool) (n : nat) (tl : list Extent) :
  forall it hi st,
    Forall (fun x => should_merge merge x (cur_extent st) = false) tl ->
    (it <= hi <= it + length tl)%nat ->
    add_loop merge n tl it hi st = Ok st.
Proof.
  induction tl as [|x tl IH]; intros it hi st Hp Hi; simpl in *.
  - replace hi with it by lia. rewrite Nat.eqb_refl. reflexivity.
  - destruct (Nat.eqb_spec it hi) as [E|N]; [reflexivity|].
    inversion Hp as [|? ? Hx Hp']; subst. rewrite Hx.
    apply IH; [assumption|lia].
Qed.

Lemma add_loop_mid (merge : bool) (n : nat) (m : list Extent) :
  forall tl it hi st d,
    Forall stored_ok m -> stored_ok (cur_extent st) ->
    Forall (fun x => ~ apart (gap merge) x (cur_extent st)) m ->
    (it + length m <= hi)%nat ->
    begin_del st <> n -> end_del st = it -> del_blocks st = wrap64 d ->
    add_loop merge n (m ++ tl) it hi st
    = add_loop merge n tl (it + length m) hi
        (mkAdd (begin_del st) (it + length m)
               (wrap64 (d + total_blocks m)) (hull (cur_extent st) m)).
Proof.
  induction m as [|x m IH]; intros tl it hi st d Hm Hc Ha Hi Hb He Hd; simpl.
  - rewrite Nat.add_0_r, Z.add_0_r. destruct st; simpl in *. subst.
    reflexivity.
  - revert He Hd.
    inversion Hm as [|? ? Hx Hm']; subst.
    inversion Ha as [|? ? Hax Ha']; subst. intros He Hd.
    destruct (Nat.eqb_spec it hi) as [E|_]; [simpl in Hi; lia|].
    rewrite (should_merge_true merge x _ Hx Hc Hax).
    rewrite (UnionOverlappingExtents_stored _ _ Hc Hx). simpl bind.
    destruct (Nat.eqb_spec (begin_del st) n) as [E|_]; [contradiction|].
    rewrite (IH tl (S it) hi _ (d + num_blocks x)); simpl in *;
      try assumption; try lia; try reflexivity.
    + f_equal; [lia|]. f_equal; [lia|]. f_equal. lia.
    + apply hull2_stored; assumption.
    + eapply Forall_impl; [|exact Ha']. intros y Hy.
      apply hull2_not_apart; try assumption. apply gap_nonneg.
    + rewrite Hd. apply wrap64_add_l.
Qed.

(** The loop on a classified range: entries before the extent, entries that
    merge with it, entries after it. *)
Lemma add_loop_classified (merge : bool) (l m r : list Extent) (e : Extent)
      (lo hi : nat) :
  let n := length (l ++ m ++ r) in
  stored_ok e -> Forall stored_ok (l ++ m ++ r) ->
  Forall (fun x => sep (gap merge) x e) l ->
  Forall (fun x => ~ apart (gap merge) x e) m ->
  Forall (fun x => sep (gap merge) (hull e m) x) r ->
  (lo <= length l)%nat -> (length l + length m <= hi <= n)%nat ->
  add_loop merge n (skipn lo (l ++ m ++ r)) lo hi (mkAdd n n 0 e)
  = Ok (match m with
        | [] => mkAdd n n 0 e
        | _ => mkAdd (length l) (length l + length m)
                     (wrap64 (total_blocks m)) (hull e m)
        end).
Proof.
  intros n He Hs Hl Hm Hr Hlo Hhi.
  apply Forall_app in Hs. destruct Hs as [Hsl Hs].
  apply Forall_app in Hs. destruct Hs as [Hsm Hsr].
  assert (Hlen : n = (length l + length m + length r)%nat).
  { subst n. rewrite !length_app. lia. }
  (* the entries before the extent *)
  rewrite skipn_app. replace (lo - length l)%nat with 0%nat by lia.
  simpl skipn.
  rewrite add_loop_skip; rewrite ?length_skipn.
  2:{ simpl. apply Forall_skipn_of.
      eapply Forall_impl; [|exact (Forall_and Hsl Hl)]. simpl.
      intros x [Hx1 Hx2]. apply should_merge_false; [exact Hx1|exact He|].
      left. exact Hx2. }
  2:{ lia. }
  replace (lo + (length l - lo))%nat with (length l) by lia.
  assert (Htail : forall st it,
             cur_extent st = hull e m ->
             (it = length l + length m)%nat ->
             add_loop merge n r it hi st = Ok st).
  { intros st it Hc Hit. apply add_loop_tail; [|lia].
    rewrite Hc. eapply Forall_impl; [|exact (Forall_and Hsr Hr)]. simpl.
    intros x [Hx1 Hx2]. apply should_merge_false.
    - exact Hx1.
    - apply (hull_stored m e); assumption.
    - right. exact Hx2. }
  destruct m as [|x m].
  - simpl. apply Htail; [reflexivity|simpl; lia].
  - (* the first merged entry sets [begin_del] *)
    inversion Hsm as [|? ? Hx Hsm']; subst.
    inversion Hm as [|? ? Hax Ha']; subst.
    simpl app. simpl add_loop. simpl length in Hhi.
    destruct (Nat.eqb_spec (length l) hi) as [E|_]; [lia|].
    rewrite (should_merge_true merge x e Hx He Hax).
    rewrite (UnionOverlappingExtents_stored _ _ He Hx). simpl bind.
    simpl begin_del. rewrite Nat.eqb_refl.
    rewrite (add_loop_mid merge n m r (S (length l)) hi _ (num_blocks x));
      simpl; try assumption; try lia; try reflexivity.
    + rewrite Htail.
      * f_equal. f_equal; lia.
      * reflexivity.
      * simpl. lia.
    + apply hull2_stored; assumption.
    + eapply Forall_impl; [|exact Ha']. intros y Hy.
      apply hull2_not_apart; try assumption. apply gap_nonneg.
Qed.

(* ------------------------------------------------------------------ *)
(** ** Entries before, merging with, and after an extent *)

Lemma classify (g : Z) (e : Extent) (s : ExtentSet) :
  0 <= g -> stored_ok e -> well_formed g s ->
  exists l m r,
    s = l ++ m ++ r
    /\ Forall (fun x => sep g x e) l
    /\ Forall (fun x => ~ apart g x e) m
    /\ Forall (fun x => sep g e x) r.
Proof.
  intros Hg He. induction s as [|x s IH]; intros Hw.
  - exists [], [], []. repeat split; constructor.
  - apply well_formed_cons_inv in Hw. destruct Hw as [Hx [Hsep Hw]].
    destruct (IH Hw) as [l [m [r [Es [Hl [Hm Hr]]]]]].
    destruct (Z_le_gt_dec (start_block x + num_blocks x + g) (start_block e))
      as [B|B].
    + exists (x :: l), m, r. subst s.
      repeat split; try assumption. constructor; assumption.
    + destruct (Z_le_gt_dec (start_block e + num_blocks e + g) (start_block x))
        as [A|A].
      * exists [], [], (x :: s). repeat split; try constructor; try assumption.
        eapply Forall_impl; [|exact Hsep]. unfold sep, stored_ok in *.
        intros y Hy. lia.
      * assert (l = []).
        { destruct l as [|y l]; [reflexivity|]. exfalso.
          inversion Hl as [|? ? Hy _]; subst.
          inversion Hsep as [|? ? Hxy _]; subst.
          destruct Hw as [Hf _]. inversion Hf as [|? ? Hsy _]; subst.
          unfold sep, stored_ok in *. lia. }
        subst l. exists [], (x :: m), r. subst s.
        repeat split; try assumption; constructor; try assumption.
        unfold apart, sep. lia.
Qed.

(** In a well-formed set, the three classes relate as follows. *)
Lemma classes_separated (g : Z) (e : Extent) (l m r : list Extent) :
  0 <= g -> stored_ok e -> well_formed g (l ++ m ++ r) ->
  Forall (fun x => sep g x e) l ->
  Forall (fun x => sep g e x) r ->
  Forall (fun x => sep g x (hull e m)) l
  /\ Forall (fun x => sep g (hull e m) x) r.
Proof.
  intros Hg He Hw Hl Hr.
  apply well_formed_app_inv in Hw. destruct Hw as [Hwl [Hw Hlm]].
  apply well_formed_app_inv in Hw. destruct Hw as [Hwm [Hwr Hmr]].
  split.
  - eapply Forall_impl; [|exact (Forall_and Hl Hlm)]. simpl.
    intros x [H1 H2]. apply hull_sep_left; [exact H1|].
    apply Forall_app in H2. tauto.
  - apply Forall_forall. intros x Hx. apply hull_sep_right.
    + rewrite Forall_forall in Hr. apply Hr. exact Hx.
    + eapply Forall_impl; [|exact Hmr]. simpl. intros y Hy.
      rewrite Forall_forall in Hy. apply Hy. exact Hx.
Qed.

(* ------------------------------------------------------------------ *)
(** ** GetCandidateRange brackets the merging entries *)

Lemma walk_back_S (s : ExtentSet) (e : Extent) (i : nat) :
  walk_back s e (S i)
  = if Nat.eqb (S i) (length s)
       || (end_block (nth (S i) s empty_extent) >? start_block e)
    then walk_back s e i else S i.
Proof. reflexivity. Qed.

Lemma walk_back_spec (s : ExtentSet) (e : Extent) : forall i,
  (i <= length s)%nat ->
  let lo := walk_back s e i in
  lo = 0%nat
  \/ ((lo < length s)%nat
      /\ end_block (nth lo s empty_extent) <= start_block e).
Proof.
  induction i as [|i IH]; intros Hi.
  - left. reflexivity.
  - cbv zeta. rewrite walk_back_S.
    destruct (Nat.eqb_spec (S i) (length s)) as [E|N]; cbn [orb].
    + apply IH. lia.
    + destruct (end_block (nth (S i) s empty_extent) >? start_block e) eqn:C.
      * apply IH. lia.
      * right. unbool. split; lia.
Qed.

Lemma walk_forward_spec (limit : Z) (tl : list Extent) : forall i,
  let hi := walk_forward tl i limit in
  (i <= hi <= i + length tl)%nat
  /\ (hi = (i + length tl)%nat
      \/ exists x, nth_error tl (hi - i) = Some x /\ limit < start_block x).
Proof.
  induction tl as [|x tl IH]; intros i; simpl.
  - split; [lia|]. left. lia.
  - destruct (start_block x <=? limit) eqn:C; unbool.
    + destruct (IH (S i)) as [H1 H2]. split; [lia|].
      destruct H2 as [H2|[y [Hy Hl]]]; [left; lia|].
      right. exists y. split; [|exact Hl].
      replace (walk_forward tl (S i) limit - i)%nat
        with (S (walk_forward tl (S i) limit - S i)) by lia.
      exact Hy.
    + split; [lia|]. right. exists x. rewrite Nat.sub_diag. split; [reflexivity|lia].
Qed.

Lemma nth_error_classes (l m r : list Extent) (i : nat) (x : Extent) :
  nth_error (l ++ m ++ r) i = Some x ->
  ((i < length l)%nat /\ In x l)
  \/ ((length l <= i < length l + length m)%nat /\ In x m)
  \/ ((length l + length m <= i)%nat /\ In x r).
Proof.
  intros H.
  destruct (Nat.lt_ge_cases i (length l)) as [H1|H1].
  - rewrite nth_error_app1 in H by exact H1. left. split; [exact H1|].
    eapply nth_error_In. exact H.
  - rewrite nth_error_app2 in H by exact H1.
    destruct (Nat.lt_ge_cases (i - length l) (length m)) as [H2|H2].
    + rewrite nth_error_app1 in H by exact H2. right. left. split; [lia|].
      eapply nth_error_In. exact H.
    + rewrite nth_error_app2 in H by exact H2. right. right. split; [lia|].
      eapply nth_error_In. exact H.
Qed.

Lemma GetCandidateRange_brackets (merge : bool) (e : Extent) (l m r : list Extent) :
  stored_ok e -> well_formed (gap merge) (l ++ m ++ r) ->
  Forall (fun x => sep (gap merge) x e) l ->
  Forall (fun x => ~ apart (gap merge) x e) m ->
  Forall (fun x => sep (gap merge) e x) r ->
  (fst (GetCandidateRange (l ++ m ++ r) e) <= length l)%nat
  /\ (length l + length m <= snd (GetCandidateRange (l ++ m ++ r) e)
      <= length (l ++ m ++ r))%nat.
Proof.
  intros He Hw Hl Hm Hr. set (s := l ++ m ++ r) in *.
  pose proof (gap_nonneg merge) as Hg0. pose proof (gap_le_1 merge) as Hg1.
  rewrite Forall_forall in Hl, Hm, Hr.
  unfold GetCandidateRange. simpl fst. simpl snd.
  rewrite (end_block_stored e He).
  split.
  - (* the lower end *)
    destruct (walk_back_spec s e (lower_bound s e) (lower_bound_le s e))
      as [E|[Hlt Hend]]; [rewrite E; lia|].
    set (lo := walk_back s e (lower_bound s e)) in *.
    destruct (Nat.le_gt_cases lo (length l)) as [H|H]; [exact H|]. exfalso.
    destruct (nth_error s lo) as [x|] eqn:Ex;
      [|apply nth_error_None in Ex; lia].
    rewrite (nth_error_nth _ _ _ Ex) in Hend.
    pose proof (well_formed_nth_stored _ _ _ _ Hw Ex) as Hx.
    rewrite (end_block_stored x Hx) in Hend.
    destruct (nth_error s (length l)) as [y|] eqn:Ey;
      [|apply nth_error_None in Ey; lia].
    pose proof (well_formed_nth_stored _ _ _ _ Hw Ey) as Hy.
    pose proof (well_formed_nth_sep _ _ Hw _ _ _ _ H Ey Ex) as Hyx.
    destruct (nth_error_classes l m r _ _ Ey) as [[C _]|[[_ C]|[_ C]]].
    + lia.
    + apply (Hm y C). left. unfold sep, stored_ok in *. lia.
    + pose proof (Hr y C). unfold sep, stored_ok in *. lia.
  - (* the upper end *)
    set (ub := upper_bound s (ExtentForRange (start_block e + num_blocks e) 1)).
    pose proof (upper_bound_le s (ExtentForRange (start_block e + num_blocks e) 1))
      as Hub. fold ub in Hub.
    destruct (walk_forward_spec (start_block e + num_blocks e) (skipn ub s) ub)
      as [H1 H2].
    set (hi := walk_forward (skipn ub s) ub (start_block e + num_blocks e)) in *.
    rewrite length_skipn in H1, H2.
    assert (Hn : length s = (length l + length m + length r)%nat).
    { subst s. rewrite !length_app. lia. }
    split; [|lia].
    destruct H2 as [H2|[x [Ex Hx]]]; [lia|].
    rewrite nth_error_skipn in Ex.
    replace (ub + (hi - ub))%nat with hi in Ex by lia.
    destruct (Nat.le_gt_cases (length l + length m) hi) as [H|H]; [exact H|].
    exfalso.
    pose proof (well_formed_nth_stored _ _ _ _ Hw Ex) as Hsx.
    destruct (nth_error_classes l m r _ _ Ex) as [[_ C]|[[_ C]|[C _]]].
    + pose proof (Hl x C). unfold sep, stored_ok in *. lia.
    + apply (Hm x C). right. unfold sep, stored_ok in *. lia.
    + lia.
Qed.

(* ------------------------------------------------------------------ *)
(** ** Erasing and inserting in the ordered set *)

Lemma firstn_app_exact {A : Type} (a b : list A) : firstn (length a) (a ++ b) = a.
Proof.
  rewrite firstn_app, Nat.sub_diag, firstn_all. simpl. apply app_nil_r.
Qed.

Lemma skipn_app_exact {A : Type} (a b : list A) : skipn (length a) (a ++ b) = b.
Proof.
  rewrite skipn_app, Nat.sub_diag, skipn_all. reflexivity.
Qed.

Lemma set_erase_classes (l m r : list Extent) :
  set_erase (length l) (length l + length m) (l ++ m ++ r) = l ++ r.
Proof.
  unfold set_erase. rewrite firstn_app_exact. f_equal.
  rewrite app_assoc, <- length_app. apply skipn_app_exact.
Qed.

Lemma set_erase_end (s : ExtentSet) : set_erase (length s) (length s) s = s.
Proof.
  unfold set_erase. rewrite firstn_all, skipn_all. apply app_nil_r.
Qed.

Lemma set_insert_place (u : Extent) (l r : list Extent) :
  Forall (fun x => start_block x < start_block u) l ->
  Forall (fun x => start_block u < start_block x) r ->
  set_insert u (l ++ r) = l ++ u :: r.
Proof.
  intros Hl Hr. induction Hl as [|x l Hx _ IH]; simpl.
  - destruct r as [|y r]; [reflexivity|]. simpl.
    inversion Hr as [|? ? Hy _]; subst.
    replace (ExtentLess u y) with true; [reflexivity|].
    symmetry. unfold_ext. split_cmps; unbool; try reflexivity; lia.
  - replace (ExtentLess u x) with false.
    + replace (ExtentLess x u) with true; [rewrite IH; reflexivity|].
      symmetry. unfold_ext. split_cmps; unbool; try reflexivity; lia.
    + symmetry. unfold_ext. split_cmps; unbool; try reflexivity; lia.
Qed.

(* ------------------------------------------------------------------ *)
(** ** AddExtent on a well-formed set *)

Lemma AddExtent_classified (merge : bool) (l m r : list Extent) (b : Z)
      (e : Extent) :
  stored_ok e -> well_formed (gap merge) (l ++ m ++ r) ->
  Forall (fun x => sep (gap merge) x e) l ->
  Forall (fun x => ~ apart (gap merge) x e) m ->
  Forall (fun x => sep (gap merge) e x) r ->
  AddExtent (mkRanges (l ++ m ++ r) b merge) e
  = Ok (mkRanges (l ++ hull e m :: r)
          (wrap64 (wrap64 (b - wrap64 (total_blocks m))
                   + num_blocks (hull e m)))
          merge).
Proof.
  intros He Hw Hl Hm Hr.
  pose proof (gap_nonneg merge) as Hg0.
  destruct (classes_separated _ e l m r Hg0 He Hw Hl Hr) as [Hlu Hur].
  destruct (GetCandidateRange_brackets merge e l m r He Hw Hl Hm Hr)
    as [Hlo Hhi].
  unfold AddExtent.
  replace ((start_block e =? kSparseHole) || (num_blocks e =? 0)) with false.
  2:{ symmetry. unfold stored_ok, kSparseHole, two64 in *.
      apply orb_false_iff. split; [apply Z.eqb_neq|apply Z.eqb_neq]; lia. }
  cbn [extent_set_ blocks_ merge_touching_extents_].
  destruct (GetCandidateRange (l ++ m ++ r) e) as [lo hi]. simpl in Hlo, Hhi.
  pose proof Hw as [Hf _].
  rewrite (add_loop_classified merge l m r e lo hi He Hf Hl Hm Hur Hlo Hhi).
  simpl bind.
  assert (Hins : set_insert (hull e m) (l ++ r) = l ++ hull e m :: r).
  { assert (Hsu : stored_ok (hull e m)).
    { apply hull_stored; [exact He|].
      apply Forall_app in Hf. destruct Hf as [_ Hf].
      apply Forall_app in Hf. tauto. }
    apply Forall_app in Hf. destruct Hf as [Hfl Hf].
    apply Forall_app in Hf. destruct Hf as [_ Hfr].
    apply set_insert_place.
    - eapply Forall_impl; [|exact (Forall_and Hfl Hlu)]. simpl.
      intros x [H1 H2]. unfold sep, stored_ok in *. lia.
    - eapply Forall_impl; [|exact Hur]. simpl.
      intros x H1. unfold sep, stored_ok in *. lia. }
  destruct m as [|x m].
  - cbn [begin_del end_del del_blocks cur_extent].
    rewrite set_erase_end. simpl app in *. simpl hull in *. rewrite Hins.
    reflexivity.
  - cbn [begin_del end_del del_blocks cur_extent].
    rewrite set_erase_classes, Hins. reflexivity.
Qed.

(** The result of [AddExtent] on a well-formed set. *)
Lemma AddExtent_ok (r : ExtentRanges) (e : Extent) :
  ranges_ok r -> stored_ok e ->
  exists l m rr,
    extent_set_ r = l ++ m ++ rr
    /\ Forall (fun x => sep (gap (merge_touching_extents_ r)) x e) l
    /\ Forall (fun x => ~ apart (gap (merge_touching_extents_ r)) x e) m
    /\ Forall (fun x => sep (gap (merge_touching_extents_ r)) e x) rr
    /\ AddExtent r e
       = Ok (mkRanges (l ++ hull e m :: rr)
               (total_blocks (l ++ hull e m :: rr))
               (merge_touching_extents_ r))
    /\ well_formed (gap (merge_touching_extents_ r)) (l ++ hull e m :: rr).
Proof.
  intros [Hw Hb] He. destruct r as [s b merge]. simpl in *.
  pose proof (gap_nonneg merge) as Hg0.
  destruct (classify _ e s Hg0 He Hw) as [l [m [rr [Es [Hl [Hm Hr]]]]]].
  subst s. exists l, m, rr.
  destruct (classes_separated _ e l m rr Hg0 He Hw Hl Hr) as [Hlu Hur].
  assert (Hw' : well_formed (gap merge) (l ++ hull e m :: rr)).
  { pose proof Hw as Hw0.
    apply well_formed_app_inv in Hw. destruct Hw as [Hwl [Hw Hlm]].
    apply well_formed_app_inv in Hw. destruct Hw as [Hwm [Hwr Hmr]].
    apply well_formed_app; [exact Hwl| |].
    - apply well_formed_cons; [|exact Hur|exact Hwr].
      apply hull_stored; [exact He|]. destruct Hwm. assumption.
    - eapply Forall_impl; [|exact (Forall_and Hlu Hlm)]. simpl.
      intros x [H1 H2]. constructor; [exact H1|].
      apply Forall_app in H2. tauto. }
  repeat split; try assumption.
  - rewrite (AddExtent_classified merge l m rr b e He Hw Hl Hm Hr).
    f_equal. f_equal.
    pose proof (well_formed_total _ _ Hg0 Hw') as Ht'.
    pose proof Hw as Hw0.
    apply well_formed_app_inv in Hw0. destruct Hw0 as [Hwl [Hw0 _]].
    apply well_formed_app_inv in Hw0. destruct Hw0 as [Hwm [Hwr _]].
    pose proof (well_formed_total _ _ Hg0 Hwl) as Htl.
    pose proof (well_formed_total _ _ Hg0 Hwm) as Htm.
    pose proof (well_formed_total _ _ Hg0 Hwr) as Htr.
    pose proof (well_formed_total _ _ Hg0 Hw) as Ht.
    rewrite Hb. rewrite !total_blocks_app in *. simpl total_blocks in *.
    unfold two64 in *.
    rewrite (wrap64_small (total_blocks m)) by lia.
    rewrite (wrap64_small (total_blocks l + (total_blocks m + total_blocks rr)
                           - total_blocks m)) by lia.
    rewrite wrap64_small by lia. lia.
  - destruct Hw'. assumption.
  - destruct Hw'. assumption.
Qed.

(* ------------------------------------------------------------------ *)
(** ** The pieces left by a subtraction *)

Lemma SubtractOverlappingExtents_stored (x e : Extent) :
  stored_ok x -> stored_ok e -> ~ apart 0 x e ->
  SubtractOverlappingExtents x e = pieces e x.
Proof.
  intros Hx He Ha. unfold SubtractOverlappingExtents, pieces.
  rewrite (end_block_stored x Hx), (end_block_stored e He).
  unfold apart, sep, stored_ok, ExtentForRange in *.
  rewrite !Z.gtb_ltb.
  destruct (start_block x <? start_block e) eqn:E1;
    destruct (start_block e + num_blocks e <? start_block x + num_blocks x) eqn:E2;
    unbool; simpl; try reflexivity;
    repeat rewrite wrap64_small by (unfold two64 in *; lia); try reflexivity.
  unfold ExtentLess; simpl.
  destruct (Z.eqb_spec (start_block e + num_blocks e) (start_block x)); [lia|].
  destruct (Z.ltb_spec (start_block e + num_blocks e) (start_block x)); [lia|].
  destruct (Z.eqb_spec (start_block x) (start_block e + num_blocks e)); [lia|].
  destruct (Z.ltb_spec (start_block x) (start_block e + num_blocks e)); [|lia].
  reflexivity.
Qed.

(** A piece lies inside the entry it comes from, away from [e]. *)
Lemma pieces_inside (e x p : Extent) :
  stored_ok x -> stored_ok e -> ~ apart 0 x e -> In p (pieces e x) ->
  stored_ok p /\ sub_range p x /\ apart 0 p e.
Proof.
  unfold pieces, apart, sep, stored_ok, sub_range. intros Hx He Ha Hp.
  apply in_app_or in Hp.
  destruct (start_block x <? start_block e) eqn:E1;
    destruct (start_block e + num_blocks e <? start_block x + num_blocks x) eqn:E2;
    unbool; destruct Hp as [Hp|Hp]; simpl in Hp;
    try contradiction; destruct Hp as [<-|[]]; simpl; lia.
Qed.

Lemma pieces_covers (e x : Extent) (b : Z) :
  stored_ok x -> stored_ok e -> ~ apart 0 x e ->
  (covered (pieces e x) b <-> covers x b /\ ~ covers e b).
Proof.
  unfold pieces, apart, sep, stored_ok, covered, covers. intros Hx He Ha.
  destruct (start_block x <? start_block e) eqn:E1;
    destruct (start_block e + num_blocks e <? start_block x + num_blocks x) eqn:E2;
    unbool; simpl; split.
  all: try (intros [p [[<-|[<-|[]]] Hp]]; simpl in Hp; lia).
  all: try (intros [p [[<-|[]] Hp]]; simpl in Hp; lia).
  all: try (intros [p [[] _]]).
  all: intros [H1 H2].
  - destruct (Z_lt_le_dec b (start_block e)).
    + eexists; split; [left; reflexivity|simpl; lia].
    + eexists; split; [right; left; reflexivity|simpl; lia].
  - eexists; split; [left; reflexivity|simpl; lia].
  - eexists; split; [left; reflexivity|simpl; lia].
  - exfalso. lia.
Qed.

Lemma pieces_sorted (g : Z) (e x : Extent) :
  g <= 1 -> stored_ok e ->
  StronglySorted (sep g) (pieces e x).
Proof.
  intros Hg He. unfold pieces.
  destruct (start_block x <? start_block e);
    destruct (start_block e + num_blocks e <? start_block x + num_blocks x);
    simpl; repeat constructor.
  unfold sep, stored_ok in *; simpl. lia.
Qed.

Lemma total_pieces (e x : Extent) :
  stored_ok x -> stored_ok e -> ~ apart 0 x e ->
  0 <= total_blocks (pieces e x) <= num_blocks x.
Proof.
  unfold pieces, apart, sep, stored_ok. intros Hx He Ha.
  destruct (start_block x <? start_block e) eqn:E1;
    destruct (start_block e + num_blocks e <? start_block x + num_blocks x) eqn:E2;
    unbool; simpl; lia.
Qed.

(* ------------------------------------------------------------------ *)
(** ** The loops of SubtractExtent *)

Lemma wrap64_sub_l (a b : Z) : wrap64 (wrap64 a - b) = wrap64 (a - b).
Proof. unfold wrap64. apply Zminus_mod_idemp_l. Qed.

Lemma set_insert_snoc (u : Extent) (a : list Extent) :
  Forall (fun x => start_block x < start_block u) a ->
  set_insert u a = a ++ [u].
Proof.
  intros H. rewrite <- (app_nil_r a) at 1.
  apply set_insert_place; [exact H|constructor].
Qed.

Lemma sub_pieces_spec (ps : list Extent) : forall st d,
  Forall (fun a => Forall (fun p => start_block a < start_block p) ps)
         (new_extents st) ->
  StronglySorted (fun a b => start_block a < start_block b) ps ->
  sub_del_blocks st = wrap64 d ->
  sub_pieces ps st
  = mkSub (sub_begin_del st) (sub_end_del st)
          (wrap64 (d - total_blocks ps)) (new_extents st ++ ps).
Proof.
  unfold sub_pieces.
  induction ps as [|p ps IH]; intros st d Hne Hs Hd; simpl.
  - rewrite Z.sub_0_r, app_nil_r, <- Hd. destruct st; reflexivity.
  - inversion Hs as [|? ? Hs' Hp]; subst.
    rewrite (IH _ (d - num_blocks p)); simpl.
    + rewrite set_insert_snoc.
      * rewrite <- app_assoc. simpl. f_equal. f_equal. lia.
      * eapply Forall_impl; [|exact Hne]. simpl. intros a Ha.
        inversion Ha; subst. assumption.
    + rewrite set_insert_snoc.
      * apply Forall_app. split.
        -- eapply Forall_impl; [|exact Hne]. simpl. intros a Ha.
           inversion Ha; subst. assumption.
        -- constructor; [exact Hp|constructor].
      * eapply Forall_impl; [|exact Hne]. simpl. intros a Ha.
        inversion Ha; subst. assumption.
    + exact Hs'.
    + rewrite Hd. apply wrap64_sub_l.
Qed.

Lemma pieces_ascending (e x : Extent) :
  stored_ok e ->
  StronglySorted (fun a b => start_block a < start_block b) (pieces e x).
Proof.
  intros He. unfold pieces.
  destruct (start_block x <? start_block e) eqn:E1;
    destruct (start_block e + num_blocks e <? start_block x + num_blocks x);
    simpl; repeat constructor.
  unbool. unfold stored_ok in He. simpl. lia.
Qed.

Lemma sub_loop_skip (n : nat) (e : Extent) (p : list Extent) :
  forall tl it st,
    Forall (fun x => ExtentsOverlap x e = false) p ->
    sub_loop n e (p ++ tl) it st = sub_loop n e tl (it + length p) st.
Proof.
  induction p as [|x p IH]; intros tl it st Hp; simpl.
  - rewrite Nat.add_0_r. reflexivity.
  - inversion Hp as [|? ? Hx Hp']; subst. rewrite Hx. simpl.
    rewrite IH by assumption. f_equal. lia.
Qed.

Lemma sub_loop_step (n : nat) (e x : Extent) (tl : list Extent) (it : nat)
      (st : sub_state) (d : Z) :
  stored_ok e -> stored_ok x -> ~ apart 0 x e ->
  sub_del_blocks st = wrap64 d ->
  Forall (fun q => start_block q < start_block x) (new_extents st) ->
  sub_loop n e (x :: tl) it st
  = sub_loop n e tl (S it)
      (mkSub (if Nat.eqb (sub_begin_del st) n then it else sub_begin_del st)
             (S it)
             (wrap64 (d + num_blocks x - total_blocks (pieces e x)))
             (new_extents st ++ pieces e x)).
Proof.
  intros He Hx Ha Hd Hq. simpl.
  replace (ExtentsOverlap x e) with true.
  2:{ symmetry. rewrite (ExtentsOverlap_stored x e Hx He).
      unfold apart, sep in Ha. apply negb_true_iff, orb_false_iff.
      split; apply Z.leb_gt; lia. }
  simpl negb. cbv iota.
  rewrite (SubtractOverlappingExtents_stored x e Hx He Ha).
  rewrite (sub_pieces_spec _ _ (d + num_blocks x)); simpl.
  - reflexivity.
  - eapply Forall_impl; [|exact Hq]. simpl. intros q Hlt.
    apply Forall_forall. intros p Hp.
    destruct (pieces_inside e x p Hx He Ha Hp) as [_ [[H1 _] _]]. lia.
  - apply pieces_ascending. exact He.
  - rewrite Hd. apply wrap64_add_l.
Qed.

Lemma sub_loop_mid (n : nat) (e : Extent) (m : list Extent) :
  forall tl it st d,
    stored_ok e -> well_formed 0 m ->
    Forall (fun x => ~ apart 0 x e) m ->
    sub_begin_del st <> n -> sub_end_del st = it ->
    sub_del_blocks st = wrap64 d ->
    Forall (fun q => Forall (fun x => start_block q < start_block x) m)
           (new_extents st) ->
    sub_loop n e (m ++ tl) it st
    = sub_loop n e tl (it + length m)
        (mkSub (sub_begin_del st) (it + length m)
               (wrap64 (d + total_blocks m
                        - total_blocks (flat_map (pieces e) m)))
               (new_extents st ++ flat_map (pieces e) m)).
Proof.
  induction m as [|x m IH]; intros tl it st d He Hw Ha Hb Hend Hd Hq.
  - simpl. rewrite Nat.add_0_r, Z.add_0_r, Z.sub_0_r, app_nil_r, <- Hd, <- Hend.
    destruct st; reflexivity.
  - apply well_formed_cons_inv in Hw. destruct Hw as [Hx [Hsep Hw]].
    inversion Ha as [|? ? Hax Ha']; subst.
    simpl app.
    rewrite (sub_loop_step n e x (m ++ tl) _ st d He Hx Hax Hd).
    2:{ eapply Forall_impl; [|exact Hq]. simpl. intros q Hq'.
        inversion Hq'; subst. assumption. }
    destruct (Nat.eqb_spec (sub_begin_del st) n) as [E|_]; [contradiction|].
    rewrite (IH tl (S (sub_end_del st)) _
                (d + num_blocks x - total_blocks (pieces e x)));
      simpl; try assumption; try reflexivity.
    + f_equal; [lia|]. rewrite total_blocks_app, <- app_assoc.
      f_equal; [lia|]. f_equal. lia.
    + apply Forall_app. split.
      * eapply Forall_impl; [|exact Hq]. simpl. intros q Hq'.
        inversion Hq'; subst. assumption.
      * apply Forall_forall. intros p Hp.
        destruct (pieces_inside e x p Hx He Hax Hp) as [Hsp [[_ H2] _]].
        eapply Forall_impl; [|exact Hsep]. simpl. intros y Hy.
        unfold sep, stored_ok in *. lia.
Qed.

Lemma sub_loop_classified (e : Extent) (l m r : list Extent) :
  let n := length (l ++ m ++ r) in
  stored_ok e -> well_formed 0 (l ++ m ++ r) ->
  Forall (fun x => sep 0 x e) l ->
  Forall (fun x => ~ apart 0 x e) m ->
  Forall (fun x => sep 0 e x) r ->
  sub_loop n e (l ++ m ++ r) 0 (mkSub n n 0 [])
  = match m with
    | [] => mkSub n n 0 []
    | _ => mkSub (length l) (length l + length m)
                 (wrap64 (total_blocks m - total_blocks (flat_map (pieces e) m)))
                 (flat_map (pieces e) m)
    end.
Proof.
  intros n He Hw Hl Hm Hr.
  assert (Hlen : n = (length l + length m + length r)%nat).
  { subst n. rewrite !length_app. lia. }
  pose proof Hw as Hw0.
  apply well_formed_app_inv in Hw. destruct Hw as [[Hfl _] [Hw _]].
  apply well_formed_app_inv in Hw. destruct Hw as [Hwm [[Hfr _] _]].
  assert (Sl : Forall (fun x => ExtentsOverlap x e = false) l).
  { eapply Forall_impl; [|exact (Forall_and Hfl Hl)]. simpl.
    intros x [H1 H2]. rewrite (ExtentsOverlap_stored x e H1 He).
    unfold sep in H2. apply negb_false_iff, orb_true_iff. left.
    apply Z.leb_le. lia. }
  assert (Sr : Forall (fun x => ExtentsOverlap x e = false) r).
  { eapply Forall_impl; [|exact (Forall_and Hfr Hr)]. simpl.
    intros x [H1 H2]. rewrite (ExtentsOverlap_stored x e H1 He).
    unfold sep in H2. apply negb_false_iff, orb_true_iff. right.
    apply Z.leb_le. lia. }
  rewrite sub_loop_skip by exact Sl. simpl Nat.add.
  assert (Htail : forall it st, sub_loop n e r it st = st).
  { intros it st. rewrite <- (app_nil_r r). rewrite sub_loop_skip by exact Sr.
    reflexivity. }
  destruct m as [|x m].
  - simpl. apply Htail.
  - pose proof Hwm as Hwm0.
    apply well_formed_cons_inv in Hwm. destruct Hwm as [Hx [Hsep Hwm]].
    inversion Hm as [|? ? Hax Ha']; subst.
    simpl app.
    rewrite (sub_loop_step n e x (m ++ r) _ _ 0 He Hx Hax);
      [|reflexivity|constructor].
    cbn [sub_begin_del sub_end_del sub_del_blocks new_extents].
    rewrite Nat.eqb_refl.
    rewrite (sub_loop_mid n e m r (S (length l)) _
               (0 + num_blocks x - total_blocks (pieces e x)));
      cbn [sub_begin_del sub_end_del sub_del_blocks new_extents];
      try assumption; try reflexivity.
    + rewrite Htail. simpl. rewrite total_blocks_app.
      f_equal; [lia|]. f_equal. lia.
    + simpl length in Hlen. lia.
    + simpl. apply Forall_forall. intros p Hp.
      destruct (pieces_inside e x p Hx He Hax Hp) as [Hsp [[_ H2] _]].
      eapply Forall_impl; [|exact Hsep]. simpl. intros y Hy.
      unfold sep, stored_ok in *. lia.
Qed.

(* ------------------------------------------------------------------ *)
(** ** SubtractExtent on a well-formed set *)

Lemma set_insert_all_place (ps : list Extent) : forall a r,
  Forall (fun p => Forall (fun x => start_block x < start_block p) a) ps ->
  StronglySorted (fun x y => start_block x < start_block y) ps ->
  Forall (fun p => Forall (fun y => start_block p < start_block y) r) ps ->
  set_insert_all ps (a ++ r) = a ++ ps ++ r.
Proof.
  unfold set_insert_all.
  induction ps as [|p ps IH]; intros a r Ha Hs Hr; simpl; [reflexivity|].
  inversion Ha as [|? ? Hpa Ha']; subst.
  inversion Hs as [|? ? Hs' Hp]; subst.
  inversion Hr as [|? ? Hpr Hr']; subst.
  rewrite (set_insert_place p a r Hpa Hpr).
  change (a ++ p :: r) with (a ++ [p] ++ r). rewrite app_assoc.
  rewrite IH; try assumption.
  - rewrite <- app_assoc. reflexivity.
  - apply Forall_forall. intros q Hq. apply Forall_app. split.
    + rewrite Forall_forall in Ha'. apply Ha'. exact Hq.
    + constructor; [|constructor]. rewrite Forall_forall in Hp. apply Hp.
      exact Hq.
Qed.

(** The pieces of the overlapping entries form a well-formed run that fits
    where those entries were. *)
Lemma pieces_well_formed (g : Z) (e : Extent) (m : list Extent) :
  0 <= g <= 1 -> stored_ok e -> well_formed g m ->
  Forall (fun x => ~ apart 0 x e) m ->
  well_formed g (flat_map (pieces e) m)
  /\ Forall (fun p => exists x, In x m /\ sub_range p x /\ stored_ok p)
            (flat_map (pieces e) m).
Proof.
  intros Hg He. induction m as [|x m IH]; intros Hw Ha; simpl.
  - split; [apply well_formed_nil|constructor].
  - apply well_formed_cons_inv in Hw. destruct Hw as [Hx [Hsep Hw]].
    inversion Ha as [|? ? Hax Ha']; subst.
    destruct (IH Hw Ha') as [IH1 IH2].
    assert (Hin : Forall (fun p => stored_ok p /\ sub_range p x) (pieces e x)).
    { apply Forall_forall. intros p Hp.
      destruct (pieces_inside e x p Hx He Hax Hp) as [H1 [H2 _]]. tauto. }
    split.
    + apply well_formed_app.
      * split; [eapply Forall_impl; [|exact Hin]; simpl; tauto|].
        apply pieces_sorted; [lia|exact He].
      * exact IH1.
      * eapply Forall_impl; [|exact Hin]. simpl. intros p [Hp1 Hp2].
        apply Forall_forall. intros q Hq.
        rewrite Forall_forall in IH2. destruct (IH2 q Hq) as [y [Hy [Hqy _]]].
        rewrite Forall_forall in Hsep. pose proof (Hsep y Hy) as Hxy.
        unfold sep, sub_range in *. lia.
    + apply Forall_app. split.
      * eapply Forall_impl; [|exact Hin]. simpl. intros p [Hp1 Hp2].
        exists x. split; [left; reflexivity|tauto].
      * eapply Forall_impl; [|exact IH2]. simpl. intros p [y [Hy Hp]].
        exists y. split; [right; exact Hy|exact Hp].
Qed.

Lemma well_formed_ascending (s : ExtentSet) :
  well_formed 0 s ->
  StronglySorted (fun a b => start_block a < start_block b) s.
Proof.
  induction s as [|x s IH]; intros Hw; [constructor|].
  apply well_formed_cons_inv in Hw. destruct Hw as [Hx [Hsep Hw]].
  constructor; [apply IH; exact Hw|].
  eapply Forall_impl; [|exact Hsep]. unfold sep, stored_ok in *.
  intros y Hy. lia.
Qed.

Lemma SubtractExtent_classified (merge : bool) (l m r : list Extent) (b : Z)
      (e : Extent) :
  stored_ok e -> well_formed 0 (l ++ m ++ r) ->
  Forall (fun x => sep 0 x e) l ->
  Forall (fun x => ~ apart 0 x e) m ->
  Forall (fun x => sep 0 e x) r ->
  SubtractExtent (mkRanges (l ++ m ++ r) b merge) e
  = mkRanges (l ++ flat_map (pieces e) m ++ r)
      (wrap64 (b - wrap64 (total_blocks m
                           - total_blocks (flat_map (pieces e) m))))
      merge.
Proof.
  intros He Hw Hl Hm Hr. unfold SubtractExtent.
  replace ((start_block e =? kSparseHole) || (num_blocks e =? 0)) with false.
  2:{ symmetry. unfold stored_ok, kSparseHole, two64 in *.
      apply orb_false_iff. split; [apply Z.eqb_neq|apply Z.eqb_neq]; lia. }
  cbn [extent_set_ blocks_ merge_touching_extents_].
  rewrite (sub_loop_classified e l m r He Hw Hl Hm Hr).
  assert (Hins : set_insert_all (flat_map (pieces e) m) (l ++ r)
                 = l ++ flat_map (pieces e) m ++ r).
  { pose proof Hw as Hw0.
    apply well_formed_app_inv in Hw0. destruct Hw0 as [[Hfl _] [Hw0 Hlm]].
    apply well_formed_app_inv in Hw0. destruct Hw0 as [Hwm [[Hfr _] Hmr]].
    destruct (pieces_well_formed 0 e m ltac:(lia) He Hwm Hm) as [Hwp Hpin].
    apply set_insert_all_place.
    - eapply Forall_impl; [|exact Hpin]. simpl. intros p [y [Hy [Hpy Hp]]].
      eapply Forall_impl; [|exact (Forall_and Hfl Hlm)]. simpl.
      intros z [Hz1 Hz2]. apply Forall_app in Hz2. destruct Hz2 as [Hz2 _].
      rewrite Forall_forall in Hz2. pose proof (Hz2 y Hy).
      unfold sep, sub_range, stored_ok in *. lia.
    - apply well_formed_ascending. exact Hwp.
    - eapply Forall_impl; [|exact Hpin]. simpl. intros p [y [Hy [Hpy Hp]]].
      rewrite Forall_forall in Hmr. pose proof (Hmr y Hy) as Hyr.
      eapply Forall_impl; [|exact Hyr]. simpl. intros z Hz.
      unfold sep, sub_range, stored_ok in *. lia. }
  destruct m as [|x m].
  - cbn [sub_begin_del sub_end_del sub_del_blocks new_extents].
    rewrite set_erase_end. reflexivity.
  - cbn [sub_begin_del sub_end_del sub_del_blocks new_extents].
    rewrite set_erase_classes, Hins. reflexivity.
Qed.

Lemma covered_app (a b : ExtentSet) (x : Z) :
  covered (a ++ b) x <-> covered a x \/ covered b x.
Proof.
  unfold covered. split.
  - intros [e [Hin Hc]]. apply in_app_or in Hin.
    destruct Hin; [left|right]; exists e; tauto.
  - intros [[e [Hin Hc]]|[e [Hin Hc]]]; exists e; split; try assumption;
      apply in_or_app; tauto.
Qed.

Lemma covered_cons (e : Extent) (s : ExtentSet) (x : Z) :
  covered (e :: s) x <-> covers e x \/ covered s x.
Proof.
  unfold covered. split.
  - intros [y [[<-|Hin] Hc]]; [left; exact Hc|right; exists y; tauto].
  - intros [Hc|[y [Hin Hc]]]; [exists e|exists y]; simpl; tauto.
Qed.

Lemma covered_apart (g : Z) (e : Extent) (s : ExtentSet) (x : Z) :
  0 <= g -> Forall (fun y => apart g y e) s -> covered s x -> ~ covers e x.
Proof.
  intros Hg Hs [y [Hin Hc]]. rewrite Forall_forall in Hs.
  pose proof (Hs y Hin) as Ha. unfold apart, sep, covers in *. lia.
Qed.

Lemma flat_pieces_covers (e : Extent) (m : list Extent) (x : Z) :
  stored_ok e -> Forall stored_ok m -> Forall (fun y => ~ apart 0 y e) m ->
  (covered (flat_map (pieces e) m) x <-> covered m x /\ ~ covers e x).
Proof.
  intros He Hm Ha. induction m as [|y m IH]; simpl.
  - unfold covered. split; [intros [z [[] _]]|intros [[z [[] _]] _]].
  - inversion Hm; subst. inversion Ha; subst.
    rewrite covered_app, covered_cons, IH by assumption.
    rewrite pieces_covers by assumption. tauto.
Qed.

Lemma flat_pieces_total (e : Extent) (m : list Extent) :
  stored_ok e -> Forall stored_ok m -> Forall (fun y => ~ apart 0 y e) m ->
  0 <= total_blocks (flat_map (pieces e) m) <= total_blocks m.
Proof.
  intros He Hm Ha. induction m as [|y m IH]; simpl; [lia|].
  inversion Hm; subst. inversion Ha; subst.
  rewrite total_blocks_app.
  pose proof (total_pieces e y ltac:(assumption) He ltac:(assumption)).
  specialize (IH ltac:(assumption) ltac:(assumption)). lia.
Qed.

(** The result of [SubtractExtent] on a well-formed set. *)
Lemma SubtractExtent_ok (r : ExtentRanges) (e : Extent) :
  ranges_ok r -> stored_ok e ->
  ranges_ok (SubtractExtent r e)
  /\ merge_touching_extents_ (SubtractExtent r e) = merge_touching_extents_ r
  /\ forall x, covered (extent_set_ (SubtractExtent r e)) x
               <-> covered (extent_set_ r) x /\ ~ covers e x.
Proof.
  intros [Hw Hb] He. destruct r as [s b merge]. simpl in *.
  pose proof (gap_nonneg merge) as Hg0. pose proof (gap_le_1 merge) as Hg1.
  pose proof (well_formed_relax _ _ Hg0 Hw) as Hw0.
  destruct (classify 0 e s ltac:(lia) He Hw0) as [l [m [rr [Es [Hl [Hm Hr]]]]]].
  subst s.
  rewrite (SubtractExtent_classified merge l m rr b e He Hw0 Hl Hm Hr).
  cbn [extent_set_ blocks_ merge_touching_extents_].
  pose proof Hw as Hwx.
  apply well_formed_app_inv in Hwx. destruct Hwx as [Hwl [Hwx Hlm]].
  apply well_formed_app_inv in Hwx. destruct Hwx as [Hwm [Hwr Hmr]].
  destruct (pieces_well_formed _ e m (conj Hg0 Hg1) He Hwm Hm) as [Hwp Hpin].
  assert (Hw' : well_formed (gap merge) (l ++ flat_map (pieces e) m ++ rr)).
  { apply well_formed_app; [exact Hwl| |].
    - apply well_formed_app; [exact Hwp|exact Hwr|].
      eapply Forall_impl; [|exact Hpin]. simpl. intros p [y [Hy [Hpy Hp]]].
      rewrite Forall_forall in Hmr. pose proof (Hmr y Hy) as Hyr.
      eapply Forall_impl; [|exact Hyr]. simpl. intros z Hz.
      unfold sep, sub_range in *. lia.
    - eapply Forall_impl; [|exact Hlm]. simpl. intros z Hz.
      apply Forall_app in Hz. destruct Hz as [Hzm Hzr].
      apply Forall_app. split; [|exact Hzr].
      eapply Forall_impl; [|exact Hpin]. simpl. intros p [y [Hy [Hpy Hp]]].
      rewrite Forall_forall in Hzm. pose proof (Hzm y Hy).
      unfold sep, sub_range in *. lia. }
  split; [|split; [reflexivity|]].
  - split; cbn [extent_set_ blocks_ merge_touching_extents_]; [exact Hw'|].
    destruct Hwm as [Hfm _].
    pose proof (flat_pieces_total e m He Hfm Hm) as Hp.
    pose proof (well_formed_total _ _ Hg0 Hw') as Ht'.
    pose proof (well_formed_total _ _ Hg0 Hw) as Ht.
    rewrite Hb. rewrite !total_blocks_app in *. unfold two64 in *.
    rewrite (wrap64_small (total_blocks m - _)) by lia.
    rewrite wrap64_small by lia. lia.
  - intros x. rewrite !covered_app.
    destruct Hwm as [Hfm _].
    rewrite (flat_pieces_covers e m x He Hfm Hm).
    assert (Al : covered l x -> ~ covers e x).
    { apply (covered_apart 0); [lia|]. eapply Forall_impl; [|exact Hl].
      intros y Hy. left. exact Hy. }
    assert (Ar : covered rr x -> ~ covers e x).
    { apply (covered_apart 0); [lia|]. eapply Forall_impl; [|exact Hr].
      intros y Hy. right. exact Hy. }
    tauto.
Qed.

(** Coverage after [AddExtent] on a well-formed set. *)
Lemma AddExtent_covers (r : ExtentRanges) (e : Extent) :
  ranges_ok r -> stored_ok e ->
  exists r',
    AddExtent r e = Ok r' /\ ranges_ok r'
    /\ merge_touching_extents_ r' = merge_touching_extents_ r
    /\ forall x, covered (extent_set_ r') x
                 <-> covered (extent_set_ r) x \/ covers e x.
Proof.
  intros Hr He.
  destruct (AddExtent_ok r e Hr He)
    as [l [m [rr [Es [Hl [Hm [Hrr [E Hw']]]]]]]].
  eexists. split; [exact E|]. split; [|split; [reflexivity|]].
  - split; [exact Hw'|reflexivity].
  - intros x. cbn [extent_set_]. rewrite Es.
    rewrite !covered_app, covered_cons.
    destruct Hr as [[Hf _] _]. rewrite Es in Hf.
    apply Forall_app in Hf. destruct Hf as [_ Hf].
    apply Forall_app in Hf. destruct Hf as [Hfm _].
    rewrite (hull_covers _ (gap_nonneg _) (gap_le_1 _) m e x He Hfm Hm).
    tauto.
Qed.

(* ------------------------------------------------------------------ *)
(** ** The invariants of the data model *)

Lemma StronglySorted_weaken_in {A : Type} (P : A -> Prop) (R S : A -> A -> Prop)
      (l : list A) :
  (forall a b, P a -> P b -> R a b -> S a b) ->
  Forall P l -> StronglySorted R l -> StronglySorted S l.
Proof.
  intros H Hp Hs. induction Hs as [|a l _ IH Ha]; [constructor|].
  inversion Hp as [|? ? Hpa Hpl]; subst.
  constructor; [apply IH; exact Hpl|].
  eapply Forall_impl; [|exact (Forall_and Hpl Ha)]. simpl.
  intros b [Hb Hab]. apply H; assumption.
Qed.

Lemma stored_ok_fits (e : Extent) : stored_ok e -> fits e.
Proof. unfold stored_ok, fits, u64_extent, u64. lia. Qed.

Lemma fits_cases (e : Extent) :
  fits e ->
  (start_block e =? kSparseHole) || (num_blocks e =? 0) = true \/ stored_ok e.
Proof.
  intros [[Hs Hn] Hf]. unfold u64 in *.
  destruct (Z.eqb_spec (start_block e) kSparseHole) as [E|N]; [left; reflexivity|].
  destruct (Z.eqb_spec (num_blocks e) 0) as [E0|N0]; [left; reflexivity|].
  right. unfold stored_ok. lia.
Qed.

Lemma ranges_ok_data_invariant (r : ExtentRanges) :
  ranges_ok r ->
  data_invariant r /\ Forall in_range (extent_set_ r) /\ u64 (blocks_ r).
Proof.
  intros [[Hf Hs] Hb]. split; [constructor|split].
  - eapply Forall_impl; [|exact Hf].
    unfold stored_ok, u64_extent, u64, nondegenerate, kSparseHole.
    intros e He. lia.
  - eapply (StronglySorted_weaken_in stored_ok); [|exact Hf|exact Hs].
    unfold stored_ok, sep, precedes. intros a b Ha Hb' Hab.
    destruct (merge_touching_extents_ r); simpl in Hab;
      repeat split; try lia; intros; try discriminate; lia.
  - exact Hb.
  - eapply Forall_impl; [|exact Hf].
    unfold stored_ok, in_range, u64_extent, u64. intros e He. lia.
  - rewrite Hb. unfold u64.
    apply (well_formed_total _ _ (gap_nonneg _) (conj Hf Hs)).
Qed.

Lemma data_invariant_ranges_ok (r : ExtentRanges) :
  data_invariant r -> Forall in_range (extent_set_ r) -> ranges_ok r.
Proof.
  intros [He Hs Hb] Hi. split; [split|exact Hb].
  - eapply Forall_impl; [|exact (Forall_and He Hi)]. simpl.
    unfold stored_ok, in_range, u64_extent, u64, nondegenerate.
    intros e He'. lia.
  - eapply StronglySorted_weaken; [|exact Hs].
    unfold precedes, sep. intros a b [H1 [H2 H3]].
    destruct (merge_touching_extents_ r); simpl; [|lia].
    specialize (H3 eq_refl). lia.
Qed.

(* ------------------------------------------------------------------ *)
(** ** The mutators keep the representation *)

Lemma AddExtent_fits (r : ExtentRanges) (e : Extent) :
  ranges_ok r -> fits e ->
  exists r',
    AddExtent r e = Ok r' /\ ranges_ok r'
    /\ merge_touching_extents_ r' = merge_touching_extents_ r.
Proof.
  intros Hr He. destruct (fits_cases e He) as [D|S].
  - exists r. unfold AddExtent. rewrite D. repeat split; apply Hr.
  - destruct (AddExtent_covers r e Hr S) as [r' [E [Hr' [Hm _]]]].
    exists r'. repeat split; try assumption; apply Hr'.
Qed.

Lemma SubtractExtent_fits (r : ExtentRanges) (e : Extent) :
  ranges_ok r -> fits e ->
  ranges_ok (SubtractExtent r e)
  /\ merge_touching_extents_ (SubtractExtent r e) = merge_touching_extents_ r.
Proof.
  intros Hr He. destruct (fits_cases e He) as [D|S].
  - unfold SubtractExtent. rewrite D. split; [exact Hr|reflexivity].
  - destruct (SubtractExtent_ok r e Hr S) as [H1 [H2 _]]. split; assumption.
Qed.

Lemma AddExtents_fits (es : list Extent) : forall r,
  ranges_ok r -> Forall fits es ->
  exists r', AddExtents r es = Ok r' /\ ranges_ok r'.
Proof.
  induction es as [|e es IH]; intros r Hr He; simpl.
  - exists r. split; [reflexivity|exact Hr].
  - inversion He as [|? ? He1 He2]; subst.
    destruct (AddExtent_fits r e Hr He1) as [r1 [E1 [Hr1 _]]].
    rewrite E1. simpl. apply IH; assumption.
Qed.

Lemma SubtractExtents_fits (es : list Extent) : forall r,
  ranges_ok r -> Forall fits es -> ranges_ok (SubtractExtents r es).
Proof.
  unfold SubtractExtents.
  induction es as [|e es IH]; intros r Hr He; simpl; [exact Hr|].
  inversion He as [|? ? He1 He2]; subst.
  apply IH; [|exact He2]. apply SubtractExtent_fits; assumption.
Qed.

Lemma ranges_ok_entries_fit (r : ExtentRanges) :
  ranges_ok r -> Forall fits (extent_set_ r).
Proof.
  intros [[Hf _] _]. eapply Forall_impl; [|exact Hf]. apply stored_ok_fits.
Qed.

Lemma reachable_ranges_ok (r : ExtentRanges) : reachable fits r -> ranges_ok r.
Proof.
  induction 1 as [merge
                 |r e r' _ IH He E
                 |r e _ IH He
                 |r es r' _ IH Hes E
                 |r es _ IH Hes
                 |r q r' _ IHr _ IHq E
                 |r q _ IHr _ IHq].
  - split; [apply well_formed_nil|reflexivity].
  - destruct (AddExtent_fits r e IH He) as [r1 [E1 [H1 _]]].
    rewrite E in E1. injection E1 as <-. exact H1.
  - apply SubtractExtent_fits; assumption.
  - destruct (AddExtents_fits es r IH Hes) as [r1 [E1 H1]].
    rewrite E in E1. injection E1 as <-. exact H1.
  - apply SubtractExtents_fits; assumption.
  - destruct (AddExtents_fits (extent_set_ q) r IHr (ranges_ok_entries_fit q IHq))
      as [r1 [E1 H1]].
    unfold AddRanges in E. rewrite E in E1. injection E1 as <-. exact H1.
  - apply SubtractExtents_fits; [exact IHr|].
    apply ranges_ok_entries_fit. exact IHq.
Qed.

(** With an extent whose end wraps the candidate range can be reversed, and
    the loop of [AddExtent] then runs past [end()]. *)
Example AddExtent_wrapped_undefined :
  AddExtent (mkRanges [mkExtent 10 5; mkExtent 20 5; mkExtent 30 5] 15 false)
            (mkExtent (two64 - 2) 7)
  = Undefined.
Proof. vm_compute. reflexivity. Qed.

(** C1, as stated, fails: adding twice an extent whose end wraps leaves one
    entry of 5 blocks and a block count of 10. *)
Lemma reachable_invariant_claim_fails :
  exists r, reachable u64_extent r /\ ~ data_invariant r.
Proof.
  assert (U : u64_extent (mkExtent (two64 - 2) 5)).
  { unfold u64_extent, u64, two64; simpl. lia. }
  exists (mkRanges [mkExtent (two64 - 2) 5] 10 false). split.
  - eapply reach_AddExtent; [|exact U|].
    + eapply reach_AddExtent; [apply (reach_empty _ false)|exact U|].
      vm_compute. reflexivity.
    + vm_compute. reflexivity.
  - intros [_ _ Hb]. vm_compute in Hb. discriminate.
Qed.

(** C1 (amended): every set reachable from the empty one by the mutators and
    their bulk variants, called with extents that are sparse holes or whose
    end does not wrap, satisfies the three invariants of the data model. *)
Theorem reachable_data_invariant (r : ExtentRanges) :
  reachable fits r -> data_invariant r.
Proof.
  intros H. apply ranges_ok_data_invariant. apply reachable_ranges_ok. exact H.
Qed.

Lemma reachable_data_invariant_witness :
  reachable fits (mkRanges [mkExtent 5 1; mkExtent 7 1] 2 true)
  /\ data_invariant (mkRanges [mkExtent 5 1; mkExtent 7 1] 2 true).
Proof.
  assert (R : reachable fits (mkRanges [mkExtent 5 1; mkExtent 7 1] 2 true)).
  { apply (reach_SubtractExtent fits (mkRanges [mkExtent 5 3] 3 true)
             (mkExtent 6 1)).
    - apply (reach_AddExtent fits (empty_ranges true) (mkExtent 5 3)).
      + apply reach_empty.
      + unfold fits, u64_extent, u64, two64; simpl. lia.
      + vm_compute. reflexivity.
    - unfold fits, u64_extent, u64, two64; simpl. lia. }
  split; [exact R|]. apply reachable_data_invariant. exact R.
Defined.

(* ------------------------------------------------------------------ *)
(** ** Covered blocks *)

(** C2, as stated, fails: in merge mode, adding an extent whose end wraps to
    a set that ends where the extent starts leaves the set unchanged, so the
    first block of the extent is not covered afterwards. *)
Lemma AddExtent_coverage_claim_fails :
  let s := mkRanges [mkExtent 0 (two64 - 2)] (two64 - 2) true in
  let e := mkExtent (two64 - 2) 5 in
  data_invariant s /\ Forall in_range (extent_set_ s)
  /\ u64_extent e /\ nondegenerate e
  /\ AddExtent s e = Ok s
  /\ covers e (two64 - 2) /\ ~ covered (extent_set_ s) (two64 - 2).
Proof.
  cbv zeta. split; [|split; [|split; [|split; [|split; [|split]]]]].
  - constructor; simpl.
    + repeat constructor; unfold kSparseHole, two64; simpl; lia.
    + repeat constructor.
    + reflexivity.
  - repeat constructor; unfold two64; simpl; lia.
  - unfold u64_extent, u64, two64; simpl. lia.
  - unfold nondegenerate, kSparseHole, two64; simpl. lia.
  - vm_compute. reflexivity.
  - unfold covers, two64; simpl. lia.
  - intros [y [[<-|[]] Hc]]. unfold covers, two64 in Hc; simpl in Hc. lia.
Qed.

(** C2 (amended): on a set that satisfies the invariants and whose entries
    do not wrap, for a non-degenerate extent whose end does not wrap,
    [AddExtent] returns and covers the old blocks and those of the extent,
    and [SubtractExtent] covers the old blocks less those of the extent. *)
Theorem AddExtent_SubtractExtent_coverage (r : ExtentRanges) (e : Extent) :
  data_invariant r -> Forall in_range (extent_set_ r) ->
  in_range e -> nondegenerate e ->
  (exists r',
     AddExtent r e = Ok r'
     /\ forall x, covered (extent_set_ r') x
                  <-> covered (extent_set_ r) x \/ covers e x)
  /\ (forall x, covered (extent_set_ (SubtractExtent r e)) x
                <-> covered (extent_set_ r) x /\ ~ covers e x).
Proof.
  intros Hd Hi He Hn.
  pose proof (data_invariant_ranges_ok r Hd Hi) as Hr.
  assert (Hs : stored_ok e).
  { unfold in_range, u64_extent, u64, nondegenerate, stored_ok in *. lia. }
  split.
  - destruct (AddExtent_covers r e Hr Hs) as [r' [E [_ [_ Hc]]]].
    exists r'. split; assumption.
  - apply (SubtractExtent_ok r e Hr Hs).
Qed.

Lemma AddExtent_SubtractExtent_coverage_witness :
  covered (extent_set_ (SubtractExtent (mkRanges [mkExtent 5 3] 3 true)
                                       (mkExtent 6 1))) 7
  <-> covered [mkExtent 5 3] 7 /\ ~ covers (mkExtent 6 1) 7.
Proof.
  apply (proj2 (AddExtent_SubtractExtent_coverage
                  (mkRanges [mkExtent 5 3] 3 true) (mkExtent 6 1)
                  ltac:(constructor; simpl;
                        [repeat constructor; unfold kSparseHole, two64;
                         simpl; lia
                        |repeat constructor
                        |reflexivity])
                  ltac:(repeat constructor; unfold two64; simpl; lia)
                  ltac:(repeat constructor; unfold two64; simpl; lia)
                  ltac:(unfold nondegenerate, kSparseHole, two64; simpl; lia))).
Defined.

(** C7, as stated, fails: after adding {10,100} and an extent that starts at
    20 and wraps, block 50 lies in the first entry and [ContainsBlock] says
    no. *)
Lemma ContainsBlock_claim_fails :
  exists r,
    reachable u64_extent r
    /\ ContainsBlock r 50 = Ok false
    /\ In (mkExtent 10 100) (extent_set_ r)
    /\ covers (mkExtent 10 100) 50.
Proof.
  exists (mkRanges [mkExtent 10 100; mkExtent 20 (two64 - 15)] 85 false).
  split; [|split; [|split]].
  - eapply reach_AddExtent.
    + eapply reach_AddExtent; [apply (reach_empty _ false)| |].
      * instantiate (1 := mkExtent 10 100).
        unfold u64_extent, u64, two64; simpl. lia.
      * vm_compute. reflexivity.
    + instantiate (1 := mkExtent 20 (two64 - 15)).
      unfold u64_extent, u64, two64; simpl. lia.
    + vm_compute. reflexivity.
  - vm_compute. reflexivity.
  - left. reflexivity.
  - unfold covers; simpl. lia.
Qed.

(** For the sentinel itself the upper bound is searched at the wrapped key
    0, and the loop runs past [end()]. *)
Example ContainsBlock_sentinel_undefined :
  ContainsBlock (mkRanges [mkExtent 10 5; mkExtent 20 5] 10 false) kSparseHole
  = Undefined.
Proof. vm_compute. reflexivity. Qed.

(** C7 (amended): on every set reachable by the mutators called with
    extents that are sparse holes or whose end does not wrap, and for every
    block other than the sentinel, [ContainsBlock] returns, and returns true
    exactly when the block lies in a stored entry. *)
Theorem ContainsBlock_correct (r : ExtentRanges) (x : Z) :
  reachable fits r -> 0 <= x < kSparseHole ->
  exists b,
    ContainsBlock r x = Ok b
    /\ (b = true <-> exists e, In e (extent_set_ r)
                               /\ start_block e <= x
                                  < start_block e + num_blocks e).
Proof.
  intros Hr Hx.
  pose proof (reachable_ranges_ok r Hr) as [Hw _].
  apply ContainsBlock_ok; [|exact Hx].
  eapply well_formed_relax; [apply gap_nonneg|exact Hw].
Qed.

Lemma ContainsBlock_correct_witness :
  exists b, ContainsBlock (mkRanges [mkExtent 5 3] 3 true) 6 = Ok b
            /\ (b = true <-> exists e, In e [mkExtent 5 3]
                                       /\ start_block e <= 6
                                          < start_block e + num_blocks e).
Proof.
  apply (ContainsBlock_correct (mkRanges [mkExtent 5 3] 3 true) 6).
  - apply (reach_AddExtent fits (empty_ranges true) (mkExtent 5 3)).
    + apply reach_empty.
    + unfold fits, u64_extent, u64, two64; simpl. lia.
    + vm_compute. reflexivity.
  - unfold kSparseHole, two64. lia.
Defined.

(* ------------------------------------------------------------------ *)
(** ** Adding twice *)

(** C10, as stated, fails: adding an extent whose end wraps a second time
    counts its blocks again. *)
Lemma AddExtent_idempotent_claim_fails :
  let e := mkExtent (two64 - 2) 5 in
  reachable u64_extent (empty_ranges false) /\ u64_extent e
  /\ AddExtent (empty_ranges false) e = Ok (mkRanges [e] 5 false)
  /\ AddExtent (mkRanges [e] 5 false) e = Ok (mkRanges [e] 10 false).
Proof.
  cbv zeta. split; [apply reach_empty|]. split.
  - unfold u64_extent, u64, two64; simpl. lia.
  - split; vm_compute; reflexivity.
Qed.

Lemma AddExtent_twice (r : ExtentRanges) (e : Extent) :
  ranges_ok r -> fits e ->
  exists r1, AddExtent r e = Ok r1 /\ AddExtent r1 e = Ok r1.
Proof.
  intros Hr He. destruct (fits_cases e He) as [D|S].
  - exists r. unfold AddExtent. rewrite D. split; reflexivity.
  - destruct (AddExtent_ok r e Hr S)
      as [l [m [rr [Es [Hl [Hm [Hrr [E Hw']]]]]]]].
    eexists. split; [exact E|].
    set (g := gap (merge_touching_extents_ r)) in *.
    set (u := hull e m) in *.
    pose proof (gap_nonneg (merge_touching_extents_ r)) as Hg0. fold g in Hg0.
    destruct (hull_contains m e) as [C1 C2]. fold u in C1, C2.
    assert (Hu : stored_ok u).
    { destruct Hw' as [Hf _]. apply Forall_app in Hf. destruct Hf as [_ Hf].
      inversion Hf; subst. assumption. }
    change (l ++ u :: rr) with (l ++ [u] ++ rr) in *.
    rewrite (AddExtent_classified (merge_touching_extents_ r) l [u] rr _ e S Hw' Hl).
    + rewrite (hull_idem e u C1 C2). f_equal. f_equal.
      pose proof (well_formed_total _ _ Hg0 Hw') as Ht.
      pose proof Hw' as Hwx.
      apply well_formed_app_inv in Hwx. destruct Hwx as [Hwl [Hwx _]].
      apply well_formed_app_inv in Hwx. destruct Hwx as [_ [Hwr _]].
      pose proof (well_formed_total _ _ Hg0 Hwl) as Htl.
      pose proof (well_formed_total _ _ Hg0 Hwr) as Htr.
      rewrite !total_blocks_app in *. simpl total_blocks in *.
      unfold stored_ok, two64 in *.
      rewrite (wrap64_small (num_blocks u + 0)) by lia.
      rewrite (wrap64_small (_ - _)) by lia.
      rewrite wrap64_small by lia. lia.
    + constructor; [|constructor]. unfold apart, sep, stored_ok in *. lia.
    + exact Hrr.
Qed.

(** C10 (amended): on every set reachable by the mutators called with
    extents that are sparse holes or whose end does not wrap, adding such an
    extent twice gives the same entries and block count as adding it
    once. *)
Theorem AddExtent_idempotent (r : ExtentRanges) (e : Extent) :
  reachable fits r -> fits e ->
  exists r1,
    AddExtent r e = Ok r1
    /\ (r' <- AddExtent r e ;; AddExtent r' e) = Ok r1.
Proof.
  intros Hr He.
  destruct (AddExtent_twice r e (reachable_ranges_ok r Hr) He) as [r1 [E1 E2]].
  exists r1. split; [exact E1|]. rewrite E1. simpl. exact E2.
Qed.

Lemma AddExtent_idempotent_witness :
  exists r1,
    AddExtent (empty_ranges true) (mkExtent 5 3) = Ok r1
    /\ (r' <- AddExtent (empty_ranges true) (mkExtent 5 3) ;;
        AddExtent r' (mkExtent 5 3)) = Ok r1.
Proof.
  apply (AddExtent_idempotent (empty_ranges true) (mkExtent 5 3)).
  - apply reach_empty.
  - unfold fits, u64_extent, u64, two64; simpl. lia.
Defined.

(* ------------------------------------------------------------------ *)
(** ** Touching extents and the merge mode *)

Lemma well_formed_one (g : Z) (a : Extent) : stored_ok a -> well_formed g [a].
Proof.
  intros Ha. apply well_formed_cons; [exact Ha|constructor|apply well_formed_nil].
Qed.

Lemma AddExtent_first (merge : bool) (a : Extent) :
  stored_ok a ->
  AddExtent (empty_ranges merge) a = Ok (mkRanges [a] (num_blocks a) merge).
Proof.
  intros Ha. etransitivity.
  - apply (AddExtent_classified merge [] [] [] 0 a Ha (well_formed_nil _));
      constructor.
  - simpl. f_equal. f_equal. unfold stored_ok in Ha. lia64.
Qed.

Lemma AddExtent_second_merged (a e : Extent) :
  stored_ok a -> stored_ok e -> ~ apart 1 a e ->
  AddExtent (mkRanges [a] (num_blocks a) true) e
  = Ok (mkRanges [hull2 e a] (num_blocks (hull2 e a)) true).
Proof.
  intros Ha He Hn. etransitivity.
  - apply (AddExtent_classified true [] [a] [] (num_blocks a) e He
             (well_formed_one _ a Ha)).
    + constructor.
    + constructor; [exact Hn|constructor].
    + constructor.
  - simpl. f_equal. f_equal.
    unfold stored_ok, apart, sep in *. lia64.
Qed.

Lemma AddExtent_second_after (a e : Extent) :
  stored_ok a -> stored_ok e -> sep 0 a e ->
  AddExtent (mkRanges [a] (num_blocks a) false) e
  = Ok (mkRanges [a; e] (num_blocks a + num_blocks e) false).
Proof.
  intros Ha He Hs. etransitivity.
  - apply (AddExtent_classified false [a] [] [] (num_blocks a) e He
             (well_formed_one _ a Ha)).
    + constructor; [exact Hs|constructor].
    + constructor.
    + constructor.
  - simpl. f_equal. f_equal. unfold stored_ok, sep in *. lia64.
Qed.

Lemma AddExtent_second_before (a e : Extent) :
  stored_ok a -> stored_ok e -> sep 0 e a ->
  AddExtent (mkRanges [a] (num_blocks a) false) e
  = Ok (mkRanges [e; a] (num_blocks e + num_blocks a) false).
Proof.
  intros Ha He Hs. etransitivity.
  - apply (AddExtent_classified false [] [] [a] (num_blocks a) e He
             (well_formed_one _ a Ha)).
    + constructor.
    + constructor.
    + constructor; [exact Hs|constructor].
  - simpl. f_equal. f_equal. unfold stored_ok, sep in *. lia64.
Qed.

(** C8, read for all touching extents, fails.  In merge mode, adding {5,3}
    and then {8, 2^64 - 8}, whose end wraps to 0, finds no candidate to
    merge with and leaves the two touching entries {5,3} and {8, 2^64 - 8}.
    Without merge mode, adding the empty extent {5,0} and then {5,2} leaves
    one entry, not two. *)
Lemma touching_extents_claim_fails :
  (exists a b,
     u64_extent a /\ u64_extent b /\ 0 < num_blocks a /\ 0 < num_blocks b
     /\ start_block a + num_blocks a = start_block b
     /\ (r <- AddExtent (empty_ranges true) a ;; AddExtent r b)
        = Ok (mkRanges [a; b] (num_blocks a + num_blocks b) true))
  /\ (exists a b,
        u64_extent a /\ u64_extent b
        /\ start_block a + num_blocks a = start_block b
        /\ (r <- AddExtent (empty_ranges false) a ;; AddExtent r b)
           = Ok (mkRanges [b] (num_blocks b) false)).
Proof.
  split.
  - exists (mkExtent 5 3), (mkExtent 8 (two64 - 8)).
    unfold u64_extent, u64, two64; simpl.
    repeat split; try lia.
  - exists (mkExtent 5 0), (mkExtent 5 2).
    unfold u64_extent, u64, two64; simpl.
    repeat split; try lia.
Qed.

(** C8 (amended): for every two non-empty extents of which the first ends
    where the second starts, the second ending at or below 2^64 - 1, adding
    both to an empty set, in either order, gives in merge mode the single
    entry that starts with the first and has the blocks of both, and without
    merge mode the two extents as separate entries; the block count is the
    sum of the two lengths in both modes.  With {5,3} and {8,2} this is the
    entry {5,5} in merge mode, the entries {5,3} and {8,2} otherwise, and a
    block count of 5. *)
Theorem touching_extents_coalesced (a b : Extent) :
  u64_extent a -> u64_extent b -> 0 < num_blocks a -> 0 < num_blocks b ->
  start_block a + num_blocks a = start_block b ->
  start_block b + num_blocks b < two64 ->
  (r <- AddExtent (empty_ranges true) a ;; AddExtent r b)
  = Ok (mkRanges [mkExtent (start_block a) (num_blocks a + num_blocks b)]
          (num_blocks a + num_blocks b) true)
  /\ (r <- AddExtent (empty_ranges true) b ;; AddExtent r a)
     = Ok (mkRanges [mkExtent (start_block a) (num_blocks a + num_blocks b)]
             (num_blocks a + num_blocks b) true)
  /\ (r <- AddExtent (empty_ranges false) a ;; AddExtent r b)
     = Ok (mkRanges [a; b] (num_blocks a + num_blocks b) false)
  /\ (r <- AddExtent (empty_ranges false) b ;; AddExtent r a)
     = Ok (mkRanges [a; b] (num_blocks a + num_blocks b) false).
Proof.
  intros [Ua _] [Ub _] Na Nb Ht Hb. unfold u64 in *.
  assert (Sa : stored_ok a) by (unfold stored_ok; lia).
  assert (Sb : stored_ok b) by (unfold stored_ok; lia).
  assert (Hab : hull2 b a
                = mkExtent (start_block a) (num_blocks a + num_blocks b)).
  { unfold hull2. f_equal; lia. }
  assert (Hba : hull2 a b
                = mkExtent (start_block a) (num_blocks a + num_blocks b)).
  { unfold hull2. f_equal; lia. }
  rewrite !AddExtent_first by assumption. cbn [bind].
  split; [|split; [|split]].
  - rewrite AddExtent_second_merged; [rewrite Hab; reflexivity| | |];
      try assumption. unfold apart, sep. lia.
  - rewrite AddExtent_second_merged; [rewrite Hba; reflexivity| | |];
      try assumption. unfold apart, sep. lia.
  - apply AddExtent_second_after; try assumption. unfold sep. lia.
  - apply AddExtent_second_before; try assumption. unfold sep. lia.
Qed.

Lemma touching_extents_coalesced_witness :
  (r <- AddExtent (empty_ranges true) (mkExtent 5 3) ;;
   AddExtent r (mkExtent 8 2))
  = Ok (mkRanges [mkExtent 5 5] 5 true)
  /\ (r <- AddExtent (empty_ranges false) (mkExtent 5 3) ;;
      AddExtent r (mkExtent 8 2))
     = Ok (mkRanges [mkExtent 5 3; mkExtent 8 2] 5 false).
Proof.
  destruct (touching_extents_coalesced (mkExtent 5 3) (mkExtent 8 2))
    as [H1 [_ [H3 _]]];
    try (unfold u64_extent, u64, two64; simpl; lia).
  split; [exact H1|exact H3].
Defined.

(* ------------------------------------------------------------------ *)
(** ** Further properties of the relations between two extents *)

(** X1: [ExtentsOverlapOrTouch] does not depend on the order of its
    arguments, and neither does [ExtentsOverlap] unless the two extents
    start at the same block. *)
Theorem overlap_predicates_symmetric (a b : Extent) :
  ExtentsOverlapOrTouch a b = ExtentsOverlapOrTouch b a
  /\ (start_block a <> start_block b ->
      ExtentsOverlap a b = ExtentsOverlap b a)
  /\ (start_block a = start_block b ->
      ExtentsOverlap a b = negb (num_blocks a =? 0)
      /\ ExtentsOverlap b a = negb (num_blocks b =? 0)).
Proof.
  split; [|split].
  - unfold ExtentsOverlapOrTouch.
    split_cmps; unbool; try reflexivity; exfalso; lia.
  - intros N. unfold ExtentsOverlap.
    split_cmps; unbool; try reflexivity; exfalso; lia.
  - intros E. unfold ExtentsOverlap. rewrite E, Z.eqb_refl. split; reflexivity.
Qed.

Lemma overlap_predicates_symmetric_witness :
  ExtentsOverlap (mkExtent 10 20) (mkExtent 25 10)
  = ExtentsOverlap (mkExtent 25 10) (mkExtent 10 20).
Proof.
  apply (proj1 (proj2 (overlap_predicates_symmetric (mkExtent 10 20)
                                                    (mkExtent 25 10)))).
  simpl. lia.
Defined.

(** X2: whatever the arguments, two extents that overlap also overlap or
    touch. *)
Theorem ExtentsOverlap_implies_OrTouch (a b : Extent) :
  ExtentsOverlap a b = true -> ExtentsOverlapOrTouch a b = true.
Proof.
  unfold ExtentsOverlap, ExtentsOverlapOrTouch.
  split_cmps; intros; unbool; try reflexivity; try discriminate; exfalso; lia.
Qed.

Lemma ExtentsOverlap_implies_OrTouch_witness :
  ExtentsOverlapOrTouch (mkExtent 10 20) (mkExtent 25 10) = true.
Proof.
  apply (ExtentsOverlap_implies_OrTouch (mkExtent 10 20) (mkExtent 25 10)).
  reflexivity.
Defined.

(** X3: [UnionOverlappingExtents] aborts exactly when one of the starts is
    the sentinel and does not depend on the order of its arguments; on two
    stored extents that overlap or touch it returns the extent whose blocks
    are those of the one or the other. *)
Theorem UnionOverlappingExtents_correct (a b : Extent) :
  UnionOverlappingExtents a b = UnionOverlappingExtents b a
  /\ (UnionOverlappingExtents a b = Fatal
      <-> start_block a = kSparseHole \/ start_block b = kSparseHole)
  /\ (stored_ok a -> stored_ok b -> ~ apart 1 a b ->
      exists u, UnionOverlappingExtents a b = Ok u
                /\ stored_ok u
                /\ forall x, covers u x <-> covers a x \/ covers b x).
Proof.
  split; [|split].
  - unfold UnionOverlappingExtents.
    rewrite (Z.min_comm (start_block b)), (Z.max_comm (end_block b)).
    destruct (start_block a =? kSparseHole);
      destruct (start_block b =? kSparseHole); reflexivity.
  - unfold UnionOverlappingExtents.
    destruct (Z.eqb_spec (start_block a) kSparseHole);
      destruct (Z.eqb_spec (start_block b) kSparseHole);
      split; intros H; try tauto; try discriminate.
  - intros Ha Hb Hn. exists (hull2 a b). split; [|split].
    + apply UnionOverlappingExtents_stored; assumption.
    + apply hull2_stored; assumption.
    + intros x. apply (hull2_covers 1); try assumption; [lia|].
      unfold apart in *. tauto.
Qed.

Lemma UnionOverlappingExtents_correct_witness :
  exists u, UnionOverlappingExtents (mkExtent 5 3) (mkExtent 8 2) = Ok u
            /\ stored_ok u
            /\ forall x, covers u x
                         <-> covers (mkExtent 5 3) x \/ covers (mkExtent 8 2) x.
Proof.
  apply (proj2 (proj2 (UnionOverlappingExtents_correct (mkExtent 5 3)
                                                       (mkExtent 8 2)))).
  - unfold stored_ok, two64; simpl. lia.
  - unfold stored_ok, two64; simpl. lia.
  - unfold apart, sep; simpl. lia.
Defined.

(** X4: on two stored extents that overlap or touch,
    [SubtractOverlappingExtents] returns at most two stored extents, in
    order, whose blocks are exactly those of the base outside the
    subtractee. *)
Theorem SubtractOverlappingExtents_correct (base subtractee : Extent) :
  stored_ok base -> stored_ok subtractee -> ~ apart 1 base subtractee ->
  (length (SubtractOverlappingExtents base subtractee) <= 2)%nat
  /\ well_formed 1 (SubtractOverlappingExtents base subtractee)
  /\ forall x, covered (SubtractOverlappingExtents base subtractee) x
               <-> covers base x /\ ~ covers subtractee x.
Proof.
  intros Hx He Ha.
  assert (E : SubtractOverlappingExtents base subtractee = pieces subtractee base).
  { unfold SubtractOverlappingExtents, pieces.
    rewrite (end_block_stored base Hx), (end_block_stored subtractee He).
    unfold apart, sep, stored_ok, ExtentForRange in *.
    rewrite !Z.gtb_ltb.
    destruct (start_block base <? start_block subtractee) eqn:E1;
      destruct (start_block subtractee + num_blocks subtractee
                <? start_block base + num_blocks base) eqn:E2;
      unbool; simpl; try reflexivity;
      repeat rewrite wrap64_small by (unfold two64 in *; lia); try reflexivity.
    unfold ExtentLess; simpl.
    destruct (Z.eqb_spec (start_block subtractee + num_blocks subtractee)
                         (start_block base)); [lia|].
    destruct (Z.ltb_spec (start_block subtractee + num_blocks subtractee)
                         (start_block base)); [lia|].
    destruct (Z.eqb_spec (start_block base)
                         (start_block subtractee + num_blocks subtractee)); [lia|].
    destruct (Z.ltb_spec (start_block base)
                         (start_block subtractee + num_blocks subtractee)); [|lia].
    reflexivity. }
  rewrite E. clear E. unfold pieces, covered, covers, well_formed.
  unfold apart, sep, stored_ok in *.
  destruct (start_block base <? start_block subtractee) eqn:E1;
    destruct (start_block subtractee + num_blocks subtractee
              <? start_block base + num_blocks base) eqn:E2;
    unbool; simpl.
  all: split; [lia|]. all: split.
  all: try (split; repeat constructor; simpl; lia).
  all: intros x; split.
  all: try (intros [p [[<-|[<-|[]]] Hp]]; simpl in Hp; lia).
  all: try (intros [p [[<-|[]] Hp]]; simpl in Hp; lia).
  all: try (intros [p [[] _]]).
  all: intros [H1 H2].
  - destruct (Z_lt_le_dec x (start_block subtractee)).
    + eexists; split; [left; reflexivity|simpl; lia].
    + eexists; split; [right; left; reflexivity|simpl; lia].
  - eexists; split; [left; reflexivity|simpl; lia].
  - eexists; split; [left; reflexivity|simpl; lia].
  - exfalso. lia.
Qed.

Lemma SubtractOverlappingExtents_correct_witness :
  (length (SubtractOverlappingExtents (mkExtent 5 3) (mkExtent 6 1)) <= 2)%nat
  /\ well_formed 1 (SubtractOverlappingExtents (mkExtent 5 3) (mkExtent 6 1)).
Proof.
  destruct (SubtractOverlappingExtents_correct (mkExtent 5 3) (mkExtent 6 1))
    as [H1 [H2 _]].
  - unfold stored_ok, two64; simpl. lia.
  - unfold stored_ok, two64; simpl. lia.
  - unfold apart, sep; simpl. lia.
  - split; assumption.
Defined.

(* ------------------------------------------------------------------ *)
(** ** ExtentForBytes *)

(** X5: a zero block size divides by zero.  For a non-zero block size and a
    byte range with [start_bytes + size_bytes <= 2^64 - 1], [ExtentForBytes]
    returns an extent that ends at or below 2^64 - 1, starts at the block
    that holds byte [start_bytes], and ends at the first block boundary at
    or after byte [start_bytes + size_bytes].  When [size_bytes] is not
    zero it is the smallest run of blocks that holds every byte of the
    range: it lies inside every such run. *)
Theorem ExtentForBytes_covers (block_size start_bytes size_bytes : Z) :
  u64 block_size -> u64 start_bytes -> u64 size_bytes ->
  start_bytes + size_bytes < two64 ->
  (block_size = 0 ->
   ExtentForBytes block_size start_bytes size_bytes = Undefined)
  /\ (block_size <> 0 ->
      exists e,
        ExtentForBytes block_size start_bytes size_bytes = Ok e
        /\ in_range e
        /\ start_block e * block_size <= start_bytes
           < (start_block e + 1) * block_size
        /\ start_bytes + size_bytes
           <= (start_block e + num_blocks e) * block_size
           < start_bytes + size_bytes + block_size
        /\ (0 < size_bytes ->
            forall s n,
              s * block_size <= start_bytes ->
              start_bytes + size_bytes <= (s + n) * block_size ->
              sub_range e (mkExtent s n))).
Proof.
  intros Ub Us Uz Hno. unfold u64 in *. split.
  - intros ->. reflexivity.
  - intros Hb. unfold ExtentForBytes, DivRoundUp, ExtentForRange.
    destruct (Z.eqb_spec block_size 0) as [E|_]; [contradiction|].
    rewrite (wrap64_small (start_bytes + size_bytes))
      by (unfold two64 in *; lia).
    set (q := start_bytes / block_size).
    set (c := (start_bytes + size_bytes + block_size - 1) / block_size).
    assert (Hq : block_size * q <= start_bytes < block_size * q + block_size).
    { subst q. pose proof (Z.mul_div_le start_bytes block_size ltac:(lia)).
      pose proof (Z.mul_succ_div_gt start_bytes block_size ltac:(lia)). lia. }
    assert (Hc : block_size * c <= start_bytes + size_bytes + block_size - 1
                 < block_size * c + block_size).
    { subst c.
      pose proof (Z.mul_div_le (start_bytes + size_bytes + block_size - 1)
                               block_size ltac:(lia)).
      pose proof (Z.mul_succ_div_gt (start_bytes + size_bytes + block_size - 1)
                                    block_size ltac:(lia)). lia. }
    assert (Hqc : 0 <= q <= c /\ c < two64).
    { split; [split|]; unfold two64 in *; nia. }
    eexists. split; [reflexivity|]. simpl.
    rewrite (wrap64_small (c - q)) by (unfold two64 in *; lia).
    unfold in_range, u64_extent, u64, sub_range; simpl.
    split; [|split; [|split]].
    + unfold two64 in *. lia.
    + nia.
    + nia.
    + intros Hz s n Hs Hn. split; nia.
Qed.

Lemma ExtentForBytes_covers_witness :
  exists e, ExtentForBytes 4096 5000 4000 = Ok e /\ in_range e.
Proof.
  destruct (ExtentForBytes_covers 4096 5000 4000) as [_ H];
    try (unfold u64, two64; lia).
  destruct H as [e [E [R _]]]; [lia|]. exists e. split; assumption.
Defined.

(* ------------------------------------------------------------------ *)
(** ** The candidate range and the queries built on it *)

(** X6: let the entries of the set be non-empty and end at or below
    2^64 - 1, in ascending order, each ending at or before the start of the
    next (strictly before it in merge mode), and let the extent be non-empty
    and end at or below 2^64 - 1.  Then [GetCandidateRange] returns
    positions [lo <= hi] inside the set, and every entry that passes the
    merge test of [AddExtent] against the extent ([ExtentsOverlapOrTouch]
    in merge mode, [ExtentsOverlap] otherwise) lies in [lo, hi). *)
Theorem GetCandidateRange_sound (merge : bool) (s : ExtentSet) (e : Extent) :
  well_formed (gap merge) s -> stored_ok e ->
  (fst (GetCandidateRange s e) <= snd (GetCandidateRange s e) <= length s)%nat
  /\ forall i x, nth_error s i = Some x -> should_merge merge x e = true ->
       (fst (GetCandidateRange s e) <= i < snd (GetCandidateRange s e))%nat.
Proof.
  intros Hw He.
  destruct (classify _ e s (gap_nonneg merge) He Hw)
    as [l [m [r [Es [Hl [Hm Hr]]]]]].
  subst s.
  destruct (GetCandidateRange_brackets merge e l m r He Hw Hl Hm Hr)
    as [Hlo Hhi].
  split; [lia|].
  intros i x Hi Hx.
  pose proof (well_formed_nth_stored _ _ _ _ Hw Hi) as Hsx.
  rewrite Forall_forall in Hl, Hr.
  destruct (nth_error_classes l m r i x Hi) as [[_ C]|[[C _]|[_ C]]].
  - rewrite (should_merge_false merge x e Hsx He) in Hx; [discriminate|].
    left. apply Hl. exact C.
  - lia.
  - rewrite (should_merge_false merge x e Hsx He) in Hx; [discriminate|].
    right. apply Hr. exact C.
Qed.

Lemma GetCandidateRange_sound_witness :
  (fst (GetCandidateRange [mkExtent 0 4; mkExtent 10 4] (mkExtent 3 2))
   <= snd (GetCandidateRange [mkExtent 0 4; mkExtent 10 4] (mkExtent 3 2))
   <= 2)%nat.
Proof.
  apply (proj1 (GetCandidateRange_sound true [mkExtent 0 4; mkExtent 10 4]
                  (mkExtent 3 2)
                  ltac:(split; repeat constructor; unfold sep, two64; simpl; lia)
                  ltac:(unfold stored_ok, two64; simpl; lia))).
Defined.

Lemma overlaps_loop_skip (e : Extent) (p : list Extent) : forall tl it hi,
  Forall (fun x => ExtentsOverlap x e = false) p ->
  (it + length p <= hi)%nat ->
  overlaps_loop (p ++ tl) it hi e = overlaps_loop tl (it + length p) hi e.
Proof.
  induction p as [|x p IH]; intros tl it hi Hp Hi; simpl in *.
  - rewrite Nat.add_0_r. reflexivity.
  - inversion Hp as [|? ? Hx Hp']; subst.
    destruct (Nat.eqb_spec it hi) as [E|_]; [lia|].
    rewrite Hx. rewrite IH by (try assumption; lia). f_equal. lia.
Qed.

Lemma overlaps_loop_tail (e : Extent) (tl : list Extent) : forall it hi,
  Forall (fun x => ExtentsOverlap x e = false) tl ->
  (it <= hi <= it + length tl)%nat ->
  overlaps_loop tl it hi e = Ok false.
Proof.
  induction tl as [|x tl IH]; intros it hi Hp Hi; simpl in *.
  - replace hi with it by lia. rewrite Nat.eqb_refl. reflexivity.
  - destruct (Nat.eqb_spec it hi) as [E|N]; [reflexivity|].
    inversion Hp as [|? ? Hx Hp']; subst. rewrite Hx.
    apply IH; [assumption|lia].
Qed.

Lemma overlap_false_of_sep (x e : Extent) :
  stored_ok x -> stored_ok e -> apart 0 x e -> ExtentsOverlap x e = false.
Proof.
  intros Hx He Ha. rewrite (ExtentsOverlap_stored x e Hx He).
  unfold apart, sep in Ha. apply negb_false_iff, orb_true_iff.
  destruct Ha; [left|right]; apply Z.leb_le; lia.
Qed.

Lemma overlap_true_of_not_apart (x e : Extent) :
  stored_ok x -> stored_ok e -> ~ apart 0 x e -> ExtentsOverlap x e = true.
Proof.
  intros Hx He Ha. rewrite (ExtentsOverlap_stored x e Hx He).
  unfold apart, sep in Ha. apply negb_true_iff, orb_false_iff.
  split; apply Z.leb_gt; lia.
Qed.

(** The entries that share a block with a stored extent are those of the
    middle class. *)
Lemma shares_block_iff_middle (e : Extent) (l m r : list Extent) :
  stored_ok e -> Forall stored_ok (l ++ m ++ r) ->
  Forall (fun x => sep 0 x e) l ->
  Forall (fun x => ~ apart 0 x e) m ->
  Forall (fun x => sep 0 e x) r ->
  ((exists b, covered (l ++ m ++ r) b /\ covers e b) <-> m <> []).
Proof.
  intros He Hf Hl Hm Hr. split.
  - intros [b [[y [Hin Hy]] Hb]] ->. simpl in Hin.
    rewrite Forall_forall in Hl, Hr.
    apply in_app_or in Hin. destruct Hin as [Hin|Hin].
    + pose proof (Hl y Hin). unfold sep, covers in *. lia.
    + pose proof (Hr y Hin). unfold sep, covers in *. lia.
  - intros N. destruct m as [|x m]; [contradiction|].
    inversion Hm as [|? ? Hx _]; subst.
    apply Forall_app in Hf. destruct Hf as [_ Hf].
    apply Forall_app in Hf. destruct Hf as [Hf _].
    inversion Hf as [|? ? Hsx _]; subst.
    exists (Z.max (start_block x) (start_block e)). split.
    + exists x. split; [apply in_or_app; right; left; reflexivity|].
      unfold apart, sep, stored_ok, covers in *. lia.
    + unfold apart, sep, stored_ok, covers in *. lia.
Qed.

(** X7: let the entries of the set be non-empty and end at or below
    2^64 - 1, in ascending order and pairwise disjoint, and let the extent
    be non-empty and end at or below 2^64 - 1.  Then [OverlapsWithExtent]
    returns, and returns true exactly when some block of the extent lies in
    an entry. *)
Theorem OverlapsWithExtent_correct (r : ExtentRanges) (e : Extent) :
  well_formed 0 (extent_set_ r) -> stored_ok e ->
  exists b,
    OverlapsWithExtent r e = Ok b
    /\ (b = true <-> exists x, covered (extent_set_ r) x /\ covers e x).
Proof.
  intros Hw He. unfold OverlapsWithExtent.
  destruct (classify 0 e (extent_set_ r) ltac:(lia) He Hw)
    as [l [m [rr [Es [Hl [Hm Hr]]]]]].
  rewrite Es in *.
  destruct (GetCandidateRange_brackets false e l m rr He Hw Hl Hm Hr)
    as [Hlo Hhi].
  destruct (GetCandidateRange (l ++ m ++ rr) e) as [lo hi]. simpl in Hlo, Hhi.
  pose proof Hw as [Hf _].
  pose proof (shares_block_iff_middle e l m rr He Hf Hl Hm Hr) as Hiff.
  apply Forall_app in Hf. destruct Hf as [Hfl Hf].
  apply Forall_app in Hf. destruct Hf as [Hfm Hfr].
  rewrite skipn_app. replace (lo - length l)%nat with 0%nat by lia.
  simpl skipn.
  rewrite overlaps_loop_skip; rewrite ?length_skipn.
  2:{ apply Forall_skipn_of.
      eapply Forall_impl; [|exact (Forall_and Hfl Hl)]. simpl.
      intros x [H1 H2]. apply overlap_false_of_sep; try assumption.
      left. exact H2. }
  2:{ lia. }
  replace (lo + (length l - lo))%nat with (length l) by lia.
  rewrite length_app, length_app in Hhi.
  destruct m as [|x m].
  - exists false. split.
    + simpl. simpl in Hhi. apply overlaps_loop_tail; [|lia].
      eapply Forall_impl; [|exact (Forall_and Hfr Hr)]. simpl.
      intros x [H1 H2]. apply overlap_false_of_sep; try assumption.
      right. exact H2.
    + rewrite Hiff. split; [discriminate|]. intros N. contradiction.
  - exists true. split.
    + simpl. simpl in Hhi.
      destruct (Nat.eqb_spec (length l) hi) as [E|_]; [lia|].
      inversion Hm; subst. inversion Hfm; subst.
      rewrite overlap_true_of_not_apart by assumption. reflexivity.
    + rewrite Hiff. split; [discriminate|reflexivity].
Qed.

Lemma OverlapsWithExtent_correct_witness :
  exists b,
    OverlapsWithExtent (mkRanges [mkExtent 0 4; mkExtent 10 4] 8 true)
                       (mkExtent 3 2) = Ok b
    /\ (b = true <-> exists x, covered [mkExtent 0 4; mkExtent 10 4] x
                               /\ covers (mkExtent 3 2) x).
Proof.
  apply (OverlapsWithExtent_correct
           (mkRanges [mkExtent 0 4; mkExtent 10 4] 8 true) (mkExtent 3 2)).
  - split; repeat constructor; unfold sep, two64; simpl; lia.
  - unfold stored_ok, two64; simpl. lia.
Defined.

Lemma GetOverlapExtent_apart (x e : Extent) :
  stored_ok x -> stored_ok e -> apart 0 x e ->
  GetOverlapExtent x e = empty_extent.
Proof.
  intros Hx He Ha. unfold GetOverlapExtent.
  rewrite (overlap_false_of_sep x e Hx He Ha). reflexivity.
Qed.

Lemma GetOverlapExtent_middle (x e : Extent) :
  stored_ok x -> stored_ok e -> ~ apart 0 x e ->
  GetOverlapExtent x e = isect e x /\ 0 < num_blocks (isect e x).
Proof.
  intros Hx He Ha. unfold GetOverlapExtent.
  rewrite (overlap_true_of_not_apart x e Hx He Ha). simpl negb. cbv iota.
  rewrite (end_block_stored x Hx), (end_block_stored e He).
  unfold isect, ExtentForRange, apart, sep, stored_ok in *. simpl.
  rewrite wrap64_small by (unfold two64 in *; lia). split; [reflexivity|lia].
Qed.

Lemma intersecting_loop_skip (e : Extent) (p : list Extent) :
  forall tl it hi res,
    Forall (fun x => stored_ok x /\ apart 0 x e) p -> stored_ok e ->
    (it + length p <= hi)%nat ->
    intersecting_loop (p ++ tl) it hi e res
    = intersecting_loop tl (it + length p) hi e res.
Proof.
  induction p as [|x p IH]; intros tl it hi res Hp He Hi; simpl in *.
  - rewrite Nat.add_0_r. reflexivity.
  - inversion Hp as [|? ? [Hx Ha] Hp']; subst.
    destruct (Nat.eqb_spec it hi) as [E|_]; [lia|].
    rewrite (GetOverlapExtent_apart x e Hx He Ha). simpl.
    rewrite IH by (try assumption; lia). f_equal. lia.
Qed.

Lemma intersecting_loop_tail (e : Extent) (tl : list Extent) :
  forall it hi res,
    Forall (fun x => stored_ok x /\ apart 0 x e) tl -> stored_ok e ->
    (it <= hi <= it + length tl)%nat ->
    intersecting_loop tl it hi e res = Ok res.
Proof.
  induction tl as [|x tl IH]; intros it hi res Hp He Hi; simpl in *.
  - replace hi with it by lia. rewrite Nat.eqb_refl. reflexivity.
  - destruct (Nat.eqb_spec it hi) as [E|N]; [reflexivity|].
    inversion Hp as [|? ? [Hx Ha] Hp']; subst.
    rewrite (GetOverlapExtent_apart x e Hx He Ha). simpl.
    apply IH; [assumption|assumption|lia].
Qed.

Lemma intersecting_loop_mid (e : Extent) (m : list Extent) :
  forall tl it hi res,
    Forall (fun x => stored_ok x /\ ~ apart 0 x e) m -> stored_ok e ->
    (it + length m <= hi)%nat ->
    intersecting_loop (m ++ tl) it hi e res
    = intersecting_loop tl (it + length m) hi e (res ++ map (isect e) m).
Proof.
  induction m as [|x m IH]; intros tl it hi res Hp He Hi; simpl in *.
  - rewrite Nat.add_0_r, app_nil_r. reflexivity.
  - inversion Hp as [|? ? [Hx Ha] Hp']; subst.
    destruct (Nat.eqb_spec it hi) as [E|_]; [lia|].
    destruct (GetOverlapExtent_middle x e Hx He Ha) as [Eo Hn].
    rewrite Eo.
    replace (num_blocks (isect e x) =? 0) with false
      by (symmetry; apply Z.eqb_neq; lia).
    simpl negb. cbv iota.
    rewrite IH by (try assumption; lia).
    rewrite <- app_assoc. simpl. f_equal. lia.
Qed.

Lemma isect_facts (e x : Extent) :
  stored_ok x -> stored_ok e -> ~ apart 0 x e ->
  stored_ok (isect e x) /\ sub_range (isect e x) x /\ sub_range (isect e x) e
  /\ num_blocks (isect e x) = shared_blocks e x
  /\ forall b, covers (isect e x) b <-> covers x b /\ covers e b.
Proof.
  unfold isect, apart, sep, stored_ok, sub_range, shared_blocks, covers; simpl.
  intros Hx He Ha. repeat split; lia.
Qed.

Lemma shared_blocks_apart (e x : Extent) :
  stored_ok x -> stored_ok e -> apart 0 x e -> shared_blocks e x = 0.
Proof. unfold apart, sep, stored_ok, shared_blocks. lia. Qed.

(** X8: let the entries of the set be non-empty and end at or below
    2^64 - 1, in ascending order and pairwise disjoint, and let the extent
    be non-empty and end at or below 2^64 - 1.  Then
    [GetIntersectingExtents] returns extents that are non-empty, end at or
    below 2^64 - 1, are in ascending order and pairwise disjoint; their
    blocks are exactly the blocks of the extent that lie in an entry, and
    their lengths sum to the number of blocks the extent shares with the
    entries. *)
Theorem GetIntersectingExtents_correct (r : ExtentRanges) (e : Extent) :
  well_formed 0 (extent_set_ r) -> stored_ok e ->
  exists out,
    GetIntersectingExtents r e = Ok out
    /\ well_formed 0 out
    /\ (forall b, covered out b <-> covered (extent_set_ r) b /\ covers e b)
    /\ total_blocks out = excluded_blocks (extent_set_ r) e.
Proof.
  intros Hw He. unfold GetIntersectingExtents.
  destruct (classify 0 e (extent_set_ r) ltac:(lia) He Hw)
    as [l [m [rr [Es [Hl [Hm Hr]]]]]].
  rewrite Es in *.
  destruct (GetCandidateRange_brackets false e l m rr He Hw Hl Hm Hr)
    as [Hlo Hhi].
  destruct (GetCandidateRange (l ++ m ++ rr) e) as [lo hi]. simpl in Hlo, Hhi.
  rewrite !length_app in Hhi.
  pose proof Hw as [Hf _].
  apply Forall_app in Hf. destruct Hf as [Hfl Hf].
  apply Forall_app in Hf. destruct Hf as [Hfm Hfr].
  assert (Al : Forall (fun x => stored_ok x /\ apart 0 x e) l).
  { eapply Forall_impl; [|exact (Forall_and Hfl Hl)]. simpl.
    intros x [H1 H2]. split; [exact H1|left; exact H2]. }
  assert (Ar : Forall (fun x => stored_ok x /\ apart 0 x e) rr).
  { eapply Forall_impl; [|exact (Forall_and Hfr Hr)]. simpl.
    intros x [H1 H2]. split; [exact H1|right; exact H2]. }
  assert (Am : Forall (fun x => stored_ok x /\ ~ apart 0 x e) m)
    by exact (Forall_and Hfm Hm).
  exists (map (isect e) m). split; [|split; [|split]].
  - rewrite skipn_app. replace (lo - length l)%nat with 0%nat by lia.
    simpl skipn.
    rewrite intersecting_loop_skip; rewrite ?length_skipn;
      [|apply Forall_skipn_of; exact Al|exact He|lia].
    replace (lo + (length l - lo))%nat with (length l) by lia.
    rewrite intersecting_loop_mid by (try assumption; lia).
    apply intersecting_loop_tail; [exact Ar|exact He|lia].
  - apply well_formed_app_inv in Hw. destruct Hw as [_ [Hw _]].
    apply well_formed_app_inv in Hw. destruct Hw as [Hwm _].
    clear - Hwm Hm He. induction m as [|x m IH]; [apply well_formed_nil|].
    apply well_formed_cons_inv in Hwm. destruct Hwm as [Hx [Hsep Hwm]].
    inversion Hm as [|? ? Hax Hm']; subst. simpl.
    destruct (isect_facts e x Hx He Hax) as [Hs [[_ Hsub] _]].
    apply well_formed_cons; [exact Hs| |apply IH; assumption].
    apply Forall_forall. intros y Hy. apply in_map_iff in Hy.
    destruct Hy as [z [<- Hz]]. rewrite Forall_forall in Hsep.
    pose proof (Hsep z Hz) as Hxz. unfold sep, isect in *. simpl. simpl in Hsub.
    lia.
  - intros b. rewrite !covered_app.
    assert (Cm : covered (map (isect e) m) b <-> covered m b /\ covers e b).
    { clear - Am He. induction Am as [|x m [Hx Ha] _ IH]; simpl.
      - unfold covered. split; [intros [z [[] _]]|intros [[z [[] _]] _]].
      - rewrite !covered_cons, IH.
        destruct (isect_facts e x Hx He Ha) as [_ [_ [_ [_ Hc]]]].
        rewrite Hc. tauto. }
    rewrite Cm.
    assert (Cl : covered l b -> ~ covers e b).
    { apply (covered_apart 0); [lia|]. eapply Forall_impl; [|exact Al].
      simpl. tauto. }
    assert (Cr : covered rr b -> ~ covers e b).
    { apply (covered_apart 0); [lia|]. eapply Forall_impl; [|exact Ar].
      simpl. tauto. }
    tauto.
  - rewrite !excluded_blocks_app.
    rewrite (excluded_blocks_zero l).
    2:{ eapply Forall_impl; [|exact Al]. simpl. intros x [H1 H2].
        apply shared_blocks_apart; assumption. }
    rewrite (excluded_blocks_zero rr).
    2:{ eapply Forall_impl; [|exact Ar]. simpl. intros x [H1 H2].
        apply shared_blocks_apart; assumption. }
    clear - Am He. induction Am as [|x m [Hx Ha] _ IH]; [reflexivity|].
    destruct (isect_facts e x Hx He Ha) as [_ [_ [_ [Hn _]]]].
    change (total_blocks (map (isect e) (x :: m)))
      with (num_blocks (isect e x) + total_blocks (map (isect e) m)).
    change (excluded_blocks (x :: m) e)
      with (shared_blocks e x + excluded_blocks m e).
    simpl app in *. rewrite Hn, IH. lia.
Qed.

Lemma GetIntersectingExtents_correct_witness :
  exists out,
    GetIntersectingExtents (mkRanges [mkExtent 0 4; mkExtent 10 4] 8 true)
                           (mkExtent 3 9) = Ok out
    /\ well_formed 0 out.
Proof.
  destruct (GetIntersectingExtents_correct
              (mkRanges [mkExtent 0 4; mkExtent 10 4] 8 true) (mkExtent 3 9))
    as [out [E [W _]]].
  - split; repeat constructor; unfold sep, two64; simpl; lia.
  - unfold stored_ok, two64; simpl. lia.
  - exists out. split; assumption.
Defined.

(* ------------------------------------------------------------------ *)
(** ** Coverage for every argument that fits *)

Lemma blocks_of_stored (e : Extent) (x : Z) :
  stored_ok e -> (blocks_of e x <-> covers e x).
Proof.
  unfold blocks_of, stored_ok, kSparseHole, two64. intros H.
  split; [tauto|]. intros Hc. split; [lia|exact Hc].
Qed.

Lemma blocks_of_degenerate (e : Extent) (x : Z) :
  (start_block e =? kSparseHole) || (num_blocks e =? 0) = true ->
  ~ blocks_of e x.
Proof.
  intros D [N C]. apply orb_true_iff in D. destruct D as [D|D]; unbool.
  - contradiction.
  - unfold covers in C. lia.
Qed.

Lemma AddExtent_fits_covers (r : ExtentRanges) (e : Extent) :
  ranges_ok r -> fits e ->
  exists r',
    AddExtent r e = Ok r' /\ ranges_ok r'
    /\ merge_touching_extents_ r' = merge_touching_extents_ r
    /\ forall x, covered (extent_set_ r') x
                 <-> covered (extent_set_ r) x \/ blocks_of e x.
Proof.
  intros Hr He. destruct (fits_cases e He) as [D|S].
  - exists r. unfold AddExtent. rewrite D.
    split; [reflexivity|]. split; [exact Hr|]. split; [reflexivity|].
    intros x. pose proof (blocks_of_degenerate e x D). tauto.
  - destruct (AddExtent_covers r e Hr S) as [r' [E [Hr' [Hm Hc]]]].
    exists r'. split; [exact E|]. split; [exact Hr'|]. split; [exact Hm|].
    intros x. rewrite (blocks_of_stored e x S). apply Hc.
Qed.

Lemma SubtractExtent_fits_covers (r : ExtentRanges) (e : Extent) :
  ranges_ok r -> fits e ->
  ranges_ok (SubtractExtent r e)
  /\ merge_touching_extents_ (SubtractExtent r e) = merge_touching_extents_ r
  /\ forall x, covered (extent_set_ (SubtractExtent r e)) x
               <-> covered (extent_set_ r) x /\ ~ blocks_of e x.
Proof.
  intros Hr He. destruct (fits_cases e He) as [D|S].
  - unfold SubtractExtent. rewrite D.
    split; [exact Hr|]. split; [reflexivity|].
    intros x. pose proof (blocks_of_degenerate e x D). tauto.
  - destruct (SubtractExtent_ok r e Hr S) as [H1 [H2 H3]].
    split; [exact H1|]. split; [exact H2|].
    intros x. rewrite (blocks_of_stored e x S). apply H3.
Qed.

(* ------------------------------------------------------------------ *)
(** ** The bulk variants *)

Lemma AddExtents_covers (es : list Extent) : forall r,
  ranges_ok r -> Forall fits es ->
  exists r',
    AddExtents r es = Ok r' /\ ranges_ok r'
    /\ merge_touching_extents_ r' = merge_touching_extents_ r
    /\ forall x, covered (extent_set_ r') x
                 <-> covered (extent_set_ r) x \/ blocks_of_any es x.
Proof.
  induction es as [|e es IH]; intros r Hr He; simpl.
  - exists r. split; [reflexivity|]. split; [exact Hr|]. split; [reflexivity|].
    intros x. unfold blocks_of_any. split; [tauto|].
    intros [H|[y [[] _]]]. exact H.
  - inversion He as [|? ? He1 He2]; subst.
    destruct (AddExtent_fits_covers r e Hr He1) as [r1 [E1 [Hr1 [Hm1 Hc1]]]].
    rewrite E1. simpl.
    destruct (IH r1 Hr1 He2) as [r2 [E2 [Hr2 [Hm2 Hc2]]]].
    exists r2. split; [exact E2|]. split; [exact Hr2|].
    split; [congruence|].
    intros x. rewrite Hc2, Hc1. unfold blocks_of_any. split.
    + intros [[H|H]|[y [Hy Hb]]]; [tauto| |].
      * right. exists e. split; [left; reflexivity|exact H].
      * right. exists y. split; [right; exact Hy|exact Hb].
    + intros [H|[y [[<-|Hy] Hb]]]; [tauto|tauto|].
      right. exists y. tauto.
Qed.

Lemma SubtractExtents_covers (es : list Extent) : forall r,
  ranges_ok r -> Forall fits es ->
  ranges_ok (SubtractExtents r es)
  /\ merge_touching_extents_ (SubtractExtents r es) = merge_touching_extents_ r
  /\ forall x, covered (extent_set_ (SubtractExtents r es)) x
               <-> covered (extent_set_ r) x /\ ~ blocks_of_any es x.
Proof.
  unfold SubtractExtents.
  induction es as [|e es IH]; intros r Hr He; simpl.
  - split; [exact Hr|]. split; [reflexivity|].
    intros x. unfold blocks_of_any. split; [|tauto].
    intros H. split; [exact H|]. intros [y [[] _]].
  - inversion He as [|? ? He1 He2]; subst.
    destruct (SubtractExtent_fits_covers r e Hr He1) as [Hr1 [Hm1 Hc1]].
    destruct (IH (SubtractExtent r e) Hr1 He2) as [Hr2 [Hm2 Hc2]].
    split; [exact Hr2|]. split; [congruence|].
    intros x. rewrite Hc2, Hc1. unfold blocks_of_any. split.
    + intros [[H N1] N2]. split; [exact H|].
      intros [y [[<-|Hy] Hb]]; [contradiction|].
      apply N2. exists y. tauto.
    + intros [H N]. split; [split; [exact H|]|].
      * intros Hb. apply N. exists e. split; [left; reflexivity|exact Hb].
      * intros [y [Hy Hb]]. apply N. exists y. split; [right; exact Hy|exact Hb].
Qed.

(** X9: on a set reachable from the empty one by the mutators called with
    extents that are sparse holes or end at or below 2^64 - 1, and for a
    sequence of such extents, [AddExtents] returns a set that covers the old
    blocks and those of the extents of the sequence, and [SubtractExtents]
    leaves the old blocks that are in none of them; sparse holes count for
    nothing. *)
Theorem bulk_extents_coverage (r : ExtentRanges) (es : list Extent) :
  reachable fits r -> Forall fits es ->
  (exists r',
     AddExtents r es = Ok r'
     /\ forall x, covered (extent_set_ r') x
                  <-> covered (extent_set_ r) x \/ blocks_of_any es x)
  /\ (forall x, covered (extent_set_ (SubtractExtents r es)) x
                <-> covered (extent_set_ r) x /\ ~ blocks_of_any es x).
Proof.
  intros Hr He. pose proof (reachable_ranges_ok r Hr) as Ho. split.
  - destruct (AddExtents_covers es r Ho He) as [r' [E [_ [_ Hc]]]].
    exists r'. split; assumption.
  - apply (SubtractExtents_covers es r Ho He).
Qed.

Lemma bulk_extents_coverage_witness :
  exists r',
    AddExtents (mkRanges [mkExtent 5 3] 3 true) [mkExtent 7 3; mkExtent 20 2]
    = Ok r'
    /\ (covered (extent_set_ r') 9
        <-> covered [mkExtent 5 3] 9
            \/ blocks_of_any [mkExtent 7 3; mkExtent 20 2] 9).
Proof.
  destruct (bulk_extents_coverage (mkRanges [mkExtent 5 3] 3 true)
              [mkExtent 7 3; mkExtent 20 2]) as [[r' [E H]] _].
  - apply (reach_AddExtent fits (empty_ranges true) (mkExtent 5 3)).
    + apply reach_empty.
    + unfold fits, u64_extent, u64, two64; simpl. lia.
    + vm_compute. reflexivity.
  - repeat constructor; unfold u64, two64; simpl; lia.
  - exists r'. split; [exact E|apply H].
Defined.

Lemma blocks_of_any_stored (s : ExtentSet) (x : Z) :
  Forall stored_ok s -> (blocks_of_any s x <-> covered s x).
Proof.
  intros Hs. rewrite Forall_forall in Hs. unfold blocks_of_any, covered.
  split; intros [e [Hin H]]; exists e; split; try exact Hin.
  - apply (proj1 (blocks_of_stored e x (Hs e Hin))). exact H.
  - apply (proj2 (blocks_of_stored e x (Hs e Hin))). exact H.
Qed.

(** X10: for two sets reachable from the empty one by the mutators called
    with extents that are sparse holes or end at or below 2^64 - 1,
    [AddRanges] returns a set that covers the blocks of the one or the
    other, and [SubtractRanges] the blocks of the first that are not in the
    second. *)
Theorem ranges_union_difference (r q : ExtentRanges) :
  reachable fits r -> reachable fits q ->
  (exists r',
     AddRanges r q = Ok r'
     /\ forall x, covered (extent_set_ r') x
                  <-> covered (extent_set_ r) x \/ covered (extent_set_ q) x)
  /\ (forall x, covered (extent_set_ (SubtractRanges r q)) x
                <-> covered (extent_set_ r) x /\ ~ covered (extent_set_ q) x).
Proof.
  intros Hr Hq.
  pose proof (reachable_ranges_ok r Hr) as Ho.
  pose proof (reachable_ranges_ok q Hq) as Hoq.
  pose proof (ranges_ok_entries_fit q Hoq) as Hf.
  destruct Hoq as [[Hs _] _].
  unfold AddRanges, SubtractRanges. split.
  - destruct (AddExtents_covers _ r Ho Hf) as [r' [E [_ [_ Hc]]]].
    exists r'. split; [exact E|].
    intros x. rewrite Hc, (blocks_of_any_stored _ x Hs). tauto.
  - intros x.
    destruct (SubtractExtents_covers _ r Ho Hf) as [_ [_ Hc]].
    rewrite Hc, (blocks_of_any_stored _ x Hs). tauto.
Qed.

Lemma ranges_union_difference_witness :
  covered (extent_set_ (SubtractRanges (mkRanges [mkExtent 5 3] 3 true)
                                       (mkRanges [mkExtent 5 3] 3 true))) 6
  <-> covered [mkExtent 5 3] 6 /\ ~ covered [mkExtent 5 3] 6.
Proof.
  assert (R : reachable fits (mkRanges [mkExtent 5 3] 3 true)).
  { apply (reach_AddExtent fits (empty_ranges true) (mkExtent 5 3)).
    - apply reach_empty.
    - unfold fits, u64_extent, u64, two64; simpl. lia.
    - vm_compute. reflexivity. }
  apply (proj2 (ranges_union_difference _ _ R R)).
Defined.

Lemma add_repeated_from (exts : list Extent) : forall pre r,
  add_repeated (pre ++ exts) (length pre) (length exts) r = AddExtents r exts.
Proof.
  induction exts as [|e exts IH]; intros pre r; simpl; [reflexivity|].
  rewrite app_nth2, Nat.sub_diag by lia. simpl.
  destruct (AddExtent r e) as [r'| |]; simpl; try reflexivity.
  specialize (IH (pre ++ [e]) r').
  rewrite <- app_assoc, length_app in IH. simpl in IH.
  rewrite Nat.add_1_r in IH. exact IH.
Qed.

Lemma subtract_repeated_from (exts : list Extent) : forall pre r,
  subtract_repeated (pre ++ exts) (length pre) (length exts) r
  = SubtractExtents r exts.
Proof.
  unfold SubtractExtents.
  induction exts as [|e exts IH]; intros pre r; simpl; [reflexivity|].
  rewrite app_nth2, Nat.sub_diag by lia. simpl.
  specialize (IH (pre ++ [e]) (SubtractExtent r e)).
  rewrite <- app_assoc, length_app in IH. simpl in IH.
  rewrite Nat.add_1_r in IH. exact IH.
Qed.

(** X11: the loops over a repeated field do what the loops over a vector do:
    [AddRepeatedExtents] and [SubtractRepeatedExtents] give the results of
    [AddExtents] and [SubtractExtents] on the same sequence, failures
    included. *)
Theorem repeated_extents_as_vector (r : ExtentRanges) (exts : list Extent) :
  AddRepeatedExtents r exts = AddExtents r exts
  /\ SubtractRepeatedExtents r exts = SubtractExtents r exts.
Proof.
  split.
  - apply (add_repeated_from exts [] r).
  - apply (subtract_repeated_from exts [] r).
Qed.

(* ------------------------------------------------------------------ *)
(** ** Merge mode: one representation per set of blocks *)

Lemma covered_head_bounds (g : Z) (h : Extent) (t : ExtentSet) (x : Z) :
  0 <= g -> well_formed g (h :: t) -> covered t x ->
  start_block h + num_blocks h + g <= x.
Proof.
  intros Hg Hw [y [Hin Hc]].
  apply well_formed_cons_inv in Hw. destruct Hw as [_ [Hsep _]].
  rewrite Forall_forall in Hsep. pose proof (Hsep y Hin).
  unfold sep, covers in *. lia.
Qed.

Lemma well_formed_canonical (s1 : ExtentSet) : forall s2,
  well_formed 1 s1 -> well_formed 1 s2 ->
  (forall x, covered s1 x <-> covered s2 x) -> s1 = s2.
Proof.
  induction s1 as [|h1 t1 IH]; intros [|h2 t2] H1 H2 Hc.
  - reflexivity.
  - exfalso. apply well_formed_cons_inv in H2. destruct H2 as [Hh _].
    assert (C : covered (h2 :: t2) (start_block h2)).
    { exists h2. split; [left; reflexivity|]. unfold covers, stored_ok in *. lia. }
    apply Hc in C. destruct C as [y [[] _]].
  - exfalso. apply well_formed_cons_inv in H1. destruct H1 as [Hh _].
    assert (C : covered (h1 :: t1) (start_block h1)).
    { exists h1. split; [left; reflexivity|]. unfold covers, stored_ok in *. lia. }
    apply Hc in C. destruct C as [y [[] _]].
  - pose proof H1 as W1. pose proof H2 as W2.
    apply well_formed_cons_inv in H1. destruct H1 as [Hh1 [Hs1 Ht1]].
    apply well_formed_cons_inv in H2. destruct H2 as [Hh2 [Hs2 Ht2]].
    assert (In1 : forall x, covers h1 x -> covers h2 x \/ covered t2 x).
    { intros x Hx. apply covered_cons. apply Hc. apply covered_cons. tauto. }
    assert (In2 : forall x, covers h2 x -> covers h1 x \/ covered t1 x).
    { intros x Hx. apply covered_cons. apply Hc. apply covered_cons. tauto. }
    assert (B1 : forall x, covered t1 x -> start_block h1 + num_blocks h1 + 1 <= x).
    { intros x. apply (covered_head_bounds 1 h1 t1 x); [lia|exact W1]. }
    assert (B2 : forall x, covered t2 x -> start_block h2 + num_blocks h2 + 1 <= x).
    { intros x. apply (covered_head_bounds 1 h2 t2 x); [lia|exact W2]. }
    unfold stored_ok in Hh1, Hh2.
    assert (Es : start_block h1 = start_block h2).
    { unfold covers in *.
      destruct (In1 (start_block h1)) as [A|A]; [lia| |apply B2 in A];
        (destruct (In2 (start_block h2)) as [B|B]; [lia| |apply B1 in B]); lia. }
    assert (En : num_blocks h1 = num_blocks h2).
    { destruct (Z.lt_trichotomy (num_blocks h1) (num_blocks h2)) as [L|[E|L]];
        [|exact E|]; exfalso.
      - unfold covers in *.
        destruct (In2 (start_block h1 + num_blocks h1)) as [A|A];
          [lia| |apply B1 in A]; lia.
      - unfold covers in *.
        destruct (In1 (start_block h2 + num_blocks h2)) as [A|A];
          [lia| |apply B2 in A]; lia. }
    assert (Eh : h1 = h2).
    { destruct h1, h2; simpl in *. subst. reflexivity. }
    subst h2. f_equal. apply IH; try assumption.
    intros x. split; intros Hx.
    + pose proof (B1 x Hx).
      assert (C : covered (h1 :: t2) x).
      { apply Hc. apply covered_cons. tauto. }
      apply covered_cons in C. destruct C as [C|C]; [|exact C].
      unfold covers in C. lia.
    + pose proof (B2 x Hx).
      assert (C : covered (h1 :: t1) x).
      { apply Hc. apply covered_cons. tauto. }
      apply covered_cons in C. destruct C as [C|C]; [|exact C].
      unfold covers in C. lia.
Qed.

Lemma ranges_ok_canonical (r1 r2 : ExtentRanges) :
  ranges_ok r1 -> ranges_ok r2 ->
  merge_touching_extents_ r1 = true -> merge_touching_extents_ r2 = true ->
  (forall x, covered (extent_set_ r1) x <-> covered (extent_set_ r2) x) ->
  r1 = r2.
Proof.
  intros [W1 B1] [W2 B2] M1 M2 Hc.
  destruct r1 as [s1 b1 m1], r2 as [s2 b2 m2]. simpl in *. subst m1 m2.
  simpl in W1, W2.
  assert (s1 = s2) by (apply well_formed_canonical; assumption).
  subst. reflexivity.
Qed.

(** X12: in merge mode the entries are determined by the covered blocks:
    two merge-mode sets reachable from the empty one by the mutators called
    with extents that are sparse holes or end at or below 2^64 - 1, and
    covering the same blocks, have the same entries and the same block
    count. *)
Theorem merge_mode_canonical (r1 r2 : ExtentRanges) :
  reachable fits r1 -> reachable fits r2 ->
  merge_touching_extents_ r1 = true -> merge_touching_extents_ r2 = true ->
  (forall x, covered (extent_set_ r1) x <-> covered (extent_set_ r2) x) ->
  r1 = r2.
Proof.
  intros H1 H2. apply ranges_ok_canonical; apply reachable_ranges_ok; assumption.
Qed.

Lemma merge_mode_canonical_witness :
  SubtractExtent (mkRanges [mkExtent 5 5] 5 true) (mkExtent 8 2)
  = mkRanges [mkExtent 5 3] 3 true.
Proof.
  assert (R0 : reachable fits (mkRanges [mkExtent 5 3] 3 true)).
  { apply (reach_AddExtent fits (empty_ranges true) (mkExtent 5 3)).
    - apply reach_empty.
    - unfold fits, u64_extent, u64, two64; simpl. lia.
    - vm_compute. reflexivity. }
  assert (R1 : reachable fits (mkRanges [mkExtent 5 5] 5 true)).
  { apply (reach_AddExtent fits (mkRanges [mkExtent 5 3] 3 true) (mkExtent 8 2)).
    - exact R0.
    - unfold fits, u64_extent, u64, two64; simpl. lia.
    - vm_compute. reflexivity. }
  apply merge_mode_canonical.
  - apply reach_SubtractExtent; [exact R1|].
    unfold fits, u64_extent, u64, two64; simpl. lia.
  - exact R0.
  - reflexivity.
  - reflexivity.
  - intros x. vm_compute extent_set_. reflexivity.
Defined.

(** X13: on a merge-mode set reachable from the empty one by the mutators
    called with extents that are sparse holes or end at or below 2^64 - 1,
    two calls of [AddExtent] with two such extents can be swapped: both
    orders return, with the same entries and block count. *)
Theorem AddExtent_commutes_merge_mode (r : ExtentRanges) (a b : Extent) :
  reachable fits r -> merge_touching_extents_ r = true -> fits a -> fits b ->
  exists r',
    (r1 <- AddExtent r a ;; AddExtent r1 b) = Ok r'
    /\ (r1 <- AddExtent r b ;; AddExtent r1 a) = Ok r'.
Proof.
  intros Hr Hm Ha Hb. pose proof (reachable_ranges_ok r Hr) as Ho.
  destruct (AddExtent_fits_covers r a Ho Ha) as [ra [Ea [Hra [Hma Hca]]]].
  destruct (AddExtent_fits_covers ra b Hra Hb) as [rab [Eab [Hrab [Hmab Hcab]]]].
  destruct (AddExtent_fits_covers r b Ho Hb) as [rb [Eb [Hrb [Hmb Hcb]]]].
  destruct (AddExtent_fits_covers rb a Hrb Ha) as [rba [Eba [Hrba [Hmba Hcba]]]].
  exists rab. rewrite Ea, Eb. simpl. split; [exact Eab|].
  rewrite Eba. f_equal. apply ranges_ok_canonical; try assumption;
    try congruence.
  intros x. rewrite Hcba, Hcb, Hcab, Hca. tauto.
Qed.

Lemma AddExtent_commutes_merge_mode_witness :
  exists r',
    (r1 <- AddExtent (mkRanges [mkExtent 5 3] 3 true) (mkExtent 0 5) ;;
     AddExtent r1 (mkExtent 7 4)) = Ok r'
    /\ (r1 <- AddExtent (mkRanges [mkExtent 5 3] 3 true) (mkExtent 7 4) ;;
        AddExtent r1 (mkExtent 0 5)) = Ok r'.
Proof.
  apply (AddExtent_commutes_merge_mode (mkRanges [mkExtent 5 3] 3 true)
           (mkExtent 0 5) (mkExtent 7 4)).
  - apply (reach_AddExtent fits (empty_ranges true) (mkExtent 5 3)).
    + apply reach_empty.
    + unfold fits, u64_extent, u64, two64; simpl. lia.
    + vm_compute. reflexivity.
  - reflexivity.
  - unfold fits, u64_extent, u64, two64; simpl. lia.
  - unfold fits, u64_extent, u64, two64; simpl. lia.
Defined.

(* ------------------------------------------------------------------ *)
(** ** How the mutators compose *)

Lemma no_middle_when_uncovered (e : Extent) (l m r : list Extent) :
  stored_ok e -> Forall stored_ok (l ++ m ++ r) ->
  Forall (fun x => sep 0 x e) l ->
  Forall (fun x => ~ apart 0 x e) m ->
  Forall (fun x => sep 0 e x) r ->
  (forall x, covered (l ++ m ++ r) x -> ~ covers e x) ->
  m = [].
Proof.
  intros He Hf Hl Hm Hr Hn.
  destruct m as [|y m]; [reflexivity|]. exfalso.
  destruct (proj2 (shares_block_iff_middle e l (y :: m) r He Hf Hl Hm Hr))
    as [b [Hb Hc]]; [discriminate|].
  exact (Hn b Hb Hc).
Qed.

Lemma SubtractExtent_unchanged (r : ExtentRanges) (e : Extent) :
  ranges_ok r -> stored_ok e ->
  (forall x, covered (extent_set_ r) x -> ~ covers e x) ->
  SubtractExtent r e = r.
Proof.
  intros Hr He Hn. pose proof Hr as [Hw Hb].
  destruct r as [s b merge]. simpl in *.
  pose proof (well_formed_relax _ _ (gap_nonneg merge) Hw) as Hw0.
  destruct (classify 0 e s ltac:(lia) He Hw0) as [l [m [rr [Es [Hl [Hm Hrr]]]]]].
  subst s.
  assert (m = []).
  { destruct Hw0 as [Hf _].
    apply (no_middle_when_uncovered e l m rr He Hf Hl Hm Hrr Hn). }
  subst m.
  rewrite (SubtractExtent_classified merge l [] rr b e He Hw0 Hl Hm Hrr).
  simpl. f_equal.
  pose proof (well_formed_total _ _ (gap_nonneg merge) Hw) as Ht.
  simpl in Ht. rewrite Hb. change (wrap64 0) with 0. simpl app.
  rewrite Z.sub_0_r. apply wrap64_small. unfold two64 in *. lia.
Qed.

(** X14: on a set reachable from the empty one by the mutators called with
    extents that are sparse holes or end at or below 2^64 - 1, subtracting
    such an extent a second time changes nothing. *)
Theorem SubtractExtent_idempotent (r : ExtentRanges) (e : Extent) :
  reachable fits r -> fits e ->
  SubtractExtent (SubtractExtent r e) e = SubtractExtent r e.
Proof.
  intros Hr He. pose proof (reachable_ranges_ok r Hr) as Ho.
  destruct (fits_cases e He) as [D|S].
  - unfold SubtractExtent. rewrite D. reflexivity.
  - destruct (SubtractExtent_ok r e Ho S) as [H1 [_ H3]].
    apply SubtractExtent_unchanged; [exact H1|exact S|].
    intros x Hx. apply H3 in Hx. tauto.
Qed.

Lemma SubtractExtent_idempotent_witness :
  SubtractExtent (SubtractExtent (mkRanges [mkExtent 5 3] 3 true) (mkExtent 6 1))
                 (mkExtent 6 1)
  = SubtractExtent (mkRanges [mkExtent 5 3] 3 true) (mkExtent 6 1).
Proof.
  apply SubtractExtent_idempotent.
  - apply (reach_AddExtent fits (empty_ranges true) (mkExtent 5 3)).
    + apply reach_empty.
    + unfold fits, u64_extent, u64, two64; simpl. lia.
    + vm_compute. reflexivity.
  - unfold fits, u64_extent, u64, two64; simpl. lia.
Defined.

Lemma pieces_self (e : Extent) : pieces e e = [].
Proof.
  unfold pieces. rewrite !Z.ltb_irrefl. reflexivity.
Qed.

Lemma SubtractExtent_own_entry (l rr : list Extent) (b1 : Z) (e : Extent) :
  stored_ok e ->
  ranges_ok (mkRanges (l ++ [e] ++ rr) b1 false) ->
  Forall (fun x => sep 0 x e) l ->
  Forall (fun x => sep 0 e x) rr ->
  SubtractExtent (mkRanges (l ++ [e] ++ rr) b1 false) e
  = mkRanges (l ++ rr) (total_blocks (l ++ rr)) false.
Proof.
  intros S Ho Hl Hrr.
  destruct (SubtractExtent_ok _ e Ho S) as [[_ Hb2] _].
  pose proof Ho as [Hw _]. simpl in Hw.
  assert (Hme : Forall (fun x => ~ apart 0 x e) [e]).
  { constructor; [|constructor]. unfold apart, sep, stored_ok in *. lia. }
  pose proof (SubtractExtent_classified false l [e] rr b1 e S Hw Hl Hme Hrr)
    as Eq.
  rewrite Eq in Hb2. cbn [flat_map blocks_ extent_set_] in Hb2.
  rewrite pieces_self in Hb2. cbn [app] in Hb2.
  rewrite Eq. cbn [flat_map]. rewrite pieces_self. cbn [app].
  f_equal. exact Hb2.
Qed.

(** X15: on a set reachable from the empty one by the mutators called with
    extents that are sparse holes or end at or below 2^64 - 1, adding such
    an extent, none of whose blocks lies in an entry, and subtracting it
    again gives back the set, entries and block count, in both modes. *)
Theorem AddExtent_then_SubtractExtent (r : ExtentRanges) (e : Extent) :
  reachable fits r -> fits e ->
  (forall x, covered (extent_set_ r) x -> ~ covers e x) ->
  exists r1, AddExtent r e = Ok r1 /\ SubtractExtent r1 e = r.
Proof.
  intros Hr He Hn. pose proof (reachable_ranges_ok r Hr) as Ho.
  destruct (fits_cases e He) as [D|S].
  - exists r. unfold AddExtent, SubtractExtent. rewrite D. split; reflexivity.
  - destruct (AddExtent_covers r e Ho S) as [r1 [E1 [Ho1 [Hm1 Hc1]]]].
    exists r1. split; [exact E1|].
    destruct (SubtractExtent_ok r1 e Ho1 S) as [Ho2 [Hm2 Hc2]].
    destruct (merge_touching_extents_ r) eqn:Em.
    + apply ranges_ok_canonical; try assumption; try congruence.
      intros x. rewrite Hc2, Hc1. specialize (Hn x). tauto.
    + (* without merging the extent becomes an entry of its own *)
      clear Ho2 Hm2 Hc2 Hc1 Hm1.
      pose proof Ho as [Hw Hb]. destruct r as [s b merge].
      cbn [extent_set_ blocks_ merge_touching_extents_] in *.
      subst merge. cbn [gap] in Hw.
      destruct (classify 0 e s ltac:(lia) S Hw)
        as [l [m [rr [Es [Hl [Hm Hrr]]]]]].
      subst s.
      assert (m = []).
      { destruct Hw as [Hf _].
        apply (no_middle_when_uncovered e l m rr S Hf Hl Hm Hrr Hn). }
      subst m.
      rewrite (AddExtent_classified false l [] rr b e S Hw Hl Hm Hrr) in E1.
      injection E1 as <-.
      etransitivity; [apply (SubtractExtent_own_entry l rr _ e S Ho1 Hl Hrr)|].
      cbn [app]. f_equal. symmetry. exact Hb.
Qed.

Lemma AddExtent_then_SubtractExtent_witness :
  exists r1,
    AddExtent (mkRanges [mkExtent 0 5] 5 true) (mkExtent 5 5) = Ok r1
    /\ SubtractExtent r1 (mkExtent 5 5) = mkRanges [mkExtent 0 5] 5 true.
Proof.
  apply (AddExtent_then_SubtractExtent (mkRanges [mkExtent 0 5] 5 true)
           (mkExtent 5 5)).
  - apply (reach_AddExtent fits (empty_ranges true) (mkExtent 0 5)).
    + apply reach_empty.
    + unfold fits, u64_extent, u64, two64; simpl. lia.
    + vm_compute. reflexivity.
  - unfold fits, u64_extent, u64, two64; simpl. lia.
  - intros x [y [[<-|[]] Hc]]. unfold covers in *; simpl in *. lia.
Defined.

(* ------------------------------------------------------------------ *)
(** ** The block count after a mutation *)

Lemma excluded_blocks_apart (g : Z) (e : Extent) (s : ExtentSet) :
  0 <= g -> stored_ok e -> Forall stored_ok s ->
  Forall (fun x => apart g x e) s -> excluded_blocks s e = 0.
Proof.
  intros Hg He Hs Ha. apply excluded_blocks_zero.
  eapply Forall_impl; [|exact (Forall_and Hs Ha)]. simpl.
  intros x [H1 H2]. apply shared_blocks_apart; try assumption.
  unfold apart, sep in *. lia.
Qed.

Lemma hull_total (g : Z) (m : list Extent) : forall e,
  0 <= g <= 1 -> stored_ok e -> well_formed g m ->
  Forall (fun x => ~ apart g x e) m ->
  num_blocks (hull e m) = num_blocks e + total_blocks m - excluded_blocks m e.
Proof.
  induction m as [|x m IH]; intros e Hg He Hw Ha; simpl; [lia|].
  apply well_formed_cons_inv in Hw. destruct Hw as [Hx [Hsep Hw]].
  inversion Ha as [|? ? Hax Ha']; subst.
  rewrite (IH (hull2 e x) Hg (hull2_stored e x He Hx) Hw).
  2:{ eapply Forall_impl; [|exact Ha']. intros y Hy.
      apply hull2_not_apart; try assumption. lia. }
  assert (Hn : num_blocks (hull2 e x)
               = num_blocks e + num_blocks x - shared_blocks e x).
  { unfold hull2, shared_blocks, apart, sep, stored_ok in *. simpl. lia. }
  assert (Hex : excluded_blocks m (hull2 e x) = excluded_blocks m e).
  { apply excluded_blocks_ext.
    destruct Hw as [Hf _].
    eapply Forall_impl;
      [|exact (Forall_and Hf (Forall_and Hsep Ha'))]. simpl.
    intros y [Hy [Hxy Hay]].
    unfold hull2, shared_blocks, apart, sep, stored_ok in *. simpl. lia. }
  rewrite Hn, Hex. lia.
Qed.

Lemma pieces_total (e x : Extent) :
  stored_ok x -> stored_ok e -> ~ apart 0 x e ->
  total_blocks (pieces e x) = num_blocks x - shared_blocks e x.
Proof.
  unfold pieces, shared_blocks, apart, sep, stored_ok. intros Hx He Ha.
  destruct (start_block x <? start_block e) eqn:E1;
    destruct (start_block e + num_blocks e <? start_block x + num_blocks x) eqn:E2;
    unbool; simpl; lia.
Qed.

Lemma flat_pieces_total_exact (e : Extent) (m : list Extent) :
  stored_ok e -> Forall stored_ok m -> Forall (fun y => ~ apart 0 y e) m ->
  total_blocks (flat_map (pieces e) m) = total_blocks m - excluded_blocks m e.
Proof.
  intros He Hm Ha. induction m as [|y m IH]; [reflexivity|].
  inversion Hm; subst. inversion Ha; subst.
  cbn [flat_map]. rewrite total_blocks_app.
  rewrite pieces_total by assumption. rewrite IH by assumption.
  simpl. lia.
Qed.

Lemma excluded_blocks_empty_extent (s : ExtentSet) (e : Extent) :
  num_blocks e = 0 -> excluded_blocks s e = 0.
Proof.
  intros H. apply excluded_blocks_zero. apply Forall_forall. intros x _.
  unfold shared_blocks. lia.
Qed.

Lemma in_range_cases (e : Extent) :
  in_range e ->
  ((start_block e =? kSparseHole) || (num_blocks e =? 0) = true
   /\ num_blocks e = 0)
  \/ stored_ok e.
Proof.
  intros [[Hs Hn] Hf]. unfold u64 in *.
  destruct (Z.eqb_spec (start_block e) kSparseHole) as [E|N].
  - left. split; [reflexivity|]. unfold kSparseHole in E. lia.
  - destruct (Z.eqb_spec (num_blocks e) 0) as [E0|N0].
    + left. split; [reflexivity|exact E0].
    + right. unfold stored_ok. lia.
Qed.

(** X16: on a set reachable from the empty one by the mutators called with
    extents that are sparse holes or end at or below 2^64 - 1, and for an
    extent that ends at or below 2^64 - 1, [AddExtent] raises the block
    count by the blocks of the extent that were in no entry, and
    [SubtractExtent] lowers it by the blocks of the extent that were in
    one. *)
Theorem block_count_accounting (r : ExtentRanges) (e : Extent) :
  reachable fits r -> in_range e ->
  (exists r',
     AddExtent r e = Ok r'
     /\ blocks_ r' = blocks_ r + num_blocks e
                     - excluded_blocks (extent_set_ r) e)
  /\ blocks_ (SubtractExtent r e)
     = blocks_ r - excluded_blocks (extent_set_ r) e.
Proof.
  intros Hr He. pose proof (reachable_ranges_ok r Hr) as Ho.
  destruct (in_range_cases e He) as [[D Z0]|S].
  - rewrite (excluded_blocks_empty_extent _ e Z0).
    unfold AddExtent, SubtractExtent. rewrite D. split.
    + exists r. split; [reflexivity|lia].
    + lia.
  - split.
    + destruct (AddExtent_ok r e Ho S)
        as [l [m [rr [Es [Hl [Hm [Hrr [E Hw']]]]]]]].
      eexists. split; [exact E|]. cbn [blocks_].
      destruct Ho as [Hw Hb]. rewrite Hb, Es. rewrite Es in Hw.
      pose proof (gap_nonneg (merge_touching_extents_ r)) as Hg0.
      pose proof (gap_le_1 (merge_touching_extents_ r)) as Hg1.
      pose proof Hw as Hwx.
      apply well_formed_app_inv in Hwx. destruct Hwx as [[Hfl _] [Hwx _]].
      apply well_formed_app_inv in Hwx. destruct Hwx as [Hwm [[Hfr _] _]].
      rewrite !total_blocks_app, !excluded_blocks_app.
      change (total_blocks (hull e m :: rr))
        with (num_blocks (hull e m) + total_blocks rr).
      rewrite (hull_total _ m e (conj Hg0 Hg1) S Hwm Hm).
      rewrite (excluded_blocks_apart _ e l Hg0 S Hfl).
      2:{ eapply Forall_impl; [|exact Hl]. intros x Hx. left. exact Hx. }
      rewrite (excluded_blocks_apart _ e rr Hg0 S Hfr).
      2:{ eapply Forall_impl; [|exact Hrr]. intros x Hx. right. exact Hx. }
      lia.
    + destruct (SubtractExtent_ok r e Ho S) as [[_ Hb'] _].
      destruct Ho as [Hw Hb]. destruct r as [s b merge].
      cbn [extent_set_ blocks_ merge_touching_extents_] in *.
      pose proof (well_formed_relax _ _ (gap_nonneg merge) Hw) as Hw0.
      destruct (classify 0 e s ltac:(lia) S Hw0)
        as [l [m [rr [Es [Hl [Hm Hrr]]]]]].
      subst s.
      rewrite (SubtractExtent_classified merge l m rr b e S Hw0 Hl Hm Hrr) in *.
      cbn [extent_set_ blocks_] in Hb'. rewrite Hb', Hb.
      pose proof Hw0 as Hwx.
      apply well_formed_app_inv in Hwx. destruct Hwx as [[Hfl _] [Hwx _]].
      apply well_formed_app_inv in Hwx. destruct Hwx as [[Hfm _] [[Hfr _] _]].
      rewrite !total_blocks_app, !excluded_blocks_app.
      rewrite (flat_pieces_total_exact e m S Hfm Hm).
      rewrite (excluded_blocks_apart 0 e l ltac:(lia) S Hfl).
      2:{ eapply Forall_impl; [|exact Hl]. intros x Hx. left. exact Hx. }
      rewrite (excluded_blocks_apart 0 e rr ltac:(lia) S Hfr).
      2:{ eapply Forall_impl; [|exact Hrr]. intros x Hx. right. exact Hx. }
      cbn [blocks_]. lia.
Qed.

Lemma block_count_accounting_witness :
  blocks_ (SubtractExtent (mkRanges [mkExtent 5 3] 3 true) (mkExtent 6 4))
  = 3 - excluded_blocks [mkExtent 5 3] (mkExtent 6 4).
Proof.
  apply (proj2 (block_count_accounting (mkRanges [mkExtent 5 3] 3 true)
                  (mkExtent 6 4)
                  ltac:(apply (reach_AddExtent fits (empty_ranges true)
                                 (mkExtent 5 3));
                        [apply reach_empty
                        |unfold fits, u64_extent, u64, two64; simpl; lia
                        |vm_compute; reflexivity])
                  ltac:(unfold in_range, u64_extent, u64, two64; simpl; lia))).
Defined.

(* ------------------------------------------------------------------ *)
(** ** Single blocks *)

Lemma ContainsBlock_decides (r : ExtentRanges) (x : Z) (b : bool) :
  ranges_ok r -> 0 <= x < kSparseHole ->
  (covered (extent_set_ r) x <-> b = true) ->
  ContainsBlock r x = Ok b.
Proof.
  intros [Hw _] Hx Hb.
  destruct (ContainsBlock_ok r x
              (well_formed_relax _ _ (gap_nonneg _) Hw) Hx) as [b' [E Hb']].
  rewrite E. f_equal.
  destruct b, b'; try reflexivity.
  - exfalso. assert (false = true) by tauto. discriminate.
  - exfalso. assert (false = true) by tauto. discriminate.
Qed.

Lemma ContainsBlock_same (r1 r2 : ExtentRanges) (x : Z) :
  ranges_ok r1 -> ranges_ok r2 -> 0 <= x < kSparseHole ->
  (covered (extent_set_ r1) x <-> covered (extent_set_ r2) x) ->
  ContainsBlock r1 x = ContainsBlock r2 x.
Proof.
  intros H1 H2 Hx Hc. pose proof H2 as [Hw _].
  destruct (ContainsBlock_ok r2 x
              (well_formed_relax _ _ (gap_nonneg _) Hw) Hx) as [b [E Hb]].
  rewrite E. apply ContainsBlock_decides; try assumption.
  rewrite Hc. tauto.
Qed.

Lemma block_extent_stored (b : Z) :
  0 <= b < kSparseHole -> stored_ok (ExtentForRange b 1).
Proof. unfold kSparseHole, stored_ok, two64; simpl. lia. Qed.

(** X17: on a set reachable from the empty one by the mutators called with
    extents that are sparse holes or end at or below 2^64 - 1, and for a
    block other than the sentinel, [ContainsBlock] finds the block after
    [AddBlock] and does not find it after [SubtractBlock]; for every other
    block below the sentinel the answer of [ContainsBlock] is what it
    was. *)
Theorem block_round_trip (r : ExtentRanges) (b : Z) :
  reachable fits r -> 0 <= b < kSparseHole ->
  (exists r',
     AddBlock r b = Ok r'
     /\ ContainsBlock r' b = Ok true
     /\ forall x, 0 <= x < kSparseHole -> x <> b ->
                  ContainsBlock r' x = ContainsBlock r x)
  /\ ContainsBlock (SubtractBlock r b) b = Ok false
  /\ forall x, 0 <= x < kSparseHole -> x <> b ->
               ContainsBlock (SubtractBlock r b) x = ContainsBlock r x.
Proof.
  intros Hr Hb. pose proof (reachable_ranges_ok r Hr) as Ho.
  pose proof (block_extent_stored b Hb) as S.
  unfold AddBlock, SubtractBlock. split; [|split].
  - destruct (AddExtent_covers r _ Ho S) as [r' [E [Ho' [_ Hc]]]].
    exists r'. split; [exact E|]. split.
    + apply ContainsBlock_decides; try assumption.
      rewrite Hc. unfold covers; simpl. split; [reflexivity|]. intros _.
      right. lia.
    + intros x Hx Hne. apply ContainsBlock_same; try assumption.
      rewrite Hc. unfold covers; simpl. split; [|tauto].
      intros [H|H]; [exact H|lia].
  - destruct (SubtractExtent_ok r _ Ho S) as [Ho' [_ Hc]].
    apply ContainsBlock_decides; try assumption.
    rewrite Hc. unfold covers; simpl. split; [|discriminate].
    intros [_ N]. exfalso. apply N. lia.
  - intros x Hx Hne.
    destruct (SubtractExtent_ok r _ Ho S) as [Ho' [_ Hc]].
    apply ContainsBlock_same; try assumption.
    rewrite Hc. unfold covers; simpl. split; [tauto|].
    intros H. split; [exact H|lia].
Qed.

Lemma block_round_trip_witness :
  (exists r',
     AddBlock (mkRanges [mkExtent 5 3] 3 true) 9 = Ok r'
     /\ ContainsBlock r' 9 = Ok true
     /\ ContainsBlock r' 6 = ContainsBlock (mkRanges [mkExtent 5 3] 3 true) 6)
  /\ ContainsBlock (SubtractBlock (mkRanges [mkExtent 5 3] 3 true) 9) 9
     = Ok false
  /\ ContainsBlock (SubtractBlock (mkRanges [mkExtent 5 3] 3 true) 9) 6
     = ContainsBlock (mkRanges [mkExtent 5 3] 3 true) 6.
Proof.
  destruct (block_round_trip (mkRanges [mkExtent 5 3] 3 true) 9)
    as [[r' [E [C K]]] [S F]].
  - apply (reach_AddExtent fits (empty_ranges true) (mkExtent 5 3)).
    + apply reach_empty.
    + unfold fits, u64_extent, u64, two64; simpl. lia.
    + vm_compute. reflexivity.
  - unfold kSparseHole, two64. lia.
  - split; [exists r'; split; [exact E|split; [exact C|]]|split; [exact S|]].
    + apply K; unfold kSparseHole, two64; lia.
    + apply F; unfold kSparseHole, two64; lia.
Defined.

(** X18: on a set reachable from the empty one by the mutators called with
    extents that are sparse holes or end at or below 2^64 - 1, and for a
    block other than the sentinel, [ContainsBlock] answers as
    [OverlapsWithExtent] does on the extent made of that block. *)
Theorem ContainsBlock_as_overlap (r : ExtentRanges) (b : Z) :
  reachable fits r -> 0 <= b < kSparseHole ->
  ContainsBlock r b = OverlapsWithExtent r (ExtentForRange b 1).
Proof.
  intros Hr Hb. pose proof (reachable_ranges_ok r Hr) as Ho.
  pose proof (block_extent_stored b Hb) as S.
  pose proof Ho as [Hw _].
  destruct (OverlapsWithExtent_correct r _
              (well_formed_relax _ _ (gap_nonneg _) Hw) S) as [v [E Hv]].
  rewrite E. apply ContainsBlock_decides; try assumption.
  rewrite Hv. split.
  - intros H. exists b. split; [exact H|]. unfold covers; simpl. lia.
  - intros [x [H1 H2]]. unfold covers in H2; simpl in H2.
    replace b with x by lia. exact H1.
Qed.

Lemma ContainsBlock_as_overlap_witness :
  ContainsBlock (mkRanges [mkExtent 5 3] 3 true) 6
  = OverlapsWithExtent (mkRanges [mkExtent 5 3] 3 true) (ExtentForRange 6 1).
Proof.
  apply (ContainsBlock_as_overlap (mkRanges [mkExtent 5 3] 3 true) 6).
  - apply (reach_AddExtent fits (empty_ranges true) (mkExtent 5 3)).
    + apply reach_empty.
    + unfold fits, u64_extent, u64, two64; simpl. lia.
    + vm_compute. reflexivity.
  - unfold kSparseHole, two64. lia.
Defined.

(** X19: on a set reachable from the empty one by the mutators called with
    extents that are sparse holes or end at or below 2^64 - 1, and for a
    non-empty extent that is no sparse hole and ends at or below 2^64 - 1,
    [OverlapsWithExtent] answers yes after the extent was added and no
    after it was subtracted. *)
Theorem overlap_after_mutation (r : ExtentRanges) (e : Extent) :
  reachable fits r -> in_range e -> nondegenerate e ->
  (exists r', AddExtent r e = Ok r' /\ OverlapsWithExtent r' e = Ok true)
  /\ OverlapsWithExtent (SubtractExtent r e) e = Ok false.
Proof.
  intros Hr He Hn. pose proof (reachable_ranges_ok r Hr) as Ho.
  assert (S : stored_ok e).
  { unfold in_range, u64_extent, u64, nondegenerate, stored_ok in *. lia. }
  split.
  - destruct (AddExtent_covers r e Ho S) as [r' [E [[Hw' _] [_ Hc]]]].
    exists r'. split; [exact E|].
    destruct (OverlapsWithExtent_correct r' e
                (well_formed_relax _ _ (gap_nonneg _) Hw') S) as [v [Ev Hv]].
    rewrite Ev. f_equal. apply Hv. exists (start_block e). split.
    + apply Hc. right. unfold covers, stored_ok in *. lia.
    + unfold covers, stored_ok in *. lia.
  - destruct (SubtractExtent_ok r e Ho S) as [[Hw' _] [_ Hc]].
    destruct (OverlapsWithExtent_correct _ e
                (well_formed_relax _ _ (gap_nonneg _) Hw') S) as [v [Ev Hv]].
    rewrite Ev. f_equal. destruct v; [|reflexivity]. exfalso.
    destruct (proj1 Hv eq_refl) as [x [H1 H2]]. apply Hc in H1. tauto.
Qed.

Lemma overlap_after_mutation_witness :
  OverlapsWithExtent (SubtractExtent (mkRanges [mkExtent 5 3] 3 true)
                                     (mkExtent 6 1)) (mkExtent 6 1)
  = Ok false.
Proof.
  apply (proj2 (overlap_after_mutation (mkRanges [mkExtent 5 3] 3 true)
                  (mkExtent 6 1)
                  ltac:(apply (reach_AddExtent fits (empty_ranges true)
                                 (mkExtent 5 3));
                        [apply reach_empty
                        |unfold fits, u64_extent, u64, two64; simpl; lia
                        |vm_compute; reflexivity])
                  ltac:(unfold in_range, u64_extent, u64, two64; simpl; lia)
                  ltac:(unfold nondegenerate, kSparseHole, two64; simpl; lia))).
Defined.

(* ------------------------------------------------------------------ *)
(** ** The first blocks of a set *)

Lemma GetExtentsForBlockCount_taken (r : ExtentRanges) (count : Z) :
  data_invariant r -> u64 (blocks_ r) -> 0 < count <= blocks_ r ->
  exists pre x post k,
    extent_set_ r = pre ++ x :: post
    /\ GetExtentsForBlockCount r count = Ok (pre ++ [mkExtent (start_block x) k])
    /\ 0 < k <= num_blocks x
    /\ total_blocks pre + k = count.
Proof.
  intros [He Hs Hb] Ub Hc. unfold GetExtentsForBlockCount.
  assert (Hpos : Forall (fun e => 0 < num_blocks e) (extent_set_ r)).
  { eapply Forall_impl; [|exact He]. intros e [[_ U] [_ N]]. unfold u64 in U. lia. }
  destruct (count =? 0) eqn:E0; unbool; [lia|].
  destruct (count <=? blocks_ r) eqn:E1; unbool; [|lia]. simpl.
  destruct (take_loop_spec count (extent_set_ r) [] 0) as [taken [E [T S]]];
    try assumption; try (unfold u64 in *; lia).
  rewrite E. simpl.
  pose proof (taken_from_sub_range _ _ Hpos T) as Hsub.
  rewrite BlocksInExtents_total.
  - rewrite S, Z.sub_0_r, Z.eqb_refl.
    destruct T as [pre [x [post [k [Etl [Etk Hk]]]]]].
    exists pre, x, post, k. subst taken.
    rewrite total_blocks_app in S. simpl in S.
    repeat split; try assumption; lia.
  - eapply Forall_impl; [|exact Hsub]. simpl. intros o [H _]. lia.
  - unfold u64 in *. lia.
Qed.

(** X20: on a set that satisfies the invariants, and for a count between 1
    and [blocks_], [GetExtentsForBlockCount] returns the first entries of
    the set unchanged, followed by one entry that keeps its start and is
    cut to the blocks still needed; together they hold the count. *)
Theorem GetExtentsForBlockCount_prefix (r : ExtentRanges) (count : Z) :
  data_invariant r -> u64 (blocks_ r) -> 0 < count <= blocks_ r ->
  exists pre x post k,
    extent_set_ r = pre ++ x :: post
    /\ GetExtentsForBlockCount r count = Ok (pre ++ [mkExtent (start_block x) k])
    /\ 0 < k <= num_blocks x
    /\ total_blocks pre + k = count.
Proof. apply GetExtentsForBlockCount_taken. Qed.

Lemma GetExtentsForBlockCount_prefix_witness :
  exists pre x post k,
    [mkExtent 0 4; mkExtent 10 4] = pre ++ x :: post
    /\ GetExtentsForBlockCount (mkRanges [mkExtent 0 4; mkExtent 10 4] 8 true) 5
       = Ok (pre ++ [mkExtent (start_block x) k])
    /\ 0 < k <= num_blocks x
    /\ total_blocks pre + k = 5.
Proof.
  apply (GetExtentsForBlockCount_prefix
           (mkRanges [mkExtent 0 4; mkExtent 10 4] 8 true) 5).
  - constructor; simpl.
    + repeat constructor; simpl; unfold kSparseHole, two64; lia.
    + repeat constructor; simpl; try lia; discriminate.
    + reflexivity.
  - unfold u64, two64; simpl; lia.
  - simpl. lia.
Defined.

(** X21: on a non-empty set that satisfies the invariants, asking for all
    the blocks returns the entries as they are. *)
Theorem GetExtentsForBlockCount_all (r : ExtentRanges) :
  data_invariant r -> u64 (blocks_ r) -> 0 < blocks_ r ->
  GetExtentsForBlockCount r (blocks_ r) = Ok (extent_set_ r).
Proof.
  intros Hd Ub Hp.
  destruct (GetExtentsForBlockCount_taken r (blocks_ r) Hd Ub ltac:(lia))
    as [pre [x [post [k [Es [E [Hk Ht]]]]]]].
  rewrite E, Es. f_equal.
  destruct Hd as [He _ Hb]. rewrite Es in He, Hb.
  rewrite Hb, total_blocks_app in Ht. simpl in Ht.
  apply Forall_app in He. destruct He as [_ He].
  inversion He as [|? ? _ Hpost]; subst.
  assert (Hpos : Forall (fun e => 0 < num_blocks e) post).
  { eapply Forall_impl; [|exact Hpost]. intros e [[_ U] [_ N]].
    unfold u64 in U. lia. }
  destruct post as [|y post].
  - destruct x as [sx nx]. simpl in *. replace k with nx by lia. reflexivity.
  - exfalso. inversion Hpos as [|? ? Hy Hpos']; subst.
    assert (0 <= total_blocks post).
    { apply total_blocks_nonneg. eapply Forall_impl; [|exact Hpos'].
      simpl. intros; lia. }
    simpl in Ht. lia.
Qed.

Lemma GetExtentsForBlockCount_all_witness :
  GetExtentsForBlockCount (mkRanges [mkExtent 0 4; mkExtent 10 4] 8 true) 8
  = Ok [mkExtent 0 4; mkExtent 10 4].
Proof.
  apply (GetExtentsForBlockCount_all
           (mkRanges [mkExtent 0 4; mkExtent 10 4] 8 true)).
  - constructor; simpl.
    + repeat constructor; simpl; unfold kSparseHole, two64; lia.
    + repeat constructor; simpl; try lia; discriminate.
    + reflexivity.
  - unfold u64, two64; simpl; lia.
  - simpl. lia.
Defined.

(* ------------------------------------------------------------------ *)
(** ** What FilterExtentRanges keeps *)

Lemma filter_all_nothing_excluded (extents : list Extent) : forall res,
  filter_all [] extents res
  = Ok (res ++ filter (fun e => num_blocks e >? 0) extents).
Proof.
  induction extents as [|e extents IH]; intros res; simpl.
  - rewrite app_nil_r. reflexivity.
  - unfold filter_one. simpl. rewrite IH.
    destruct (num_blocks e >? 0); [rewrite <- app_assoc|]; reflexivity.
Qed.

(** X22: with an empty exclude set, [FilterExtentRanges] returns its input
    in order, less the extents of zero length, whatever the input. *)
Theorem FilterExtentRanges_nothing_excluded (extents : list Extent) (b : Z)
        (merge : bool) :
  FilterExtentRanges extents (mkRanges [] b merge)
  = Ok (filter (fun e => num_blocks e >? 0) extents).
Proof.
  unfold FilterExtentRanges. simpl. apply filter_all_nothing_excluded.
Qed.

Lemma shared_zero_disjoint (e x : Extent) (b : Z) :
  shared_blocks e x = 0 -> covers e b -> covers x b -> False.
Proof. unfold shared_blocks, covers. lia. Qed.

Lemma shared_zero_not_covered (e : Extent) (s : ExtentSet) (b : Z) :
  Forall (fun x => shared_blocks e x = 0) s -> covers e b -> ~ covered s b.
Proof.
  intros Hs He [x [Hin Hx]]. rewrite Forall_forall in Hs.
  exact (shared_zero_disjoint e x b (Hs x Hin) He Hx).
Qed.

Lemma covered_after (lo : Z) (s : ExtentSet) (b : Z) :
  Forall (fun y => lo <= start_block y) s -> covered s b -> lo <= b.
Proof.
  intros Hs [y [Hin Hy]]. rewrite Forall_forall in Hs.
  pose proof (Hs y Hin). unfold covers in Hy. lia.
Qed.

Lemma filter_loop_covers (tl : list Extent) : forall iter upper extent res,
  well_formed 0 tl -> in_range extent ->
  (iter <= upper <= iter + length tl)%nat ->
  Forall (fun x => shared_blocks extent x = 0) (skipn (upper - iter) tl) ->
  exists res' extent',
    filter_loop tl iter upper extent res = Ok (res ++ res', extent')
    /\ 0 <= num_blocks extent'
    /\ Forall (fun p => 0 < num_blocks p) res'
    /\ forall b, covered res' b \/ covers extent' b
                 <-> covers extent b /\ ~ covered tl b.
Proof.
  induction tl as [|x tl IH]; intros iter upper extent res Hw He Hi Hz.
  - simpl in Hi. simpl filter_loop. replace upper with iter by lia.
    rewrite Nat.eqb_refl.
    exists [], extent. rewrite app_nil_r. unfold in_range, u64_extent, u64 in He.
    split; [reflexivity|]. split; [lia|]. split; [constructor|].
    intros b. unfold covered. split.
    + intros [[y [[] _]]|H]. split; [exact H|]. intros [y [[] _]].
    + tauto.
  - simpl in Hi. simpl filter_loop.
    destruct (Nat.eqb_spec iter upper) as [->|N].
    + exists [], extent. rewrite app_nil_r. rewrite Nat.sub_diag in Hz.
      simpl skipn in Hz.
      unfold in_range, u64_extent, u64 in He.
      split; [reflexivity|]. split; [lia|]. split; [constructor|].
      intros b. split.
      * intros [[y [[] _]]|H]. split; [exact H|].
        apply (shared_zero_not_covered extent); assumption.
      * tauto.
    + apply well_formed_cons_inv in Hw. destruct Hw as [Hx [Hsep Hw]].
      replace (upper - iter)%nat with (S (upper - S iter)) in Hz by lia.
      simpl skipn in Hz.
      assert (Hlater : Forall (fun y => start_block x + num_blocks x
                                        <= start_block y) tl).
      { eapply Forall_impl; [|exact Hsep]. unfold sep. intros y Hy. lia. }
      assert (Hnext : forall e',
                start_block extent <= start_block x + num_blocks x ->
                start_block e' = start_block x + num_blocks x ->
                start_block e' + num_blocks e'
                = start_block extent + num_blocks extent ->
                Forall (fun y => shared_blocks e' y = 0)
                       (skipn (upper - S iter) tl)).
      { intros e' H0 H1 H2.
        pose proof (Forall_skipn_of _ _ (upper - S iter) Hlater) as H.
        pose proof (Forall_and Hz H) as H'.
        eapply Forall_impl; [|exact H']. simpl. intros y [Ha Hb].
        unfold shared_blocks in *. lia. }
      destruct (ExtentsOverlap extent x) eqn:Eo; simpl negb; cbv iota.
      * rewrite (end_block_stored x Hx).
        assert (Ho : start_block extent < start_block x + num_blocks x
                     /\ (start_block extent < start_block x ->
                         start_block x < start_block extent + num_blocks extent)).
        { clear - Eo He Hx. revert Eo. unfold_ext.
          split_cmps; intros; unbool; try discriminate; lia64. }
        assert (Ee : end_block extent = start_block extent + num_blocks extent).
        { unfold end_block. apply wrap64_small.
          unfold in_range, u64_extent, u64, two64 in He. lia. }
        rewrite Ee.
        unfold in_range, u64_extent, u64, stored_ok in He, Hx.
        destruct (start_block x <=? start_block extent) eqn:E1; unbool.
        -- rewrite (wrap64_small (start_block x + num_blocks x - start_block extent))
             by (unfold two64 in *; lia).
           destruct (start_block x + num_blocks x - start_block extent
                     >=? num_blocks extent) eqn:E2; unbool.
           ++ exists [], (set_num_blocks extent 0). rewrite app_nil_r.
              split; [reflexivity|]. split; [simpl; lia|].
              split; [constructor|].
              intros b. rewrite covered_cons. unfold covers; simpl. split.
              ** intros [[y [[] _]]|H]. lia.
              ** intros [H1 H2]. exfalso. apply H2. left. lia.
           ++ set (e' := ExtentForRange _ _).
              assert (Es : start_block e' = start_block x + num_blocks x).
              { subst e'. simpl. rewrite wrap64_small by (unfold two64 in *; lia).
                lia. }
              assert (En : num_blocks e'
                           = start_block extent + num_blocks extent
                             - (start_block x + num_blocks x)).
              { subst e'. simpl. rewrite wrap64_small by (unfold two64 in *; lia).
                lia. }
              assert (He' : in_range e').
              { unfold in_range, u64_extent, u64. rewrite Es, En. lia. }
              destruct (IH (S iter) upper e' res Hw He' ltac:(lia)
                           (Hnext e' ltac:(lia) ltac:(lia) ltac:(lia)))
                as [res' [ext' [E [Hn [Hp Hc]]]]].
              exists res', ext'. split; [exact E|]. split; [exact Hn|].
              split; [exact Hp|].
              intros b. rewrite Hc, covered_cons.
              assert (A : covers e' b <-> covers extent b /\ ~ covers x b).
              { unfold covers. rewrite Es, En. lia. }
              rewrite A. tauto.
        -- rewrite (wrap64_small (start_block x - start_block extent))
             by (unfold two64 in *; lia).
           set (p := ExtentForRange (start_block extent)
                       (start_block x - start_block extent)).
           assert (Hpb : forall b, covers p b
                                   <-> covers extent b /\ b < start_block x).
           { intros b. unfold covers, p. simpl. lia. }
           assert (Hpt : forall b, b < start_block x -> ~ covered tl b).
           { intros b Hb Hcov.
             pose proof (covered_after _ tl b Hlater Hcov). lia. }
           destruct (start_block x + num_blocks x
                     >=? start_block extent + num_blocks extent) eqn:E2; unbool.
           ++ exists [p], (set_num_blocks extent 0).
              split; [reflexivity|]. split; [simpl; lia|].
              split; [repeat constructor; simpl; lia|].
              intros b. rewrite !covered_cons.
              specialize (Hpb b). specialize (Hpt b).
              unfold covers in *; simpl in *. split.
              ** intros [[H|[y [[] _]]]|H]; [|lia].
                 split; [lia|]. intros [H'|H']; [lia|]. apply Hpt; [lia|exact H'].
              ** intros [H1 H2]. left. left.
                 destruct (Z_lt_le_dec b (start_block x)); [lia|].
                 exfalso. apply H2. left. lia.
           ++ set (e' := ExtentForRange _ _).
              assert (Es : start_block e' = start_block x + num_blocks x)
                by reflexivity.
              assert (En : num_blocks e'
                           = start_block extent + num_blocks extent
                             - (start_block x + num_blocks x)).
              { subst e'. simpl. rewrite wrap64_small by (unfold two64 in *; lia).
                lia. }
              assert (He' : in_range e').
              { unfold in_range, u64_extent, u64. rewrite Es, En. lia. }
              destruct (IH (S iter) upper e' (res ++ [p]) Hw He' ltac:(lia)
                           (Hnext e' ltac:(lia) ltac:(lia) ltac:(lia)))
                as [res' [ext' [E [Hn [Hp Hc]]]]].
              exists (p :: res'), ext'. split.
              { rewrite E, <- app_assoc. reflexivity. }
              split; [exact Hn|].
              split; [constructor; [simpl; lia|exact Hp]|].
              intros b. rewrite !covered_cons.
              assert (A : covers e' b
                          <-> covers extent b /\ start_block x + num_blocks x <= b).
              { unfold covers. rewrite Es, En. lia. }
              specialize (Hpb b). specialize (Hpt b). specialize (Hc b).
              assert (B : covers x b
                          <-> start_block x <= b < start_block x + num_blocks x)
                by (unfold covers; lia).
              split.
              ** intros [[H|H]|H].
                 --- apply (proj1 Hpb) in H. destruct H as [H1 H2].
                     split; [exact H1|]. intros [H'|H'].
                     +++ apply (proj1 B) in H'. lia.
                     +++ exact (Hpt H2 H').
                 --- assert (T : covered res' b \/ covers ext' b) by tauto.
                     apply (proj1 Hc) in T. destruct T as [T1 T2]. apply (proj1 A) in T1.
                     split; [tauto|]. intros [H'|H']; [apply (proj1 B) in H'; lia|tauto].
                 --- assert (T : covered res' b \/ covers ext' b) by tauto.
                     apply (proj1 Hc) in T. destruct T as [T1 T2]. apply (proj1 A) in T1.
                     split; [tauto|]. intros [H'|H']; [apply (proj1 B) in H'; lia|tauto].
              ** intros [H1 H2].
                 destruct (Z_lt_le_dec b (start_block x)) as [L|L].
                 --- left. left. apply Hpb. tauto.
                 --- assert (T : covers e' b /\ ~ covered tl b).
                     { split; [|tauto]. apply A. split; [exact H1|].
                       destruct (Z_lt_le_dec b (start_block x + num_blocks x));
                         [|lia].
                       exfalso. apply H2. left. apply B. lia. }
                     apply (proj2 Hc) in T. tauto.
      * destruct (IH (S iter) upper extent res Hw He ltac:(lia) Hz)
          as [res' [ext' [E [Hn [Hp Hc]]]]].
        exists res', ext'. split; [exact E|]. split; [exact Hn|].
        split; [exact Hp|].
        intros b. rewrite Hc, covered_cons.
        pose proof (shared_zero_disjoint extent x b
                      (not_overlap_shared extent x He Hx Eo)).
        tauto.
Qed.

Lemma filter_one_covers (s : ExtentSet) (res : list Extent) (extent : Extent) :
  well_formed 0 s -> in_range extent ->
  exists res',
    filter_one s res extent = Ok (res ++ res')
    /\ Forall (fun p => 0 < num_blocks p) res'
    /\ forall b, covered res' b <-> covers extent b /\ ~ covered s b.
Proof.
  intros Hw He. unfold filter_one.
  set (lower0 := lower_bound s extent).
  set (upper := lower_bound s (ExtentForRange (end_block extent) 0)).
  assert (Ee : end_block extent = start_block extent + num_blocks extent).
  { unfold end_block. apply wrap64_small.
    unfold in_range, u64_extent, u64, two64 in He. lia. }
  assert (L : forall i e, nth_error s i = Some e -> (i < lower0)%nat ->
                          start_block e <= start_block extent
                          /\ (start_block e = start_block extent ->
                              0 < num_blocks extent)).
  { intros i e Hi Hlt.
    pose proof (lower_bound_before s _ i e Hi Hlt) as Hl.
    pose proof (well_formed_nth_stored _ _ _ _ Hw Hi) as Hs.
    clear - Hl Hs He. unfold_ext. revert Hl.
    split_cmps; intros; unbool; try discriminate; lia. }
  assert (U : forall i e, nth_error s i = Some e -> (upper <= i)%nat ->
                          start_block extent + num_blocks extent <= start_block e).
  { intros i e Hi Hle.
    pose proof (lower_bound_after s _ Hw i e Hi Hle) as Hl.
    pose proof (well_formed_nth_stored _ _ _ _ Hw Hi) as Hs.
    rewrite Ee in Hl. clear - Hl Hs He. unfold_ext. revert Hl.
    split_cmps; intros; unbool; try discriminate; lia. }
  assert (Hup : (upper <= length s)%nat) by apply lower_bound_le.
  assert (Hl0 : (lower0 <= length s)%nat) by apply lower_bound_le.
  assert (Hlo : (Nat.pred lower0 <= upper)%nat).
  { destruct (le_lt_dec (Nat.pred lower0) upper) as [H|H]; [exact H|].
    destruct (nth_error s upper) as [e|] eqn:Hi.
    - pose proof (L upper e Hi ltac:(lia)).
      pose proof (U upper e Hi ltac:(lia)).
      unfold in_range, u64_extent, u64 in He. lia.
    - apply nth_error_None in Hi. lia. }
  assert (Hafter : Forall (fun x => shared_blocks extent x = 0)
                          (skipn (upper - Nat.pred lower0)
                                 (skipn (Nat.pred lower0) s))).
  { apply Forall_forall. intros e Hin.
    apply In_nth_error in Hin. destruct Hin as [i Hi].
    rewrite !nth_error_skipn in Hi.
    pose proof (U _ e Hi ltac:(lia)) as Hu.
    pose proof (well_formed_nth_stored _ _ _ _ Hw Hi) as Hs.
    unfold shared_blocks, stored_ok in *. lia. }
  assert (Hbefore : Forall (fun x => shared_blocks extent x = 0)
                           (firstn (Nat.pred lower0) s)).
  { apply Forall_forall. intros e Hin.
    apply In_nth_error in Hin. destruct Hin as [i Hi].
    rewrite nth_error_firstn in Hi.
    destruct (Nat.ltb_spec i (Nat.pred lower0)) as [Hlt|]; [|discriminate].
    destruct (nth_error s (S i)) as [e'|] eqn:Hi'.
    - pose proof (L (S i) e' Hi' ltac:(lia)) as [Hle _].
      pose proof (well_formed_nth_sep 0 s Hw i (S i) e e' ltac:(lia) Hi Hi')
        as Hsep.
      unfold shared_blocks, sep in *. lia.
    - apply nth_error_None in Hi'. lia. }
  destruct (filter_loop_covers (skipn (Nat.pred lower0) s) (Nat.pred lower0)
              upper extent res) as [res' [ext' [E [Hn [Hp Hc]]]]].
  - rewrite <- (firstn_skipn (Nat.pred lower0) s) in Hw.
    apply well_formed_app_inv in Hw. tauto.
  - exact He.
  - rewrite length_skipn. lia.
  - exact Hafter.
  - rewrite E. simpl.
    assert (Hs : forall b, covers extent b ->
                   (covered s b <-> covered (skipn (Nat.pred lower0) s) b)).
    { intros b Hb. rewrite <- (firstn_skipn (Nat.pred lower0) s) at 1.
      rewrite covered_app.
      pose proof (shared_zero_not_covered extent _ b Hbefore Hb). tauto. }
    destruct (num_blocks ext' >? 0) eqn:E0; unbool.
    + exists (res' ++ [ext']). rewrite app_assoc. split; [reflexivity|].
      split; [apply Forall_app; split; [exact Hp|repeat constructor; lia]|].
      intros b. rewrite covered_app, covered_cons. specialize (Hc b).
      specialize (Hs b).
      assert (N : ~ covered [] b) by (intros [y [[] _]]). tauto.
    + exists res'. split; [reflexivity|]. split; [exact Hp|].
      intros b. specialize (Hc b). specialize (Hs b).
      assert (N : ~ covers ext' b) by (unfold covers; lia). tauto.
Qed.

Lemma filter_all_covers (s : ExtentSet) (extents : list Extent) : forall res,
  well_formed 0 s -> Forall in_range extents ->
  exists res',
    filter_all s extents res = Ok (res ++ res')
    /\ Forall (fun p => 0 < num_blocks p) res'
    /\ forall b, covered res' b <-> covered extents b /\ ~ covered s b.
Proof.
  induction extents as [|e extents IH]; intros res Hw He; simpl.
  - exists []. rewrite app_nil_r. split; [reflexivity|].
    split; [constructor|]. intros b. unfold covered. split.
    + intros [y [[] _]].
    + intros [[y [[] _]] _].
  - inversion He as [|? ? He1 He2]; subst.
    destruct (filter_one_covers s res e Hw He1) as [r1 [E1 [P1 C1]]].
    rewrite E1. simpl.
    destruct (IH (res ++ r1) Hw He2) as [r2 [E2 [P2 C2]]].
    exists (r1 ++ r2). rewrite app_assoc. split; [exact E2|].
    split; [apply Forall_app; split; assumption|].
    intros b. rewrite covered_app, covered_cons, C1, C2. tauto.
Qed.

(** X23: let the entries of the exclude set be non-empty and end at or
    below 2^64 - 1, in ascending order and pairwise disjoint, and let the
    input extents end at or below 2^64 - 1.  Then [FilterExtentRanges]
    returns non-empty extents whose blocks are exactly the blocks of the
    input that lie in no entry of the exclude set. *)
Theorem FilterExtentRanges_covers (extents : list Extent) (r : ExtentRanges) :
  well_formed 0 (extent_set_ r) -> Forall in_range extents ->
  exists out,
    FilterExtentRanges extents r = Ok out
    /\ Forall (fun p => 0 < num_blocks p) out
    /\ forall b, covered out b
                 <-> covered extents b /\ ~ covered (extent_set_ r) b.
Proof.
  intros Hw He. unfold FilterExtentRanges.
  destruct (filter_all_covers (extent_set_ r) extents [] Hw He)
    as [out [E [P C]]].
  exists out. split; [exact E|]. split; assumption.
Qed.

Lemma FilterExtentRanges_covers_witness :
  exists out,
    FilterExtentRanges [mkExtent 0 10] (mkRanges [mkExtent 3 4] 4 true) = Ok out
    /\ Forall (fun p => 0 < num_blocks p) out.
Proof.
  destruct (FilterExtentRanges_covers [mkExtent 0 10]
              (mkRanges [mkExtent 3 4] 4 true)) as [out [E [P _]]].
  - split; repeat constructor; unfold two64; simpl; lia.
  - repeat constructor; unfold two64; simpl; lia.
  - exists out. split; assumption.
Defined.

(* ------------------------------------------------------------------ *)
(** ** Entries only grow under AddExtent and only shrink under
       SubtractExtent *)

Lemma hull_holds (m : list Extent) : forall e,
  sub_range e (hull e m) /\ Forall (fun x => sub_range x (hull e m)) m.
Proof.
  induction m as [|x m IH]; intros e; simpl.
  - split; [unfold sub_range; lia|constructor].
  - destruct (IH (hull2 e x)) as [H1 H2].
    assert (A : sub_range e (hull2 e x) /\ sub_range x (hull2 e x)).
    { unfold sub_range, hull2; simpl. lia. }
    split; [|constructor; [|exact H2]];
      unfold sub_range in *; lia.
Qed.

(** X24: on a set reachable from the empty one by the mutators called with
    extents that are sparse holes or end at or below 2^64 - 1, and for a
    non-empty extent that is no sparse hole and ends at or below 2^64 - 1,
    every entry before [AddExtent] lies inside an entry after it, and so
    does the extent; every entry after [SubtractExtent] lies inside an
    entry before it. *)
Theorem entries_grow_and_shrink (r : ExtentRanges) (e : Extent) :
  reachable fits r -> in_range e -> nondegenerate e ->
  (exists r',
     AddExtent r e = Ok r'
     /\ (exists y, In y (extent_set_ r') /\ sub_range e y)
     /\ Forall (fun x => exists y, In y (extent_set_ r') /\ sub_range x y)
               (extent_set_ r))
  /\ Forall (fun p => exists x, In x (extent_set_ r) /\ sub_range p x)
            (extent_set_ (SubtractExtent r e)).
Proof.
  intros Hr He Hn. pose proof (reachable_ranges_ok r Hr) as Ho.
  assert (S : stored_ok e).
  { unfold in_range, u64_extent, u64, nondegenerate, stored_ok in *. lia. }
  split.
  - destruct (AddExtent_ok r e Ho S)
      as [l [m [rr [Es [Hl [Hm [Hrr [E Hw']]]]]]]].
    eexists. split; [exact E|]. cbn [extent_set_].
    destruct (hull_holds m e) as [H1 H2]. split.
    + exists (hull e m). split; [apply in_or_app; right; left; reflexivity|].
      exact H1.
    + rewrite Es. apply Forall_app. split; [|apply Forall_app; split].
      * apply Forall_forall. intros x Hx. exists x.
        split; [apply in_or_app; left; exact Hx|unfold sub_range; lia].
      * eapply Forall_impl; [|exact H2]. simpl. intros x Hx.
        exists (hull e m). split; [apply in_or_app; right; left; reflexivity|].
        exact Hx.
      * apply Forall_forall. intros x Hx. exists x.
        split; [apply in_or_app; right; right; exact Hx|unfold sub_range; lia].
  - destruct Ho as [Hw Hb]. destruct r as [s b merge].
    cbn [extent_set_ blocks_ merge_touching_extents_] in *.
    pose proof (well_formed_relax _ _ (gap_nonneg merge) Hw) as Hw0.
    destruct (classify 0 e s ltac:(lia) S Hw0)
      as [l [m [rr [Es [Hl [Hm Hrr]]]]]].
    subst s.
    rewrite (SubtractExtent_classified merge l m rr b e S Hw0 Hl Hm Hrr).
    cbn [extent_set_].
    pose proof Hw0 as Hwx.
    apply well_formed_app_inv in Hwx. destruct Hwx as [_ [Hwx _]].
    apply well_formed_app_inv in Hwx. destruct Hwx as [Hwm _].
    destruct (pieces_well_formed 0 e m ltac:(lia) S Hwm Hm) as [_ Hpin].
    apply Forall_app. split; [|apply Forall_app; split].
    + apply Forall_forall. intros x Hx. exists x.
      split; [apply in_or_app; left; exact Hx|unfold sub_range; lia].
    + eapply Forall_impl; [|exact Hpin]. simpl. intros p [y [Hy [Hp _]]].
      exists y. split; [|exact Hp].
      apply in_or_app; right. apply in_or_app; left. exact Hy.
    + apply Forall_forall. intros x Hx. exists x.
      split; [|unfold sub_range; lia].
      apply in_or_app; right. apply in_or_app; right. exact Hx.
Qed.

Lemma entries_grow_and_shrink_witness :
  Forall (fun p => exists x, In x [mkExtent 5 3] /\ sub_range p x)
         (extent_set_ (SubtractExtent (mkRanges [mkExtent 5 3] 3 true)
                                      (mkExtent 6 1))).
Proof.
  apply (proj2 (entries_grow_and_shrink (mkRanges [mkExtent 5 3] 3 true)
                  (mkExtent 6 1)
                  ltac:(apply (reach_AddExtent fits (empty_ranges true)
                                 (mkExtent 5 3));
                        [apply reach_empty
                        |unfold fits, u64_extent, u64, two64; simpl; lia
                        |vm_compute; reflexivity])
                  ltac:(unfold in_range, u64_extent, u64, two64; simpl; lia)
                  ltac:(unfold nondegenerate, kSparseHole, two64; simpl; lia))).
Defined.

(* ------------------------------------------------------------------ *)
(** ** An entry that touches the added extent *)

(** X25: on a set reachable by the mutators called with extents that are
    sparse holes or end at or below 2^64 - 1, let an entry touch a non-empty
    extent that is no sparse hole and ends at or below 2^64 - 1.
    [AddExtent] of that extent returns, and the extent lies inside an entry
    of the result; in merge mode the touching entry lies inside that same
    entry, without merge mode the touching entry is still an entry and is
    another one. *)
Theorem AddExtent_touching_entry (r : ExtentRanges) (x e : Extent) :
  reachable fits r -> In x (extent_set_ r) ->
  in_range e -> nondegenerate e -> touching x e ->
  exists r' y,
    AddExtent r e = Ok r'
    /\ In y (extent_set_ r') /\ sub_range e y
    /\ (merge_touching_extents_ r = true -> sub_range x y)
    /\ (merge_touching_extents_ r = false ->
        y <> x /\ In x (extent_set_ r')).
Proof.
  intros Hr Hx He Hn Ht. pose proof (reachable_ranges_ok r Hr) as Ho.
  assert (Se : stored_ok e).
  { unfold in_range, u64_extent, u64, nondegenerate, stored_ok in *. lia. }
  assert (Sx : stored_ok x).
  { destruct Ho as [[Hs _] _]. rewrite Forall_forall in Hs. apply Hs, Hx. }
  destruct (AddExtent_ok r e Ho Se)
    as [l [m [rr [Es [Hl [Hm [Hrr [E _]]]]]]]].
  destruct (hull_holds m e) as [H1 H2].
  rewrite Forall_forall in Hl, Hm, Hrr, H2.
  exists (mkRanges (l ++ hull e m :: rr) (total_blocks (l ++ hull e m :: rr))
            (merge_touching_extents_ r)), (hull e m).
  split; [exact E|]. cbn [extent_set_].
  split; [apply in_or_app; right; left; reflexivity|].
  split; [exact H1|].
  rewrite Es in Hx. apply in_app_or in Hx.
  destruct Hx as [Hx|Hx]; [|apply in_app_or in Hx; destruct Hx as [Hx|Hx]].
  - specialize (Hl x Hx). split; intros Hmode; rewrite Hmode in Hl.
    + exfalso. unfold touching, sep, stored_ok in *. simpl in Hl. lia.
    + split; [|apply in_or_app; left; exact Hx].
      intros Heq. rewrite Heq in H1.
      unfold sub_range, sep, stored_ok in *. simpl in Hl. lia.
  - split; intros Hmode.
    + apply H2, Hx.
    + exfalso. apply (Hm x Hx). rewrite Hmode.
      unfold touching, apart, sep, stored_ok in *. simpl. lia.
  - specialize (Hrr x Hx). split; intros Hmode; rewrite Hmode in Hrr.
    + exfalso. unfold touching, sep, stored_ok in *. simpl in Hrr. lia.
    + split; [|apply in_or_app; right; right; exact Hx].
      intros Heq. rewrite Heq in H1.
      unfold sub_range, sep, stored_ok in *. simpl in Hrr. lia.
Qed.

Lemma AddExtent_touching_entry_witness :
  exists r' y,
    AddExtent (mkRanges [mkExtent 10 5] 5 true) (mkExtent 5 5) = Ok r'
    /\ In y (extent_set_ r') /\ sub_range (mkExtent 5 5) y
    /\ sub_range (mkExtent 10 5) y.
Proof.
  destruct (AddExtent_touching_entry (mkRanges [mkExtent 10 5] 5 true)
              (mkExtent 10 5) (mkExtent 5 5))
    as [r' [y [E [Hy [He [Hx _]]]]]].
  - apply (reach_AddExtent fits (empty_ranges true) (mkExtent 10 5)).
    + apply reach_empty.
    + unfold fits, u64_extent, u64, two64; simpl. lia.
    + vm_compute. reflexivity.
  - left. reflexivity.
  - unfold in_range, u64_extent, u64, two64; simpl. lia.
  - unfold nondegenerate, kSparseHole, two64; simpl. lia.
  - right. reflexivity.
  - exists r', y. split; [exact E|]. split; [exact Hy|]. split; [exact He|].
    apply Hx. reflexivity.
Defined.
